(** * protobuf.js: wire-format writer and reflection model

    A shallow embedding of [src/writer.js] (the [Writer] class), of the field
    descriptor [Field] and of the container [Namespace], with the properties
    the specification states about them.

    Conventions of the embedding.
    - A JavaScript number that the code treats as an integer is a [Z]; the
      32-bit conversions of the bitwise operators are written out
      ([to_int32], [to_uint32]).
    - A [Uint8Array] is a [list Z] of its elements; a store converts the
      value to a byte and a store outside the array is dropped, as the typed
      array does.  [_slice] is [Uint8Array.prototype.slice] (a copy), [_set]
      is [Uint8Array.prototype.set].
    - A thrown exception ends the computation with [Throw]; the loops of the
      source are bounded recursions whose bound is shown to be enough.
    - The module-level variables that [Writer.setup] assigns ([_slice],
      [_set], [alloc], [emptyArray]) are one flag, [setup_done], carried next
      to the writer's own fields.
    - The code outside these sources that the writer calls, the IEEE-754
      codec of [float] and [double] and the helper [LongBits] of the 64-bit
      methods, is modelled from the specification: a number given to [float]
      or [double] is an IEEE-754 binary64 value, and a 64-bit value is a
      [Long] object [{low, high}] or an integer number. *)

From Stdlib Require Import ZArith Lia Bool Ascii.
From Stdlib Require Floats.SpecFloat.
From stdpp Require Import base tactics option list strings pretty.

Local Open Scope Z_scope.

(** ** Outcomes of a call *)

Inductive exn := TypeError | RangeError | Error.

Inductive result (A : Type) : Type :=
| Ok (a : A)
| Throw (e : exn)
| OutOfFuel.

Arguments Ok {A} a.
Arguments Throw {A} e.
Arguments OutOfFuel {A}.

#[global] Instance result_ret : MRet result := fun A a => Ok a.
#[global] Instance result_bind : MBind result := fun A B f m =>
  match m with
  | Ok a => f a
  | Throw e => Throw e
  | OutOfFuel => OutOfFuel
  end.
#[global] Instance result_fmap : FMap result := fun A B f m =>
  match m with
  | Ok a => Ok (f a)
  | Throw e => Throw e
  | OutOfFuel => OutOfFuel
  end.

(** ** JavaScript integer operators *)

Module JS.

Definition to_uint32 (z : Z) : Z := z mod 2 ^ 32.
Definition to_int32 (z : Z) : Z := (z + 2 ^ 31) mod 2 ^ 32 - 2 ^ 31.
Definition to_uint8 (z : Z) : Z := z mod 256.

(** [a << n], [a >> n], [a >>> n] for a constant [0 <= n < 32]. *)
Definition shl (a n : Z) : Z := to_int32 (Z.shiftl (to_int32 a) n).
Definition sar (a n : Z) : Z := Z.shiftr (to_int32 a) n.
Definition shr (a n : Z) : Z := Z.shiftr (to_uint32 a) n.

(** [a & b], [a | b], [a ^ b]. *)
Definition band (a b : Z) : Z := Z.land (to_int32 a) (to_int32 b).
Definition bor (a b : Z) : Z := Z.lor (to_int32 a) (to_int32 b).
Definition bxor (a b : Z) : Z := Z.lxor (to_int32 a) (to_int32 b).

End JS.

Import JS.

(** ** Writer state *)

Abbreviation bytes := (list Z) (only parsing).

(** [State]: the snapshot [fork] pushes. *)
Record State := mkState {
  st_bufs : list bytes;
  st_buf : option bytes;
  st_pos : Z;
  st_len : Z
}.

Record Writer := mkWriter {
  buf : option bytes;
  pos : Z;
  len : Z;
  bufs : list bytes;
  _stack : list State;
  (** module level: whether [Writer.setup] has run *)
  setup_done : bool
}.

(** [new Writer()] in a module whose setup flag is [s]. *)
Definition new_Writer (s : bool) : Writer := mkWriter None 0 0 [] [] s.

(** [new State(writer)] *)
Definition State_of (writer : Writer) : State :=
  mkState (bufs writer) (buf writer) (pos writer) (len writer).

(** [State.prototype.apply] *)
Definition apply (st : State) (writer : Writer) : Writer :=
  mkWriter (st_buf st) (st_pos st) (st_len st) (st_bufs st)
           (_stack writer) (setup_done writer).

Definition BUFFER_SIZE : Z := 256.

(** [emptyArray]: [null] until [Writer.setup] has assigned [Writer.alloc(0)]. *)
Definition emptyArray (w : Writer) : option bytes :=
  if setup_done w then Some [] else None.

(** [new Uint8Array(size)] *)
Definition alloc_array (size : Z) : bytes := replicate (Z.to_nat size) 0.

(** [this._slice.call(b, 0, e)]; [_slice] is undefined before the setup.  The
    source only slices from 0 to a position that is not negative. *)
Definition _slice (w : Writer) (b : bytes) (e : Z) : result bytes :=
  if setup_done w then Ok (take (Z.to_nat e) b) else Throw TypeError.

(** [this._set.call(target, array, offset)] *)
Definition _set (w : Writer) (target array : bytes) (offset : Z) : result bytes :=
  if setup_done w then
    if (offset <? 0) || (Z.of_nat (length target) <? offset + Z.of_nat (length array))
    then Throw RangeError
    else Ok (take (Z.to_nat offset) target ++ array
               ++ drop (Z.to_nat offset + length array) target)
  else Throw TypeError.

(** [b[i] = v] on a typed array *)
Definition store (b : bytes) (i v : Z) : bytes :=
  if i <? 0 then b else <[Z.to_nat i := to_uint8 v]> b.

(** [this.buf[this.pos++] = v] *)
Definition put (v : Z) (w : Writer) : result Writer :=
  match buf w with
  | None => Throw TypeError
  | Some b =>
      Ok (mkWriter (Some (store b (pos w) v)) (pos w + 1) (len w) (bufs w)
                   (_stack w) (setup_done w))
  end.

(** [Writer.prototype.expand]; the first [alloc] runs [Writer.setup]. *)
Definition expand (writeLength : Z) (w : Writer) : result Writer :=
  bufs' ← (if decide (pos w = 0) then Ok (bufs w)
           else match buf w with
                | None => Throw TypeError
                | Some b => s ← _slice w b (pos w); Ok (bufs w ++ [s])
                end);
  let l := Z.max writeLength BUFFER_SIZE in
  Ok (mkWriter (Some (alloc_array l)) 0 l bufs' (_stack w) true).

(** [if (this.pos + n > this.len) this.expand(n)] *)
Definition reserve (n : Z) (w : Writer) : result Writer :=
  if len w <? pos w + n then expand n w else Ok w.

(** [if (this.pos >= this.len) this.expand(1)] *)
Definition reserve1 (w : Writer) : result Writer :=
  if len w <=? pos w then expand 1 w else Ok w.

(** [Writer.prototype.tag] *)
Definition tag (id wireType : Z) (w : Writer) : result Writer :=
  w ← reserve 1 w;
  put (band (bor (shl id 3) (band wireType 7)) 255) w.

(** The two loops of [uint32]; a 32-bit value has at most five groups of
    seven bits, [fuel32] bounds the iterations. *)
Definition fuel32 : nat := 5.

Fixpoint uint32_fast (fuel : nat) (value : Z) (w : Writer) : result (Z * Writer) :=
  if 127 <? value then
    match fuel with
    | O => OutOfFuel
    | S fuel =>
        w ← put (bor (band value 127) 128) w;
        uint32_fast fuel (shr value 7) w
    end
  else Ok (value, w).

Fixpoint uint32_slow (fuel : nat) (value : Z) (w : Writer) : result (Z * Writer) :=
  if 127 <? value then
    match fuel with
    | O => OutOfFuel
    | S fuel =>
        w ← reserve1 w;
        w ← put (bor (band value 127) 128) w;
        uint32_slow fuel (shr value 7) w
    end
  else Ok (value, w).

(** [Writer.prototype.uint32] *)
Definition uint32 (value : Z) (w : Writer) : result Writer :=
  let value := shr value 0 in
  '(value, w) ← (if pos w + 4 <? len w then uint32_fast fuel32 value w
                 else '(value, w) ← uint32_slow fuel32 value w;
                      w ← reserve1 w;
                      Ok (value, w));
  put value w.

(** [Writer.prototype.int32 = Writer.prototype.uint32] *)
Definition int32 := uint32.

(** [Writer.prototype.sint32] *)
Definition sint32 (value : Z) (w : Writer) : result Writer :=
  uint32 (bxor (shl value 1) (sar value 31)) w.

(** The loops of [_writeLongVarint]; a 64-bit value has at most ten groups
    of seven bits. *)
Definition fuel64 : nat := 10.

Fixpoint longvarint_fast (fuel : nat) (lo hi : Z) (w : Writer) : result (Z * Writer) :=
  if (0 <? hi) || (127 <? lo) then
    match fuel with
    | O => OutOfFuel
    | S fuel =>
        w ← put (bor (band lo 127) 128) w;
        longvarint_fast fuel (shr (bor (shr lo 7) (shl hi 25)) 0) (shr hi 7) w
    end
  else Ok (lo, w).

Fixpoint longvarint_slow (fuel : nat) (lo hi : Z) (w : Writer) : result (Z * Writer) :=
  if (0 <? hi) || (127 <? lo) then
    match fuel with
    | O => OutOfFuel
    | S fuel =>
        w ← reserve1 w;
        w ← put (bor (band lo 127) 128) w;
        longvarint_slow fuel (shr (bor (shr lo 7) (shl hi 25)) 0) (shr hi 7) w
    end
  else Ok (lo, w).

(** [Writer.prototype._writeLongVarint] *)
Definition _writeLongVarint (lo hi : Z) (w : Writer) : result Writer :=
  '(lo, w) ← (if pos w + 9 <? len w then longvarint_fast fuel64 lo hi w
              else '(lo, w) ← longvarint_slow fuel64 lo hi w;
                   w ← reserve1 w;
                   Ok (lo, w));
  put lo w.

(** [Writer.prototype.uint64] on a [Long] object [{low, high}] *)
Definition uint64 (low high : Z) (w : Writer) : result Writer :=
  _writeLongVarint (shr low 0) (shr high 0) w.

(** [Writer.prototype.int64 = Writer.prototype.uint64] *)
Definition int64 := uint64.

(** [Writer.prototype.bool] *)
Definition bool_ (value : bool) (w : Writer) : result Writer :=
  w ← reserve1 w;
  put (if value then 1 else 0) w.

(** [Writer.prototype.fixed32] *)
Definition fixed32 (value : Z) (w : Writer) : result Writer :=
  w ← reserve 4 w;
  let value := shr value 0 in
  w ← put (band value 255) w;
  w ← put (band (shr value 8) 255) w;
  w ← put (band (shr value 16) 255) w;
  put (band (shr value 24) 255) w.

(** [Writer.prototype.sfixed32] *)
Definition sfixed32 (value : Z) (w : Writer) : result Writer :=
  fixed32 (bxor (shl value 1) (sar value 31)) w.

(** [Writer.prototype._writeLongFixed] *)
Definition _writeLongFixed (lo hi : Z) (w : Writer) : result Writer :=
  w ← reserve 8 w;
  w ← put (band lo 255) w;
  w ← put (band (shr lo 8) 255) w;
  w ← put (band (shr lo 16) 255) w;
  w ← put (shr lo 24) w;
  w ← put (band hi 255) w;
  w ← put (band (shr hi 8) 255) w;
  w ← put (band (shr hi 16) 255) w;
  put (shr hi 24) w.

(** [Writer.prototype.fixed64] on a [Long] object [{low, high}] *)
Definition fixed64 (low high : Z) (w : Writer) : result Writer :=
  _writeLongFixed (shr low 0) (shr high 0) w.

(** *** 64-bit values given as numbers, zig-zag *)

(** Modelled from the spec: [LongBits] is not among the sources; it holds a
    64-bit value as its two 32-bit halves. *)
Record LongBits := mkLongBits { lo : Z; hi : Z }.

(** Modelled from the spec: [LongBits.zero] holds the halves of 0. *)
Definition LongBits_zero : LongBits := mkLongBits 0 0.

(** Modelled from the spec: [LongBits.fromNumber] produces the two halves of
    an integer, the halves of its 64-bit two's complement when negative. *)
Definition LongBits_fromNumber (value : Z) : LongBits :=
  mkLongBits (value mod 2 ^ 32) ((value / 2 ^ 32) mod 2 ^ 32).

(** A 64-bit argument: an integer number or a [Long] object
    [{low, high}]. *)
Inductive long_value :=
| Number (value : Z)
| Long (low high : Z).

(** Modelled from the spec: [LongBits.from] and [LongBits.fromValue] produce
    the halves from an integer or from a [{high, low}] pair. *)
Definition LongBits_from (value : long_value) : LongBits :=
  match value with
  | Number value => LongBits_fromNumber value
  | Long low high => mkLongBits (shr low 0) (shr high 0)
  end.

(** Modelled from the spec: [LongBits.fromValue], as [LongBits.from]. *)
Definition LongBits_fromValue := LongBits_from.

(** Modelled from the spec: [zzEncode] is the zig-zag of the 64-bit value,
    [(n << 1) ^ (n >> 63)] on the signed value [n] of the halves. *)
Definition zzEncode (bits : LongBits) : LongBits :=
  let u := lo bits + 2 ^ 32 * hi bits in
  let n := if u <? 2 ^ 63 then u else u - 2 ^ 64 in
  let z := Z.lxor (Z.shiftl n 1) (Z.shiftr n 63) mod 2 ^ 64 in
  mkLongBits (z mod 2 ^ 32) (z / 2 ^ 32).

(** [Writer.prototype.uint64] on a number *)
Definition uint64_number (value : Z) (w : Writer) : result Writer :=
  let bits := if negb (value =? 0) then LongBits_fromNumber value else LongBits_zero in
  _writeLongVarint (lo bits) (hi bits) w.

(** [Writer.prototype.int64 = Writer.prototype.uint64], on a number *)
Definition int64_number := uint64_number.

(** [Writer.prototype.sint64] *)
Definition sint64 (value : long_value) (w : Writer) : result Writer :=
  let bits := zzEncode (LongBits_fromValue value) in
  _writeLongVarint (lo bits) (hi bits) w.

(** [Writer.prototype.fixed64] on a number *)
Definition fixed64_number (value : Z) (w : Writer) : result Writer :=
  let bits := if negb (value =? 0) then LongBits_fromNumber value else LongBits_zero in
  _writeLongFixed (lo bits) (hi bits) w.

(** [Writer.prototype.sfixed64] *)
Definition sfixed64 (value : long_value) (w : Writer) : result Writer :=
  let bits := zzEncode (LongBits_from value) in
  _writeLongFixed (lo bits) (hi bits) w.

(** *** Floats *)

(** A number as [float] and [double] read it: an IEEE-754 binary64 value,
    a finite one being [(-1)^s * m * 2^e]. *)
Abbreviation number := SpecFloat.spec_float (only parsing).

(** The [n] bytes of [v], the least significant first. *)
Fixpoint le_bytes (n : nat) (v : Z) : bytes :=
  match n with
  | O => []
  | S n => v mod 256 :: le_bytes n (v / 256)
  end.

(** Modelled from the spec: the IEEE-754 codec is not among the sources; it
    writes a number as a 32- or 64-bit float.  The bit pattern of [value] as
    a float of [nBytes] bytes with [mLen] bits of mantissa: the sign, the
    biased exponent and the mantissa of [value] rounded to the nearest such
    float, ties to even; [NaN] is the quiet one without payload. *)
Definition ieee754_bits (value : number) (mLen nBytes : Z) : Z :=
  let eLen := 8 * nBytes - mLen - 1 in
  let emax := 2 ^ (eLen - 1) in
  let sign (s : bool) := if s then 2 ^ (8 * nBytes - 1) else 0 in
  let rounded :=
    match value with
    | SpecFloat.S754_finite s m e => SpecFloat.binary_round (mLen + 1) emax s m e
    | _ => value
    end in
  match rounded with
  | SpecFloat.S754_zero s => sign s
  | SpecFloat.S754_infinity s => sign s + (2 ^ eLen - 1) * 2 ^ mLen
  | SpecFloat.S754_nan => (2 ^ eLen - 1) * 2 ^ mLen + 2 ^ (mLen - 1)
  | SpecFloat.S754_finite s m e =>
      sign s + (if 2 ^ mLen <=? Z.pos m
                then (e + mLen + emax - 1) * 2 ^ mLen + (Z.pos m - 2 ^ mLen)
                else Z.pos m)
  end.

(** [buffer[offset] = x0; buffer[offset + 1] = x1; ...] *)
Fixpoint store_bytes (buffer : bytes) (offset : Z) (xs : bytes) : bytes :=
  match xs with
  | [] => buffer
  | x :: xs => store_bytes (store buffer offset x) (offset + 1) xs
  end.

(** Modelled from the spec: [ieee754.write(buffer, value, offset, false, mLen,
    nBytes)] stores the float little-endian from [offset]. *)
Definition ieee754_write (buffer : bytes) (value : number) (offset mLen nBytes : Z)
  : bytes :=
  store_bytes buffer offset (le_bytes (Z.to_nat nBytes) (ieee754_bits value mLen nBytes)).

(** [Writer.prototype.float] *)
Definition float (value : number) (w : Writer) : result Writer :=
  w ← reserve 4 w;
  match buf w with
  | None => Throw TypeError
  | Some b =>
      Ok (mkWriter (Some (ieee754_write b value (pos w) 23 4)) (pos w + 4) (len w)
                   (bufs w) (_stack w) (setup_done w))
  end.

(** [Writer.prototype.double] *)
Definition double (value : number) (w : Writer) : result Writer :=
  w ← reserve 8 w;
  match buf w with
  | None => Throw TypeError
  | Some b =>
      Ok (mkWriter (Some (ieee754_write b value (pos w) 52 8)) (pos w + 8) (len w)
                   (bufs w) (_stack w) (setup_done w))
  end.

(** [Writer.prototype.bytes]; [value] is an array of numbers, which
    [Uint8Array.prototype.set] converts to bytes. *)
Definition bytes_ (value : list Z) (w : Writer) : result Writer :=
  let len_ := shr (Z.of_nat (length value)) 0 in
  if decide (len_ = 0) then
    w ← reserve1 w;
    put 0 w
  else
    w ← uint32 len_ w;
    w ← reserve len_ w;
    match buf w with
    | None => Throw TypeError
    | Some b =>
        b' ← _set w b (to_uint8 <$> value) (pos w);
        Ok (mkWriter (Some b') (pos w + len_) (len w) (bufs w)
                     (_stack w) (setup_done w))
    end.

(** The first loop of [string]: the UTF-8 length of the code units [s],
    added to [blen]. *)
Fixpoint string_blen (s : list Z) (blen : Z) : Z :=
  match s with
  | [] => blen
  | c1 :: s' =>
      if c1 <? 128 then string_blen s' (blen + 1)
      else if c1 <? 2048 then string_blen s' (blen + 2)
      else
        match s' with
        | c2 :: s'' =>
            if (band c1 0xFC00 =? 0xD800) && (band c2 0xFC00 =? 0xDC00)
            then string_blen s'' (blen + 4)
            else string_blen s' (blen + 3)
        | [] => string_blen s' (blen + 3)
        end
  end.

(** The second loop of [string]. *)
Fixpoint string_put (s : list Z) (w : Writer) : result Writer :=
  match s with
  | [] => Ok w
  | c1 :: s' =>
      if c1 <? 128 then
        w ← put c1 w;
        string_put s' w
      else if c1 <? 2048 then
        w ← put (bor (sar c1 6) 192) w;
        w ← put (bor (band c1 63) 128) w;
        string_put s' w
      else
        let three :=
          w ← put (bor (sar c1 12) 224) w;
          w ← put (bor (band (sar c1 6) 63) 128) w;
          w ← put (bor (band c1 63) 128) w;
          string_put s' w in
        match s' with
        | c2 :: s'' =>
            if (band c1 0xFC00 =? 0xD800) && (band c2 0xFC00 =? 0xDC00) then
              let c1 := 0x10000 + shl (band c1 0x03FF) 10 + band c2 0x03FF in
              w ← put (bor (sar c1 18) 240) w;
              w ← put (bor (band (sar c1 12) 63) 128) w;
              w ← put (bor (band (sar c1 6) 63) 128) w;
              w ← put (bor (band c1 63) 128) w;
              string_put s'' w
            else three
        | [] => three
        end
  end.

(** [Writer.prototype.string]; [value] is the string's UTF-16 code units,
    [charCodeAt(i)] is the [i]-th of them. *)
Definition string_ (value : list Z) (w : Writer) : result Writer :=
  let len_ := shr (Z.of_nat (length value)) 0 in
  if decide (len_ = 0) then
    w ← reserve1 w;
    put 0 w
  else
    let s := take (Z.to_nat len_) value in
    let blen := string_blen s 0 in
    w ← uint32 blen w;
    w ← reserve blen w;
    string_put s w.

(** [Writer.prototype.fork] *)
Definition fork (w : Writer) : Writer :=
  mkWriter None 0 0 [] (State_of w :: _stack w) (setup_done w).

(** [Writer.prototype.reset] *)
Definition reset (w : Writer) : Writer :=
  match _stack w with
  | st :: stack' =>
      apply st (mkWriter (buf w) (pos w) (len w) (bufs w) stack' (setup_done w))
  | [] => mkWriter None 0 0 [] [] (setup_done w)
  end.

(** The copy loop of [finish]: every sealed chunk is set into [concat]. *)
Fixpoint finish_copy (w : Writer) (bufs_ : list bytes) (concat_ : bytes) (pos_ : Z)
  : result (bytes * Z) :=
  match bufs_ with
  | [] => Ok (concat_, pos_)
  | sub :: rest =>
      concat_ ← _set w concat_ sub pos_;
      finish_copy w rest concat_ (pos_ + Z.of_nat (length sub))
  end.

(** [Writer.prototype.finish]: the returned array ([None] is [null]) and the
    writer after the call. *)
Definition finish (w : Writer) : result (option bytes * Writer) :=
  let bufs_ := bufs w in
  let w' := reset w in
  match buf w with
  | None => Ok (emptyArray w, w')
  | Some b =>
      b ← (if pos w <? len w then _slice w b (pos w) else Ok b);
      match bufs_ with
      | [] => Ok (Some b, w')
      | _ :: _ =>
          let len_ := fold_left (fun l sub => l + Z.of_nat (length sub)) bufs_ (pos w) in
          let concat_ := alloc_array len_ in
          '(concat_, pos_) ← finish_copy w bufs_ concat_ 0;
          concat_ ← _set w concat_ b pos_;
          Ok (Some concat_, w')
      end
  end.

(** ** Sequences of calls *)

(** A primitive write: a writer method with its argument. *)
Inductive prim :=
| Tag (id wireType : Z)
| Uint32 (value : Z)
| Int32 (value : Z)
| Sint32 (value : Z)
| Uint64 (low high : Z)
| Int64 (low high : Z)
| Bool (value : bool)
| Fixed32 (value : Z)
| Sfixed32 (value : Z)
| Fixed64 (low high : Z)
| Bytes (value : list Z)
| Str (value : list Z)
| Uint64_number (value : Z)
| Int64_number (value : Z)
| Sint64 (value : long_value)
| Fixed64_number (value : Z)
| Sfixed64 (value : long_value)
| Float (value : number)
| Double (value : number).

Definition write (p : prim) (w : Writer) : result Writer :=
  match p with
  | Tag id wireType => tag id wireType w
  | Uint32 value => uint32 value w
  | Int32 value => int32 value w
  | Sint32 value => sint32 value w
  | Uint64 low high => uint64 low high w
  | Int64 low high => int64 low high w
  | Bool value => bool_ value w
  | Fixed32 value => fixed32 value w
  | Sfixed32 value => sfixed32 value w
  | Fixed64 low high => fixed64 low high w
  | Bytes value => bytes_ value w
  | Str value => string_ value w
  | Uint64_number value => uint64_number value w
  | Int64_number value => int64_number value w
  | Sint64 value => sint64 value w
  | Fixed64_number value => fixed64_number value w
  | Sfixed64 value => sfixed64 value w
  | Float value => float value w
  | Double value => double value w
  end.

(** [w.m1(a1).m2(a2)...] *)
Fixpoint writes (ps : list prim) (w : Writer) : result Writer :=
  match ps with
  | [] => Ok w
  | p :: ps => w ← write p w; writes ps w
  end.

(** A public operation of the writer. *)
Inductive op :=
| Write (p : prim)
| Fork
| Reset
| Finish.

Definition step (o : op) (w : Writer) : result Writer :=
  match o with
  | Write p => write p w
  | Fork => Ok (fork w)
  | Reset => Ok (reset w)
  | Finish => snd <$> finish w
  end.

Fixpoint run (os : list op) (w : Writer) : result Writer :=
  match os with
  | [] => Ok w
  | o :: os => w ← step o w; run os w
  end.

(** ** JSON values and reflection objects *)

(** A JSON value as the reflection code receives it; the numbers of the
    dialect (ids, enum values) are integers. *)
#[warnings="-register-all"]
Inductive json :=
| JUndefined
| JNull
| JBool (b : bool)
| JNum (n : Z)
| JStr (s : string)
| JObj (props : list (string * json)).

(** [Boolean(j)] *)
Definition truthy (j : json) : bool :=
  match j with
  | JUndefined | JNull => false
  | JBool b => b
  | JNum n => negb (n =? 0)
  | JStr s => negb (String.eqb s "")
  | JObj _ => true
  end.

Fixpoint assoc {A} (k : string) (l : list (string * A)) : option A :=
  match l with
  | [] => None
  | (k', v) :: l => if String.eqb k k' then Some v else assoc k l
  end.

(** [m[k] = v] on an object used as a map: an existing key keeps its place,
    a new key goes last. *)
Fixpoint assoc_set {A} (k : string) (v : A) (l : list (string * A)) : list (string * A) :=
  match l with
  | [] => [(k, v)]
  | (k', v') :: l => if String.eqb k k' then (k, v) :: l else (k', v') :: assoc_set k v l
  end.

(** [delete m[k]] *)
Fixpoint assoc_delete {A} (k : string) (l : list (string * A)) : list (string * A) :=
  match l with
  | [] => []
  | (k', v') :: l => if String.eqb k k' then l else (k', v') :: assoc_delete k l
  end.

(** [j.k] for a [j] that is neither [null] nor [undefined] *)
Definition prop (j : json) (k : string) : json :=
  match j with
  | JObj props => default JUndefined (assoc k props)
  | _ => JUndefined
  end.

(** [j.k]: reading a property of [null] or [undefined] throws. *)
Definition get_prop (j : json) (k : string) : result json :=
  match j with
  | JUndefined | JNull => Throw TypeError
  | _ => Ok (prop j k)
  end.

(** References to reflection objects. *)
Abbreviation ref := nat (only parsing).

(** The constructors [Namespace.add] accepts ([nestedTypes], in its order);
    [KOther] is any other class of reflection object. *)
Inductive kind := KEnum | KType | KService | KField | KNamespace | KOther.

#[global] Instance kind_eq_dec : EqDecision kind.
Proof. solve_decision. Defined.

(** The own state of a [Field]. *)
Record Field := mkField {
  rule : option string;
  type : string;
  id : Z;
  extend : option string;
  required : bool;
  optional : bool;
  repeated : bool;
  map : bool;
  resolvedType : option ref;
  _packed : option bool
}.

(** A reflection object: the state of [ReflectionObject], the [nested] map
    of a namespace ([None] is [undefined]) and the state of a field. *)
Record object := mkObject {
  ctor : kind;
  name : string;
  options : json;
  parent : option ref;
  nested : option (list (string * ref));
  field : option Field
}.

(** Modelled from the spec: [ReflectionObject] is not among the sources; its
    constructor keeps [name] and [options], with no parent yet. *)
Definition ReflectionObject (k : kind) (name : string) (options : json) : object :=
  mkObject k name options None None None.

(** Modelled from the spec: [util] is not among the sources; [isObject],
    [isInteger] and [isString] are the checks their names say. *)
Definition isObject (j : json) : bool := match j with JObj _ => true | _ => false end.
Definition isInteger (j : json) : bool := match j with JNum _ => true | _ => false end.
Definition isString (j : json) : bool := match j with JStr _ => true | _ => false end.

(** [s.toLowerCase()] on ASCII letters *)
Definition lower (c : Ascii.ascii) : Ascii.ascii :=
  let n := Ascii.nat_of_ascii c in
  if ((65 <=? n) && (n <=? 90))%nat then Ascii.ascii_of_nat (n + 32) else c.

Fixpoint toLowerCase (s : string) : string :=
  match s with
  | EmptyString => EmptyString
  | String c s => String (lower c) (toLowerCase s)
  end.

Fixpoint is_infix (p s : string) : bool :=
  String.prefix p s
  || match s with
     | EmptyString => false
     | String _ s' => is_infix p s'
     end.

Fixpoint is_suffix (p s : string) : bool :=
  String.eqb p s
  || match s with
     | EmptyString => false
     | String _ s' => is_suffix p s'
     end.

(** [/^required|optional|repeated$/.test(s)]: the alternation binds less
    than the anchors. *)
Definition rule_regexp (s : string) : bool :=
  String.prefix "required" s || is_infix "optional" s || is_suffix "repeated" s.

Definition is_undefined (j : json) : bool :=
  match j with JUndefined => true | _ => false end.

(** The number and the string a JSON value is, once checked to be one. *)
Definition num_of (j : json) : Z := match j with JNum n => n | _ => 0 end.
Definition str_of (j : json) : string := match j with JStr s => s | _ => EmptyString end.

(** [rule = rule.toString().toLowerCase()] followed by the test of the
    regular expression: the lowered rule, or [TypeError].  [null] has no
    [toString]; the string of a number or of a boolean fails the test. *)
Definition checked_rule (rule_ : json) : result string :=
  match rule_ with
  | JStr r => if rule_regexp (toLowerCase r) then Ok (toLowerCase r) else Throw TypeError
  | _ => Throw TypeError
  end.

(** [new Field(name, id, type, rule, extend, options)] *)
Definition new_Field (name_ : string) (id_ type_ rule_ extend_ options_ : json)
  : result object :=
  let '(rule_, extend_, options_) :=
    if isObject rule_ then (JUndefined, JUndefined, rule_)
    else if isObject extend_ then (rule_, JUndefined, extend_)
    else (rule_, extend_, options_) in
  let this := ReflectionObject KField name_ options_ in
  if negb (isInteger id_) || (num_of id_ <? 0) then Throw TypeError
  else if negb (isString type_) then Throw TypeError
  else if negb (is_undefined extend_) && negb (isString extend_) then Throw TypeError
  else
    rule_ ← (if is_undefined rule_ then Ok None else Some <$> checked_rule rule_);
    let required_ := bool_decide (rule_ = Some "required"%string) in
    Ok (mkObject (ctor this) (name this) (options this) (parent this) (nested this)
          (Some {|
             rule := match rule_ with
                     | Some r =>
                         if negb (String.eqb r "") && negb (String.eqb r "optional")
                         then Some r else None
                     | None => None
                     end;
             type := str_of type_;
             id := num_of id_;
             extend := if truthy extend_ then Some (str_of extend_) else None;
             required := required_;
             optional := negb required_;
             repeated := bool_decide (rule_ = Some "repeated"%string);
             map := false;
             resolvedType := None;
             _packed := None
           |})).

(** [Field.testJSON] *)
Definition Field_testJSON (j : json) : bool :=
  truthy j && negb (is_undefined (prop j "id")).

(** [Field.fromJSON] *)
Definition Field_fromJSON (name : string) (j : json) : result object :=
  id_ ← get_prop j "id";
  type_ ← get_prop j "type";
  role_ ← get_prop j "role";
  extend_ ← get_prop j "extend";
  options_ ← get_prop j "options";
  new_Field name id_ type_ role_ extend_ options_.

(** ** The heap of reflection objects *)

(** Reflection objects are shared and mutated in place; the heap maps a
    reference to the object's current state. *)
Abbreviation heap := (list object) (only parsing).

(** Reading a property of a reference that holds no object throws, as
    reading a property of [undefined] does. *)
Definition deref (h : heap) (r : ref) : result object :=
  match h !! r with
  | Some o => Ok o
  | None => Throw TypeError
  end.

Definition set_nested (r : ref) (n : option (list (string * ref))) (h : heap) : heap :=
  match h !! r with
  | Some o => <[r := mkObject (ctor o) (name o) (options o) (parent o) n (field o)]> h
  | None => h
  end.

Definition set_parent (r : ref) (p : option ref) (h : heap) : heap :=
  match h !! r with
  | Some o => <[r := mkObject (ctor o) (name o) (options o) p (nested o) (field o)]> h
  | None => h
  end.

(** [new C(...)]: the object gets the next reference. *)
Definition alloc (o : object) (h : heap) : ref * heap := (length h, h ++ [o]).

(** Modelled from the spec: the class hierarchy is not among the sources;
    [Type] extends [Namespace], the other kinds extend [ReflectionObject]
    only. *)
Definition instanceof_Namespace (o : object) : bool :=
  match ctor o with KNamespace | KType => true | _ => false end.
Definition instanceof_Type (o : object) : bool :=
  match ctor o with KType => true | _ => false end.
Definition instanceof_Field (o : object) : bool :=
  match ctor o with KField => true | _ => false end.
Definition instanceof_Enum (o : object) : bool :=
  match ctor o with KEnum => true | _ => false end.

(** [nestedTypes.indexOf(object.constructor) < 0] *)
Definition not_nestedType (o : object) : bool :=
  match ctor o with KOther => true | _ => false end.

(** Modelled from the spec: [ReflectionObject.prototype.onAdd] is not among
    the sources; it sets the parent. *)
Definition onAdd (object_ parent_ : ref) (h : heap) : heap :=
  set_parent object_ (Some parent_) h.

(** Modelled from the spec: [ReflectionObject.prototype.onRemove] is not
    among the sources; it clears the parent. *)
Definition onRemove (object_ parent_ : ref) (h : heap) : heap :=
  set_parent object_ None h.

(** The [nested] map of a namespace is a plain object: [nested[k]] also
    finds, under the names of the properties of [Object.prototype], what every
    object inherits, and a store to [__proto__] makes no entry.  The list is
    the entries the map has of its own; [own_name] tells the names for which
    the entries are all that [nested[k]] can find. *)
Definition Object_prototype_names : list string :=
  [ "constructor"; "__defineGetter__"; "__defineSetter__"; "hasOwnProperty";
    "__lookupGetter__"; "__lookupSetter__"; "isPrototypeOf";
    "propertyIsEnumerable"; "toString"; "valueOf"; "__proto__";
    "toLocaleString" ]%string.

Definition own_name (k : string) : bool :=
  negb (bool_decide (k ∈ Object_prototype_names)).

(** The getter [Namespace#empty]:
    [Boolean(this.nested && Object.keys(this.nested).length)] *)
Definition empty (o : object) : bool :=
  match nested o with
  | Some m => negb (bool_decide (length m = 0%nat))
  | None => false
  end.

(** [Namespace.prototype.get]: [None] is [null]. *)
Definition get (h : heap) (this : ref) (name_ : string) : result (option ref) :=
  t ← deref h this;
  Ok (match nested t with
      | Some m => assoc name_ m
      | None => None
      end).

(** [Namespace.prototype.remove] *)
Definition remove (this object_ : ref) (h : heap) : result heap :=
  o ← deref h object_;
  if negb (bool_decide (parent o = Some this)) then Throw Error
  else
    t ← deref h this;
    match nested t with
    | None => Throw TypeError
    | Some m =>
        let h := set_nested this (Some (assoc_delete (name o) m)) h in
        t ← deref h this;
        let h := if empty t then set_nested this None h else h in
        Ok (onRemove object_ this h)
    end.

(** [Namespace.prototype.each] over the entries [names] of the iterated map;
    [fn] returns [Some] of a value or [None] for [undefined], and a value
    ends the iteration. *)
Fixpoint each_loop (fn : ref -> string -> heap -> result (option ref * heap))
    (names : list (string * ref)) (this : ref) (h : heap)
  : result (option ref * heap) :=
  match names with
  | [] => Ok (Some this, h)
  | (name_, o) :: names =>
      '(ret, h) ← fn o name_ h;
      match ret with
      | Some r => Ok (Some r, h)
      | None => each_loop fn names this h
      end
  end.

Definition each (fn : ref -> string -> heap -> result (option ref * heap))
    (this : ref) (h : heap) : result (option ref * heap) :=
  t ← deref h this;
  match nested t with
  | Some m => each_loop fn m this h
  | None => Ok (Some this, h)
  end.

(** [Namespace.prototype.add]; it returns [this].  [Type.prototype.add] is
    not among the sources: a [Type] adds with the method it inherits (modelled
    from the spec: [Type] extends [Namespace]).  [fuel] bounds the depth of
    the calls [add] makes to itself through [each]. *)
Fixpoint add (fuel : nat) (this object_ : ref) (h : heap) : result heap :=
  match fuel with
  | O => OutOfFuel
  | S fuel =>
      o ← deref h object_;
      if not_nestedType o then Throw TypeError
      else if instanceof_Field o
              && negb (bool_decide (is_Some (field o ≫= extend)))
      then Throw TypeError
      else
        t ← deref h this;
        h ← match nested t with
            | None => Ok (set_nested this (Some []) h)
            | Some _ =>
                prev ← get h this (name o);
                match prev with
                | None => Ok h
                | Some prev =>
                    p ← deref h prev;
                    if instanceof_Namespace p && negb (instanceof_Type p)
                       && instanceof_Type o
                    then
                      '(_, h) ← each (fun child _ h =>
                                        h ← add fuel object_ child h;
                                        Ok (Some object_, h)) prev h;
                      remove this prev h
                    else Throw Error
                end
            end;
        t ← deref h this;
        match nested t with
        | None => Throw TypeError
        | Some m =>
            let h := set_nested this (Some (assoc_set (name o) object_ m)) h in
            Ok (onAdd object_ this h)
        end
  end.

(** Modelled from the spec: [ReflectionObject#root] is not among the
    sources; the root is the end of the parent chain. *)
Fixpoint root (fuel : nat) (h : heap) (this : ref) : result ref :=
  match fuel with
  | O => OutOfFuel
  | S fuel =>
      t ← deref h this;
      match parent t with
      | None => Ok this
      | Some p => root fuel h p
      end
  end.

(** [Namespace.prototype.lookup] on an array path ([None] is [null]);
    [fuel] bounds the depth of the calls. *)
Fixpoint lookup (fuel : nat) (h : heap) (this : ref) (path : list string)
    (parentAlreadyChecked : bool) : result (option ref) :=
  match fuel with
  | O => OutOfFuel
  | S fuel =>
      match path with
      | [] => Ok None
      | p0 :: rest =>
          if String.eqb p0 "" then
            r ← root fuel h this;
            lookup fuel h r rest false
          else
            t ← deref h this;
            let at_parent :=
              match parent t with
              | None => Ok None
              | Some p =>
                  if parentAlreadyChecked then Ok None
                  else lookup fuel h p path false
              end in
            match nested t ≫= assoc p0 with
            | None => at_parent
            | Some found =>
                match rest with
                | [] => Ok (Some found)
                | _ :: _ =>
                    f ← deref h found;
                    if instanceof_Namespace f then
                      r ← lookup fuel h found rest true;
                      match r with
                      | Some r => Ok (Some r)
                      | None => at_parent
                      end
                    else at_parent
                end
            end
      end
  end.

(** [path.split('.')] *)
Fixpoint split_dots (s : string) : list string :=
  match s with
  | EmptyString => [EmptyString]
  | String c s' =>
      if Ascii.eqb c "."%char then EmptyString :: split_dots s'
      else match split_dots s' with
           | [] => [String c EmptyString]
           | seg :: segs => String c seg :: segs
           end
  end.

(** [Namespace.prototype.lookup] on a dotted string *)
Definition lookup_string (fuel : nat) (h : heap) (this : ref) (path : string)
    (parentAlreadyChecked : bool) : result (option ref) :=
  if String.eqb path "" then Ok None
  else lookup fuel h this (split_dots path) parentAlreadyChecked.

(** ** Values a field encodes *)

(** The JavaScript values of the embedding: an integer number, any number as
    an IEEE-754 double, a boolean, a [Long] object [{low, high}], a string
    as its UTF-16 code units, an array, or any other value ([null],
    [undefined], an object) as JSON. *)
#[warnings="-register-all"]
Inductive jsval :=
| VNum (n : Z)
| VDouble (x : number)
| VBool (b : bool)
| VLong (low high : Z)
| VStr (units : list Z)
| VArr (l : list jsval)
| VJson (j : json).

(** The code units of a JSON string of the embedding, one for each
    character. *)
Definition units_of (s : string) : list Z :=
  (fun c => Z.of_nat (Ascii.nat_of_ascii c)) <$> String.list_ascii_of_string s.

(** [Boolean(v)] of a value. *)
Definition js_truthy (v : jsval) : bool :=
  match v with
  | VNum n => negb (n =? 0)
  | VDouble (SpecFloat.S754_zero _) | VDouble SpecFloat.S754_nan => false
  | VDouble _ => true
  | VBool b => b
  | VStr units => negb (bool_decide (units = []))
  | VLong _ _ | VArr _ => true
  | VJson j => truthy j
  end.

(** The double an integer number is. *)
Definition number_of (n : Z) : number := SpecFloat.binary_normalize 53 1024 n 0 false.

(** The numbers of an array, when all its elements are integer numbers. *)
Fixpoint numbers (l : list jsval) : option (list Z) :=
  match l with
  | [] => Some []
  | VNum n :: l => cons n <$> numbers l
  | _ :: _ => None
  end.

(** [writer[type](v)] as a primitive write, for every scalar type and a
    value of that type: an integer number for the 32-bit types, an integer
    number or a [Long] object for the 64-bit types, a number for [float] and
    [double], a string, an array of integer numbers for [bytes]; [bool]
    takes any value. *)
Definition method (type_ : string) (v : jsval) : option prim :=
  match type_, v with
  | "int32", VNum n => Some (Int32 n)
  | "uint32", VNum n => Some (Uint32 n)
  | "sint32", VNum n => Some (Sint32 n)
  | "fixed32", VNum n => Some (Fixed32 n)
  | "sfixed32", VNum n => Some (Sfixed32 n)
  | "int64", VLong low high => Some (Int64 low high)
  | "int64", VNum n => Some (Int64_number n)
  | "uint64", VLong low high => Some (Uint64 low high)
  | "uint64", VNum n => Some (Uint64_number n)
  | "sint64", VLong low high => Some (Sint64 (Long low high))
  | "sint64", VNum n => Some (Sint64 (Number n))
  | "fixed64", VLong low high => Some (Fixed64 low high)
  | "fixed64", VNum n => Some (Fixed64_number n)
  | "sfixed64", VLong low high => Some (Sfixed64 (Long low high))
  | "sfixed64", VNum n => Some (Sfixed64 (Number n))
  | "bool", v => Some (Bool (js_truthy v))
  | "float", VNum n => Some (Float (number_of n))
  | "float", VDouble x => Some (Float x)
  | "double", VNum n => Some (Double (number_of n))
  | "double", VDouble x => Some (Double x)
  | "string", VStr units => Some (Str units)
  | "string", VJson (JStr s) => Some (Str (units_of s))
  | "bytes", VArr l => Bytes <$> numbers l
  | _, _ => None
  end%string.

(** Modelled from the spec: [types.packableWireTypes] is not among the
    sources; every numeric type and [bool] is packable, with the wire type
    0 (varint), 1 (64 bits) or 5 (32 bits). *)
Definition packableWireTypes (type_ : string) : option Z :=
  match type_ with
  | "int32" | "uint32" | "sint32" | "int64" | "uint64" | "sint64" | "bool" => Some 0
  | "fixed64" | "sfixed64" | "double" => Some 1
  | "fixed32" | "sfixed32" | "float" => Some 5
  | _ => None
  end%string.

(** Modelled from the spec: [types.wireTypes] is not among the sources; the
    packable types, and [string] and [bytes] with the wire type 2. *)
Definition wireTypes (type_ : string) : option Z :=
  match type_ with
  | "string" | "bytes" => Some 2
  | _ => packableWireTypes type_
  end%string.

(** The getter [Field#packed], [this.getOption("packed") !== false] unless
    remembered in [_packed].  Modelled from the spec: [getOption] is not among
    the sources; it reads the option of that name. *)
Definition packed (this : object) (f : Field) : bool :=
  match _packed f with
  | Some b => b
  | None =>
      match prop (options this) "packed" with
      | JBool false => false
      | _ => true
      end
  end.

(** [this.resolvedType instanceof Enum ? "uint32" : this.type] *)
Definition element_type (h : heap) (f : Field) : string :=
  let is_enum :=
    match resolvedType f with
    | Some r => match h !! r with Some o => instanceof_Enum o | None => false end
    | None => false
    end in
  if is_enum then "uint32"%string else type f.

(** The number a string of decimal digits denotes. *)
Fixpoint digits (s : string) (acc : nat) : option nat :=
  match s with
  | EmptyString => Some acc
  | String c s =>
      let d := Ascii.nat_of_ascii c in
      if ((48 <=? d) && (d <=? 57))%nat then digits s (10 * acc + (d - 48)) else None
  end.

(** The number of [i = 0, 1, ...] with [i < k] for the [length] [k] of an
    object: a number counts as it is, [true] as 1, a string of decimal
    digits as its number; [undefined], [null], [false], an object and any
    other string end the loop at once. *)
Definition length_of (k : json) : nat :=
  match k with
  | JNum n => Z.to_nat n
  | JBool true => 1
  | JStr s => default 0%nat (digits s 0)
  | _ => 0
  end.

(** [var i = 0, k = value.length] and the [value[i]] the loops read: an
    array has its elements, a string its characters, an object what its
    [length] and its indexed properties say; reading [length] of [null] or
    of [undefined] throws; a number, a boolean and a [Long] object have no
    [length] and the loops over them do not run. *)
Definition elements (value : jsval) : result (list jsval) :=
  match value with
  | VArr l => Ok l
  | VStr units => Ok ((fun c => VStr [c]) <$> units)
  | VJson JUndefined | VJson JNull => Throw TypeError
  | VJson (JStr s) =>
      Ok ((fun c => VJson (JStr (String c EmptyString)))
            <$> String.list_ascii_of_string s)
  | VJson (JObj props) =>
      Ok ((fun i : nat => VJson (prop (JObj props) (pretty i)))
            <$> seq 0 (length_of (prop (JObj props) "length")))
  | _ => Ok []
  end.

(** [Namespace.testJSON] *)
Definition Namespace_testJSON (j : json) : bool :=
  truthy j
  && negb (truthy (prop j "fields"))
  && negb (truthy (prop j "values"))
  && is_undefined (prop j "id")
  && negb (truthy (prop j "oneof"))
  && negb (truthy (prop j "methods"))
  && is_undefined (prop j "requestType").

(** Modelled from the spec: the classifiers of [Enum], [Type] and [Service]
    are not among the sources; an enum has [values], a type has [fields], a
    service has [methods]. *)
Definition testJSON (k : kind) (j : json) : bool :=
  match k with
  | KEnum => truthy j && truthy (prop j "values")
  | KType => truthy j && truthy (prop j "fields")
  | KService => truthy j && truthy (prop j "methods")
  | KField => Field_testJSON j
  | KNamespace => Namespace_testJSON j
  | KOther => false
  end.

Definition nestedTypes : list kind := [KEnum; KType; KService; KField; KNamespace].

(** The characters of a string with their indices from [i]. *)
Fixpoint indexed_chars (i : nat) (s : string) : list (string * json) :=
  match s with
  | EmptyString => []
  | String c s' => (pretty i, JStr (String c EmptyString)) :: indexed_chars (S i) s'
  end.

(** [Object.keys(j)] with the values [j[key]]: the properties of an object,
    the indices of a string; a number or a boolean has no keys. *)
Definition entries (j : json) : list (string * json) :=
  match j with
  | JObj props => props
  | JStr s => indexed_chars 0 s
  | _ => []
  end.

Section External.

(** The collaborators that are not among the sources: the constructors from
    JSON of the other kinds, [encodeDelimited_] of a resolved type, and what
    a writer method does with a value that is not of its type, which the
    conversions of the language decide. *)
Variable Enum_fromJSON Type_fromJSON Service_fromJSON :
  string -> json -> heap -> result (ref * heap).
Variable encodeDelimited_ : ref -> jsval -> Writer -> result Writer.
Variable other_method : string -> jsval -> Writer -> result Writer.

(** [writer[type](v)] *)
Definition call_writer (type_ : string) (v : jsval) (w : Writer) : result Writer :=
  match method type_ v with
  | Some p => write p w
  | None => other_method type_ v w
  end.

(** [while (i < k) writer[type](value[i++]);] *)
Fixpoint write_elements (type_ : string) (vs : list jsval) (w : Writer) : result Writer :=
  match vs with
  | [] => Ok w
  | v :: vs => w ← call_writer type_ v w; write_elements type_ vs w
  end.

(** [this.resolvedType.encodeDelimited_(v, writer.tag(this.id, 2))] *)
Definition encode_message (f : Field) (v : jsval) (w : Writer) : result Writer :=
  match resolvedType f with
  | None => Throw TypeError
  | Some r => w ← tag (id f) 2 w; encodeDelimited_ r v w
  end.

Fixpoint encode_messages (f : Field) (vs : list jsval) (w : Writer) : result Writer :=
  match vs with
  | [] => Ok w
  | v :: vs => w ← encode_message f v w; encode_messages f vs w
  end.

(** [encode_internal], the encoder of a field; [this] is a [Field]. *)
Definition encode_internal (h : heap) (this : object) (value : jsval) (writer : Writer)
  : result Writer :=
  match field this with
  | None => Throw TypeError
  | Some f =>
      let type_ := element_type h f in
      if repeated f then
        vs ← elements value;
        if packed this f && bool_decide (is_Some (packableWireTypes type_)) then
          let writer := fork writer in
          writer ← write_elements type_ vs writer;
          '(buf_, writer) ← finish writer;
          match buf_ with
          | None => Throw TypeError
          | Some b =>
              if negb (bool_decide (length b = 0%nat)) then
                writer ← tag (id f) 2 writer;
                bytes_ b writer
              else Ok writer
          end
        else encode_messages f vs writer
      else
        match wireTypes type_ with
        | Some wireType =>
            writer ← tag (id f) wireType writer;
            call_writer type_ value writer
        | None => encode_message f value writer
        end
  end.

(** [new Namespace(name, options)] *)
Definition new_Namespace (name_ : string) (options_ : json) : object :=
  ReflectionObject KNamespace name_ options_.

(** [Namespace.prototype.addJSON], with [Namespace.fromJSON] and the
    dispatch [ReflObj.fromJSON(key, nested)]; [fuel] bounds the depth of the
    JSON. *)
Fixpoint addJSON (fuel : nat) (this : ref) (j : json) (h : heap) : result heap :=
  match fuel with
  | O => OutOfFuel
  | S fuel =>
      let Namespace_fromJSON (name_ : string) (j : json) (h : heap)
        : result (ref * heap) :=
        options_ ← get_prop j "options";
        let '(r, h) := alloc (new_Namespace name_ options_) h in
        nested_ ← get_prop j "nested";
        h ← addJSON fuel r nested_ h;
        Ok (r, h) in
      let fromJSON (k : kind) (name_ : string) (j : json) (h : heap)
        : result (ref * heap) :=
        match k with
        | KEnum => Enum_fromJSON name_ j h
        | KType => Type_fromJSON name_ j h
        | KService => Service_fromJSON name_ j h
        | KField => o ← Field_fromJSON name_ j; Ok (alloc o h)
        | KNamespace => Namespace_fromJSON name_ j h
        | KOther => Throw TypeError
        end in
      if truthy j then
        (fix loop (keys : list (string * json)) (h : heap) : result heap :=
           match keys with
           | [] => Ok h
           | (key, nested_) :: keys =>
               h ← match find (fun k => testJSON k nested_) nestedTypes with
                   | Some ReflObj =>
                       '(o, h) ← fromJSON ReflObj key nested_ h;
                       add fuel this o h
                   | None => Ok h
                   end;
               h ← (Throw TypeError : result heap);
               loop keys h
           end) (entries j) h
      else Ok h
  end.

End External.

(** ** Reference notions for the writer *)

(** The bytes written so far: the sealed chunks in order, then [buf[0..pos]]. *)
Definition content (w : Writer) : bytes :=
  concat (bufs w)
    ++ match buf w with
       | Some b => take (Z.to_nat (pos w)) b
       | None => []
       end.

(** The state invariant of the current sub-stream.  Its first two parts are
    the invariants of the data model; the rest is what keeps them. *)
Definition wf (w : Writer) : Prop :=
  0 <= pos w <= len w /\
  match buf w with
  | None => len w = 0 /\ bufs w = []
  | Some b => Z.of_nat (length b) = len w /\ 0 < len w /\ setup_done w = true
  end.

Definition wf_state (st : State) : Prop :=
  wf (mkWriter (st_buf st) (st_pos st) (st_len st) (st_bufs st) [] true).

(** [w'] is [w] after [bs] has been appended. *)
Record emitted (w : Writer) (bs : bytes) (w' : Writer) : Prop := {
  em_wf : wf w';
  em_content : content w' = content w ++ bs;
  em_stack : _stack w' = _stack w;
  em_setup : setup_done w = true -> setup_done w' = true
}.

(** [w'] is [w] after [bs] has been stored in the current chunk. *)
Record in_place (w : Writer) (bs : bytes) (w' : Writer) : Prop := {
  ip_emitted : emitted w bs w';
  ip_pos : pos w' = pos w + Z.of_nat (length bs);
  ip_len : len w' = len w
}.

(** Base-128 varint of a natural number: groups of seven bits, the least
    significant first, the continuation bit on every byte but the last. *)
Fixpoint varint_aux (fuel : nat) (v : Z) : bytes :=
  if v <? 128 then [v]
  else match fuel with
       | O => []
       | S fuel => (v mod 128 + 128) :: varint_aux fuel (v / 128)
       end.

Definition varint (v : Z) : bytes := varint_aux (Z.to_nat (Z.log2 v)) v.

(** Reference decoder of a varint at the head of [bs]: the value and the
    bytes after it. *)
Fixpoint varint_decode (bs : bytes) : option (Z * bytes) :=
  match bs with
  | [] => None
  | b :: rest =>
      if b <? 128 then Some (b, rest)
      else '(v, rest') ← varint_decode rest; Some (b - 128 + 128 * v, rest')
  end.

(** The little-endian bytes [fixed32] stores for [value]. *)
Definition fixed32_bytes (value : Z) : bytes :=
  let value := shr value 0 in
  to_uint8 <$> [band value 255; band (shr value 8) 255;
                band (shr value 16) 255; band (shr value 24) 255].

(** The bytes [_writeLongFixed] stores for the halves [lo] and [hi]. *)
Definition fixed64_bytes (lo hi : Z) : bytes :=
  to_uint8 <$> [band lo 255; band (shr lo 8) 255; band (shr lo 16) 255; shr lo 24;
                band hi 255; band (shr hi 8) 255; band (shr hi 16) 255; shr hi 24].

(** The bytes the second loop of [string] stores for the code units [s]. *)
Fixpoint string_bytes (s : list Z) : bytes :=
  match s with
  | [] => []
  | c1 :: s' =>
      if c1 <? 128 then to_uint8 c1 :: string_bytes s'
      else if c1 <? 2048 then
        to_uint8 (bor (sar c1 6) 192) :: to_uint8 (bor (band c1 63) 128)
          :: string_bytes s'
      else
        let three :=
          to_uint8 (bor (sar c1 12) 224) :: to_uint8 (bor (band (sar c1 6) 63) 128)
            :: to_uint8 (bor (band c1 63) 128) :: string_bytes s' in
        match s' with
        | c2 :: s'' =>
            if (band c1 0xFC00 =? 0xD800) && (band c2 0xFC00 =? 0xDC00) then
              let c1 := 0x10000 + shl (band c1 0x03FF) 10 + band c2 0x03FF in
              to_uint8 (bor (sar c1 18) 240) :: to_uint8 (bor (band (sar c1 12) 63) 128)
                :: to_uint8 (bor (band (sar c1 6) 63) 128)
                :: to_uint8 (bor (band c1 63) 128) :: string_bytes s''
            else three
        | [] => three
        end
  end.

(** The bytes a primitive write appends, whatever the state of the writer. *)
Definition encode (p : prim) : bytes :=
  match p with
  | Tag id wireType => [to_uint8 (band (bor (shl id 3) (band wireType 7)) 255)]
  | Uint32 value | Int32 value => varint (to_uint32 value)
  | Sint32 value => varint (to_uint32 (bxor (shl value 1) (sar value 31)))
  | Uint64 low high | Int64 low high =>
      varint (to_uint32 low + 2 ^ 32 * to_uint32 high)
  | Bool value => [if value then 1 else 0]
  | Fixed32 value => fixed32_bytes value
  | Sfixed32 value => fixed32_bytes (bxor (shl value 1) (sar value 31))
  | Fixed64 low high => fixed64_bytes (shr low 0) (shr high 0)
  | Bytes value =>
      let n := to_uint32 (Z.of_nat (length value)) in
      if decide (n = 0) then [0] else varint n ++ (to_uint8 <$> value)
  | Str value =>
      let n := to_uint32 (Z.of_nat (length value)) in
      if decide (n = 0) then [0]
      else let s := take (Z.to_nat n) value in
           varint (to_uint32 (string_blen s 0)) ++ string_bytes s
  | Uint64_number value | Int64_number value =>
      let bits := if negb (value =? 0) then LongBits_fromNumber value
                  else LongBits_zero in
      varint (lo bits + 2 ^ 32 * hi bits)
  | Sint64 value =>
      let bits := zzEncode (LongBits_fromValue value) in
      varint (lo bits + 2 ^ 32 * hi bits)
  | Fixed64_number value =>
      let bits := if negb (value =? 0) then LongBits_fromNumber value
                  else LongBits_zero in
      fixed64_bytes (lo bits) (hi bits)
  | Sfixed64 value =>
      let bits := zzEncode (LongBits_from value) in
      fixed64_bytes (lo bits) (hi bits)
  | Float value => le_bytes 4 (ieee754_bits value 23 4)
  | Double value => le_bytes 8 (ieee754_bits value 52 8)
  end.

(** Arguments the engine can build: an array has fewer than [2 ^ 32]
    elements. *)
Definition prim_ok (p : prim) : Prop :=
  match p with
  | Bytes value => Z.of_nat (length value) < 2 ^ 32
  | _ => True
  end.

Definition op_ok (o : op) : Prop :=
  match o with
  | Write p => prim_ok p
  | _ => True
  end.

(** ** Reference notions for strings (Unicode, UTF-16 and UTF-8) *)

(** The code points a sequence of UTF-16 code units stands for; [None] when
    a unit is out of range or a surrogate is not paired. *)
Fixpoint utf16_decode (s : list Z) : option (list Z) :=
  match s with
  | [] => Some []
  | c1 :: s' =>
      if ((0 <=? c1) && (c1 <? 0xD800)) || ((0xE000 <=? c1) && (c1 <? 0x10000))
      then cons c1 <$> utf16_decode s'
      else if (0xD800 <=? c1) && (c1 <? 0xDC00) then
        match s' with
        | c2 :: s'' =>
            if (0xDC00 <=? c2) && (c2 <? 0xE000)
            then cons (0x10000 + (c1 - 0xD800) * 0x400 + (c2 - 0xDC00))
                   <$> utf16_decode s''
            else None
        | [] => None
        end
      else None
  end.

(** The UTF-16 code units of a code point. *)
Definition utf16_encode1 (cp : Z) : list Z :=
  if cp <? 0x10000 then [cp]
  else [0xD800 + (cp - 0x10000) / 0x400; 0xDC00 + (cp - 0x10000) mod 0x400].

(** The UTF-8 bytes of a code point. *)
Definition utf8_encode1 (cp : Z) : bytes :=
  if cp <? 0x80 then [cp]
  else if cp <? 0x800 then [0xC0 + cp / 64; 0x80 + cp mod 64]
  else if cp <? 0x10000 then
    [0xE0 + cp / 4096; 0x80 + (cp / 64) mod 64; 0x80 + cp mod 64]
  else
    [0xF0 + cp / 262144; 0x80 + (cp / 4096) mod 64; 0x80 + (cp / 64) mod 64;
     0x80 + cp mod 64].

Definition utf8_encode (cps : list Z) : bytes := concat (utf8_encode1 <$> cps).

Definition continuation (b : Z) : bool := (0x80 <=? b) && (b <? 0xC0).

(** Reference UTF-8 decoder; [None] on a byte sequence that is not the
    shortest encoding of code points. *)
Fixpoint utf8_decode (bs : bytes) : option (list Z) :=
  match bs with
  | [] => Some []
  | b0 :: r0 =>
      if b0 <? 0 then None
      else if b0 <? 0x80 then cons b0 <$> utf8_decode r0
      else if b0 <? 0xC0 then None
      else if b0 <? 0xE0 then
        match r0 with
        | b1 :: r1 =>
            let cp := (b0 - 0xC0) * 64 + (b1 - 0x80) in
            if continuation b1 && (0x80 <=? cp)
            then cons cp <$> utf8_decode r1 else None
        | _ => None
        end
      else if b0 <? 0xF0 then
        match r0 with
        | b1 :: b2 :: r2 =>
            let cp := (b0 - 0xE0) * 4096 + (b1 - 0x80) * 64 + (b2 - 0x80) in
            if continuation b1 && continuation b2 && (0x800 <=? cp)
               && negb ((0xD800 <=? cp) && (cp <? 0xE000))
            then cons cp <$> utf8_decode r2 else None
        | _ => None
        end
      else if b0 <? 0xF8 then
        match r0 with
        | b1 :: b2 :: b3 :: r3 =>
            let cp := (b0 - 0xF0) * 262144 + (b1 - 0x80) * 4096
                      + (b2 - 0x80) * 64 + (b3 - 0x80) in
            if continuation b1 && continuation b2 && continuation b3
               && (0x10000 <=? cp) && (cp <? 0x110000)
            then cons cp <$> utf8_decode r3 else None
        | _ => None
        end
      else None
  end.

(** A Unicode scalar value: a code point that is no surrogate. *)
Definition scalar (cp : Z) : Prop :=
  0 <= cp < 0xD800 \/ 0xE000 <= cp < 0x110000.

(** The invariant of a writer with its stack of snapshots: the current
    sub-stream and every snapshot are well formed. *)
Definition wf_all (w : Writer) : Prop :=
  wf w /\
  Forall (fun st => wf (mkWriter (st_buf st) (st_pos st) (st_len st) (st_bufs st)
                                 [] (setup_done w)))
         (_stack w).

(** The writer after [new Writer().uint32(1)]: one chunk that holds one
    byte. *)
Definition one_byte_writer : Writer :=
  match uint32 1 (new_Writer false) with
  | Ok w => w
  | _ => new_Writer false
  end.

(** [writer.fork(); writes; b = writer.finish()]: the returned array and the
    writer after the call. *)
Definition fork_finish (ps : list prim) (w : Writer) : result (option bytes * Writer) :=
  w ← writes ps (fork w);
  finish w.

(** [writer.fork(); writes; b = writer.finish(); writer.reset()] *)
Definition fork_finish_reset (ps : list prim) (w : Writer)
  : result (option bytes * Writer) :=
  '(b, w) ← fork_finish ps w;
  Ok (b, reset w).

(** A repeated [int32] field with the id 3 and no options: packed by
    default. *)
Definition packed_int32_field : object :=
  mkObject KField "values" JUndefined None None
    (Some (mkField (Some "repeated"%string) "int32" 3 None false true true false
                   None None)).

(** ** Reflection objects used by the statements *)

Definition mk_namespace (k : kind) (name_ : string) (parent_ : option ref)
    (nested_ : option (list (string * ref))) : object :=
  mkObject k name_ JUndefined parent_ nested_ None.

(** A namespace [N] (reference 0) that holds two enums [a] and [b]. *)
Definition two_enums : heap :=
  [ mk_namespace KNamespace "N" None (Some [("a"%string, 1%nat); ("b"%string, 2%nat)]);
    mk_namespace KEnum "a" (Some 0%nat) None;
    mk_namespace KEnum "b" (Some 0%nat) None ].

(** A namespace [P] (0) whose only member is the plain namespace [n] (1)
    with the enums [a] (2) and [b] (3); and a new [Type] named [n] (4). *)
Definition reparent_heap : heap :=
  [ mk_namespace KNamespace "P" None (Some [("n"%string, 1%nat)]);
    mk_namespace KNamespace "n" (Some 0%nat)
                 (Some [("a"%string, 2%nat); ("b"%string, 3%nat)]);
    mk_namespace KEnum "a" (Some 1%nat) None;
    mk_namespace KEnum "b" (Some 1%nat) None;
    mk_namespace KType "n" None None ].

(** The same with a second member [m] (5) in [P]. *)
Definition reparent_heap_sibling : heap :=
  [ mk_namespace KNamespace "P" None (Some [("n"%string, 1%nat); ("m"%string, 5%nat)]);
    mk_namespace KNamespace "n" (Some 0%nat)
                 (Some [("a"%string, 2%nat); ("b"%string, 3%nat)]);
    mk_namespace KEnum "a" (Some 1%nat) None;
    mk_namespace KEnum "b" (Some 1%nat) None;
    mk_namespace KType "n" None None;
    mk_namespace KEnum "m" (Some 0%nat) None ].

(** A root (0) with the namespaces [N] (1) and [a] (3); [N] holds an empty
    namespace [a] (2), the root's [a] holds the enum [b] (4). *)
Definition shadow_heap : heap :=
  [ mk_namespace KNamespace "" None (Some [("N"%string, 1%nat); ("a"%string, 3%nat)]);
    mk_namespace KNamespace "N" (Some 0%nat) (Some [("a"%string, 2%nat)]);
    mk_namespace KNamespace "a" (Some 1%nat) None;
    mk_namespace KNamespace "a" (Some 0%nat) (Some [("b"%string, 4%nat)]);
    mk_namespace KEnum "b" (Some 3%nat) None ].

(** The JSON of a repeated field. *)
Definition repeated_field_json : json :=
  JObj [("id"%string, JNum 1); ("type"%string, JStr "int32");
        ("rule"%string, JStr "repeated")].

(** ** Reference notions for the further properties *)

(** Zig-zag of a signed 32-bit integer and its inverse. *)
Definition zigzag32 (v : Z) : Z := if v <? 0 then - 2 * v - 1 else 2 * v.
Definition unzigzag (n : Z) : Z := if Z.even n then n / 2 else - ((n + 1) / 2).

(** The value of bytes read least significant first. *)
Fixpoint little_endian (bs : bytes) : Z :=
  match bs with
  | [] => 0
  | b :: bs => b + 256 * little_endian bs
  end.

(** ** Objects used by the statements *)

(** What [new Field("a", 1, "int32", "Required")] builds. *)
Definition required_int32_field : object :=
  mkObject KField "a" JUndefined None None
    (Some (mkField (Some "required"%string) "int32" 1 None true false false false
                   None None)).

(** What [new Field("tags", 4, "string", "repeated")] builds: a repeated
    field of a type that cannot be packed. *)
Definition repeated_string_field : object :=
  mkObject KField "tags" JUndefined None None
    (Some (mkField (Some "repeated"%string) "string" 4 None false true true false
                   None None)).

(** ** [Field.prototype.jsonConvert] *)

(** [array.map(fn)] for a callback that can throw: the elements are
    converted in order and the first exception ends the call. *)
Definition Array_map {A B} (fn : A -> result B) : list A -> result (list B) :=
  fix map_ (l : list A) : result (list B) :=
    match l with
    | [] => Ok []
    | val :: l =>
        r ← fn val;
        rs ← map_ l;
        Ok (r :: rs)
    end.

(** [jsonConvert] on a repeated field.  The callback of [value.map] calls
    [jsonConvert] on the same field, which is still repeated, so every
    element goes through this branch again; a value that is not falsy and has
    no [map] method cannot be called. *)
Fixpoint jsonConvert_repeated (value : jsval) : result jsval :=
  if negb (js_truthy value) then Ok (VArr [])
  else
    match value with
    | VArr l => VArr <$> Array_map jsonConvert_repeated l
    | _ => Throw TypeError
    end.

(** The conversion options: whether [options.enum === String], and whether
    [options.long] is falsy, [Number] or another value. *)
Inductive long_option := LongFalsy | LongNumber | LongOther.

Record convert_options := mkOptions {
  enum_is_String : bool;
  long : long_option
}.

(** Modelled from the spec: [types.longWireTypes] is not among the sources;
    the 64-bit integer types. *)
Definition longWireTypes (type_ : string) : option Z :=
  match type_ with
  | "int64" | "uint64" | "sint64" => Some 0
  | "fixed64" | "sfixed64" => Some 1
  | _ => None
  end%string.

Section Convert.

(** The collaborators that are not among the sources: the table
    [valuesById] of a resolved enum, and the conversions of [util.Long]. *)
Variable valuesById : ref -> jsval -> jsval.
Variable Long_toNumber : jsval -> result jsval.
Variable Long_toString : jsval -> bool -> result jsval.

(** [Field.prototype.jsonConvert]; [options] is [None] when falsy. *)
Definition jsonConvert (h : heap) (f : Field) (value : jsval)
    (options_ : option convert_options) : result jsval :=
  if repeated f then jsonConvert_repeated value
  else
    let resolved_enum :=
      r ← resolvedType f;
      e ← h !! r;
      if instanceof_Enum e then Some r else None in
    match options_ with
    | Some o =>
        match resolved_enum, enum_is_String o with
        | Some r, true => Ok (valuesById r value)
        | _, _ =>
            match longWireTypes (type f), long o with
            | None, _ | _, LongFalsy => Ok value
            | Some _, LongNumber =>
                match value with
                | VNum _ => Ok value
                | _ => Long_toNumber value
                end
            | Some _, LongOther => Long_toString value (String.prefix "u" (type f))
            end
        end
    | None => Ok value
    end.

End Convert.

(** ** [Namespace.prototype.define] *)

(** The first argument of [define]: an array of names, or any other value. *)
Inductive path_arg :=
| PArray (l : list string)
| PValue (j : json).

(** The stores [ptr.visible = v] that [define] makes, the latest first;
    [visible] is a property of [ReflectionObject], which is not among the
    sources. *)
Abbreviation visibility := (list (ref * json)) (only parsing).

Section Define.

Variable Enum_fromJSON Type_fromJSON Service_fromJSON :
  string -> json -> heap -> result (ref * heap).

(** The loop of [define], [while (path.length > 0) { part = path.shift(); ... }];
    [shift] takes the parts out of the array itself, so the array is empty
    when the loop ends.  [fuel] is for the calls of [add]. *)
Fixpoint define_loop (fuel : nat) (visible : json) (path : list string) (ptr : ref)
    (h : heap) (vis : visibility) : result (ref * heap * visibility) :=
  match path with
  | [] => Ok (ptr, h, vis)
  | part :: path =>
      t ← deref h ptr;
      match nested t ≫= assoc part with
      | Some found =>
          f ← deref h found;
          if negb (instanceof_Namespace f) then Throw Error
          else
            define_loop fuel visible path found h
              (if truthy visible then (found, JBool true) :: vis else vis)
      | None =>
          let '(r, h) := alloc (new_Namespace part JUndefined) h in
          h ← add fuel ptr r h;
          define_loop fuel visible path r h ((r, visible) :: vis)
      end
  end.

(** [Namespace.prototype.define]: the namespace it returns, the heap, the
    stores to [visible], and what is left in the array the caller passed as
    [path] ([None] when the path was no array: the array of [split] is the
    function's own). *)
Definition define (fuel : nat) (this : ref) (path : path_arg) (json_ visible : json)
    (h : heap) (vis : visibility)
  : result (ref * heap * visibility * option (list string)) :=
  let array_after :=
    match path with
    | PArray _ => Some []
    | PValue _ => None
    end in
  let '(path, json_, visible) :=
    match path with
    | PArray l => (Some l, json_, visible)
    | PValue (JStr s) => (Some (split_dots s), json_, visible)
    | PValue j => (None, j, json_)
    end in
  let '(json_, visible) :=
    match json_ with
    | JBool _ => (JUndefined, json_)
    | _ => (json_, visible)
    end in
  let visible := if is_undefined visible then JNull else visible in
  '(ptr, h, vis) ← match path with
                   | Some path => define_loop fuel visible path this h vis
                   | None => Ok (this, h, vis)
                   end;
  h ← (if truthy json_
       then addJSON Enum_fromJSON Type_fromJSON Service_fromJSON fuel ptr json_ h
       else Ok h);
  Ok (ptr, h, vis, array_after).

End Define.

(** [h'] keeps every object of [h], with its class and the entries of its
    [nested] map. *)
Definition heap_grows (h h' : heap) : Prop :=
  forall r o, h !! r = Some o ->
    exists o', h' !! r = Some o' /\ ctor o' = ctor o
      /\ forall k v, nested o ≫= assoc k = Some v -> nested o' ≫= assoc k = Some v.

(** A namespace [N] (0) that holds the enum [a] (1); an enum [c] (2) and an
    enum [a] (3) that belong to no namespace yet. *)
Definition detached_heap : heap :=
  [ mk_namespace KNamespace "N" None (Some [("a"%string, 1%nat)]);
    mk_namespace KEnum "a" (Some 0%nat) None;
    mk_namespace KEnum "c" None None;
    mk_namespace KEnum "a" None None ].

(** A namespace [N] (0) without members, a field without [extend] (1) and an
    object of a class that is none of [nestedTypes] (2). *)
Definition unacceptable_heap : heap :=
  [ mk_namespace KNamespace "N" None None;
    required_int32_field;
    mk_namespace KOther "o" None None ].

(** The heap after [ptr.add(ptr = new Namespace(part))]. *)
Definition defined_step (h : heap) (ptr : ref) (t : object) (part : string) : heap :=
  onAdd (length h) ptr
    (set_nested ptr (Some (assoc_set part (length h) (default [] (nested t))))
       (h ++ [new_Namespace part JUndefined])).

(** * Properties *)

(** ** The result monad *)

Lemma bind_Ok {A B} (f : A -> result B) (a : A) : (Ok a ≫= f) = f a.
Proof. reflexivity. Qed.

Lemma fmap_Ok {A B} (f : A -> B) (a : A) : f <$> Ok a = Ok (f a).
Proof. reflexivity. Qed.

(** ** JavaScript integer operators *)

Lemma to_uint32_range z : 0 <= to_uint32 z < 2 ^ 32.
Proof. unfold to_uint32. apply Z.mod_pos_bound. lia. Qed.

Lemma to_uint32_small z : 0 <= z < 2 ^ 32 -> to_uint32 z = z.
Proof. intros. unfold to_uint32. apply Z.mod_small. lia. Qed.

Lemma to_int32_small z : - 2 ^ 31 <= z < 2 ^ 31 -> to_int32 z = z.
Proof. intros. unfold to_int32. rewrite Z.mod_small; lia. Qed.

Lemma to_int32_range z : - 2 ^ 31 <= to_int32 z < 2 ^ 31.
Proof.
  unfold to_int32.
  pose proof (Z.mod_pos_bound (z + 2 ^ 31) (2 ^ 32)). lia.
Qed.

Lemma shr_0 z : shr z 0 = to_uint32 z.
Proof. unfold shr. apply Z.shiftr_0_r. Qed.

(** The low [k] bits of [to_int32 z] are those of [z]. *)
Lemma to_int32_mod z k : 0 <= k <= 32 -> to_int32 z mod 2 ^ k = z mod 2 ^ k.
Proof.
  intros Hk. unfold to_int32.
  assert (H32 : 2 ^ 32 = 2 ^ k * 2 ^ (32 - k)).
  { rewrite <- Z.pow_add_r by lia. f_equal. lia. }
  assert (H31 : (z + 2 ^ 31) mod 2 ^ 32 - 2 ^ 31
                = z + (- 2 ^ (32 - k) * ((z + 2 ^ 31) / 2 ^ 32)) * 2 ^ k).
  { pose proof (Z.div_mod (z + 2 ^ 31) (2 ^ 32) ltac:(lia)) as E.
    rewrite H32 in E at 1. nia. }
  rewrite H31. apply Z.mod_add.
  apply Z.pow_nonzero; lia.
Qed.

Lemma land_ones_mod a k : 0 <= k -> Z.land a (2 ^ k - 1) = a mod 2 ^ k.
Proof.
  intros. rewrite <- Z.land_ones by lia. f_equal.
  rewrite Z.ones_equiv. lia.
Qed.

(** [x | m] is [x + m] when [m] has no bit below [2 ^ k] and [x] none above. *)
Lemma lor_disjoint x c k :
  0 <= k -> 0 <= x < 2 ^ k -> Z.lor x (c * 2 ^ k) = x + c * 2 ^ k.
Proof.
  intros Hk Hx.
  assert (Hd : Z.land x (c * 2 ^ k) = 0).
  { apply Z.bits_inj'. intros n Hn.
    rewrite Z.land_spec, Z.bits_0.
    destruct (Z.lt_ge_cases n k) as [Hlt|Hge].
    - rewrite (Z.mul_pow2_bits_low c k n) by lia. apply andb_false_r.
    - replace (Z.testbit x n) with false; [reflexivity|].
      symmetry. destruct (Z.eq_dec x 0) as [->|Hx0]; [apply Z.bits_0|].
      apply Z.bits_above_log2; [lia|].
      apply Z.log2_lt_pow2; [lia|].
      eapply Z.lt_le_trans; [apply Hx|].
      apply Z.pow_le_mono_r; lia. }
  rewrite <- Z.lxor_lor by exact Hd.
  symmetry. apply Z.add_nocarry_lxor. exact Hd.
Qed.

Lemma band_mod a k :
  0 <= k < 31 -> band a (2 ^ k - 1) = a mod 2 ^ k.
Proof.
  intros Hk. unfold band.
  rewrite (to_int32_small (2 ^ k - 1)).
  - rewrite land_ones_mod by lia. apply to_int32_mod. lia.
  - assert (0 < 2 ^ k) by (apply Z.pow_pos_nonneg; lia).
    assert (2 ^ k < 2 ^ 31) by (apply Z.pow_lt_mono_r; lia). lia.
Qed.

Lemma bor_disjoint x c k :
  0 <= k -> 0 <= x < 2 ^ k -> 0 <= c -> x + c * 2 ^ k < 2 ^ 31 ->
  bor x (c * 2 ^ k) = x + c * 2 ^ k.
Proof.
  intros Hk Hx Hc Hs. unfold bor.
  assert (0 <= c * 2 ^ k) by (apply Z.mul_nonneg_nonneg; lia).
  rewrite !to_int32_small by lia.
  apply lor_disjoint; assumption.
Qed.

Lemma shr_div a k : 0 <= k -> shr a k = to_uint32 a / 2 ^ k.
Proof. intros. unfold shr. apply Z.shiftr_div_pow2. assumption. Qed.

Lemma sar_div a k : 0 <= k -> sar a k = to_int32 a / 2 ^ k.
Proof. intros. unfold sar. apply Z.shiftr_div_pow2. assumption. Qed.

(** ** Stores and chunk management *)

Lemma emitted_refl w : wf w -> emitted w [] w.
Proof. intros. split; auto. now rewrite app_nil_r. Qed.

Lemma emitted_trans w a w1 b w2 :
  emitted w a w1 -> emitted w1 b w2 -> emitted w (a ++ b) w2.
Proof.
  intros [_ C1 S1 D1] [W2 C2 S2 D2]. split; auto.
  - now rewrite C2, C1, app_assoc.
  - congruence.
Qed.

Lemma in_place_trans w a w1 b w2 :
  in_place w a w1 -> in_place w1 b w2 -> in_place w (a ++ b) w2.
Proof.
  intros [E1 P1 L1] [E2 P2 L2]. split.
  - eapply emitted_trans; eassumption.
  - rewrite length_app. lia.
  - congruence.
Qed.

Lemma in_place_refl w : wf w -> in_place w [] w.
Proof. intros. split; [now apply emitted_refl|simpl; lia|reflexivity]. Qed.

Lemma wf_buf_Some w : wf w -> pos w < len w -> exists b, buf w = Some b.
Proof.
  intros [Hp Hb] Hlt. destruct (buf w) as [b|]; [eauto|].
  destruct Hb. lia.
Qed.

Lemma put_in_place v w :
  wf w -> pos w < len w ->
  exists w', put v w = Ok w' /\ in_place w [to_uint8 v] w'.
Proof.
  intros Hwf Hlt. destruct (wf_buf_Some w Hwf Hlt) as [b Hb].
  unfold put. rewrite Hb. eexists. split; [reflexivity|].
  destruct Hwf as [Hp Hw]. rewrite Hb in Hw. destruct Hw as (Hl & Hl0 & Hs).
  assert (Hst : store b (pos w) v = <[Z.to_nat (pos w) := to_uint8 v]> b).
  { unfold store. destruct (Z.ltb_spec (pos w) 0); [lia|reflexivity]. }
  split; [split|..]; simpl; try tauto.
  - unfold wf. simpl. split; [lia|]. rewrite Hst, length_insert. auto.
  - unfold content. simpl. rewrite Hb, Hst, <- app_assoc. f_equal.
    replace (Z.to_nat (pos w + 1)) with (S (Z.to_nat (pos w))) by lia.
    rewrite (take_S_r _ _ (to_uint8 v)).
    + now rewrite take_insert_ge by lia.
    + apply list_lookup_insert_eq. lia.
Qed.

Lemma expand_emitted n w :
  wf w ->
  exists w', expand n w = Ok w' /\ emitted w [] w' /\ pos w' = 0
             /\ len w' = Z.max n BUFFER_SIZE.
Proof.
  intros [Hp Hw]. unfold expand, BUFFER_SIZE.
  assert (Hal : Z.of_nat (length (alloc_array (Z.max n 256))) = Z.max n 256).
  { unfold alloc_array. rewrite length_replicate. lia. }
  destruct (decide (pos w = 0)) as [H0|H0].
  - rewrite bind_Ok. eexists. split; [reflexivity|].
    split; [split|]; simpl; auto.
    + unfold wf. simpl. split; [lia|]. split; [assumption|]. split; [lia|reflexivity].
    + unfold content. simpl. rewrite H0. simpl.
      destruct (buf w); now rewrite ?take_0, ?app_nil_r.
  - destruct (buf w) as [b|] eqn:Hb; [|destruct Hw; lia].
    destruct Hw as (Hl & Hl0 & Hs). unfold _slice. rewrite Hs, !bind_Ok.
    eexists. split; [reflexivity|].
    split; [split|]; simpl; auto.
    + unfold wf. simpl. split; [lia|]. split; [assumption|]. split; [lia|reflexivity].
    + unfold content. simpl. rewrite Hb, concat_app. simpl.
      now rewrite !app_nil_r.
Qed.

Lemma reserve_emitted n w :
  wf w ->
  exists w', reserve n w = Ok w' /\ emitted w [] w' /\ pos w' + n <= len w'.
Proof.
  intros Hwf. unfold reserve. destruct (Z.ltb_spec (len w) (pos w + n)).
  - destruct (expand_emitted n w Hwf) as (w' & E & Hem & Hp & Hl).
    exists w'. split; [assumption|]. split; [assumption|]. lia.
  - exists w. split; [reflexivity|]. split; [now apply emitted_refl|lia].
Qed.

Lemma reserve1_emitted w :
  wf w ->
  exists w', reserve1 w = Ok w' /\ emitted w [] w' /\ pos w' < len w'.
Proof.
  intros Hwf. unfold reserve1. destruct (Z.leb_spec (len w) (pos w)).
  - destruct (expand_emitted 1 w Hwf) as (w' & E & Hem & Hp & Hl).
    exists w'. split; [assumption|]. split; [assumption|].
    unfold BUFFER_SIZE in Hl. lia.
  - exists w. split; [reflexivity|]. split; [now apply emitted_refl|lia].
Qed.

(** [if (this.pos >= this.len) this.expand(1); this.buf[this.pos++] = v] *)
Lemma reserve1_put_emitted v w :
  wf w ->
  exists w', (reserve1 w ≫= put v) = Ok w' /\ emitted w [to_uint8 v] w'.
Proof.
  intros Hwf.
  destruct (reserve1_emitted w Hwf) as (w1 & -> & Hem & Hlt).
  rewrite bind_Ok.
  destruct (put_in_place v w1 (em_wf _ _ _ Hem) Hlt) as (w2 & -> & Hip).
  exists w2. split; [reflexivity|].
  apply (emitted_trans _ [] w1); [assumption|apply Hip].
Qed.

(** ** Varints *)

Lemma log2_div128 v : 128 <= v -> Z.log2 (v / 128) < Z.log2 v.
Proof.
  intros Hv.
  replace (v / 128) with (Z.shiftr v 7)
    by (rewrite Z.shiftr_div_pow2 by lia; reflexivity).
  rewrite Z.log2_shiftr by lia.
  assert (7 <= Z.log2 v) by (apply (Z.log2_le_pow2 v 7); lia). lia.
Qed.

Lemma varint_aux_fuel f1 : forall f2 v,
  0 <= v -> Z.log2 v <= Z.of_nat f1 -> Z.log2 v <= Z.of_nat f2 ->
  varint_aux f1 v = varint_aux f2 v.
Proof.
  induction f1 as [|f1 IH]; intros f2 v Hv H1 H2.
  - destruct f2; simpl; destruct (Z.ltb_spec v 128); try reflexivity.
    assert (7 <= Z.log2 v) by (apply (Z.log2_le_pow2 v 7); lia). lia.
  - destruct f2; simpl; destruct (Z.ltb_spec v 128); try reflexivity.
    + assert (7 <= Z.log2 v) by (apply (Z.log2_le_pow2 v 7); lia). lia.
    + f_equal. pose proof (log2_div128 v ltac:(lia)).
      apply IH; [apply Z.div_pos; lia|lia|lia].
Qed.

Lemma varint_unfold v :
  0 <= v ->
  varint v = if v <? 128 then [v] else (v mod 128 + 128) :: varint (v / 128).
Proof.
  intros Hv. unfold varint at 1.
  destruct (Z.to_nat (Z.log2 v)) as [|f] eqn:Hf; simpl;
    destruct (Z.ltb_spec v 128); try reflexivity.
  - assert (7 <= Z.log2 v) by (apply (Z.log2_le_pow2 v 7); lia). lia.
  - f_equal. pose proof (log2_div128 v ltac:(lia)).
    pose proof (Z.log2_nonneg (v / 128)).
    apply varint_aux_fuel; [apply Z.div_pos; lia|lia|lia].
Qed.

(** Induction on the groups of seven bits of a natural number. *)
Lemma groups_ind (P : Z -> Prop) :
  (forall v, 0 <= v < 128 -> P v) ->
  (forall v, 128 <= v -> P (v / 128) -> P v) ->
  forall v, 0 <= v -> P v.
Proof.
  intros Hsmall Hbig v Hv.
  remember (Z.to_nat (Z.log2 v)) as f eqn:Hf.
  assert (Hle : Z.log2 v <= Z.of_nat f) by lia. clear Hf.
  revert v Hv Hle. induction f as [|f IH]; intros v Hv Hle.
  - destruct (Z.lt_ge_cases v 128); [apply Hsmall; lia|].
    assert (7 <= Z.log2 v) by (apply (Z.log2_le_pow2 v 7); lia). lia.
  - destruct (Z.lt_ge_cases v 128); [apply Hsmall; lia|].
    apply Hbig; [lia|]. pose proof (log2_div128 v ltac:(lia)).
    apply IH; [apply Z.div_pos; lia|lia].
Qed.

(** Shape: every byte but the last carries the continuation bit. *)
Lemma varint_shape v :
  0 <= v ->
  exists init last, varint v = init ++ [last]
    /\ Forall (fun b => 128 <= b < 256) init /\ 0 <= last < 128.
Proof.
  revert v. apply groups_ind; intros v Hv.
  - exists [], v. rewrite varint_unfold by lia.
    destruct (Z.ltb_spec v 128); [|lia]. repeat split; [constructor|lia..].
  - intros (init & last & E & Hi & Hl).
    exists ((v mod 128 + 128) :: init), last.
    rewrite varint_unfold by lia.
    destruct (Z.ltb_spec v 128); [lia|]. rewrite E. repeat split; try lia.
    constructor; [|assumption].
    pose proof (Z.mod_pos_bound v 128). lia.
Qed.

(** Round trip: the reference decoder reads the value back. *)
Lemma varint_decode_varint v rest :
  0 <= v -> varint_decode (varint v ++ rest) = Some (v, rest).
Proof.
  revert v. apply (groups_ind (fun v => varint_decode (varint v ++ rest) = Some (v, rest)));
    intros v Hv.
  - rewrite varint_unfold by lia.
    destruct (Z.ltb_spec v 128); [|lia]. simpl.
    destruct (Z.ltb_spec v 128); [reflexivity|lia].
  - intros IH. rewrite varint_unfold by lia.
    destruct (Z.ltb_spec v 128); [lia|]. simpl.
    pose proof (Z.mod_pos_bound v 128 ltac:(lia)).
    destruct (Z.ltb_spec (v mod 128 + 128) 128); [lia|].
    rewrite IH. simpl. f_equal. f_equal.
    pose proof (Z.div_mod v 128 ltac:(lia)). lia.
Qed.

Lemma varint_length v k :
  0 <= k -> 0 <= v < 2 ^ (7 * k + 7) -> Z.of_nat (length (varint v)) <= k + 1.
Proof.
  intros Hk [Hv Hlt]. revert v Hv k Hk Hlt.
  apply (groups_ind (fun v => forall k, 0 <= k -> v < 2 ^ (7 * k + 7) ->
                                Z.of_nat (length (varint v)) <= k + 1));
    intros v Hv.
  - intros k Hk _. rewrite varint_unfold by lia.
    destruct (Z.ltb_spec v 128); [simpl; lia|lia].
  - intros IH k Hk Hlt. rewrite varint_unfold by lia.
    destruct (Z.ltb_spec v 128); [lia|].
    assert (k <> 0) by (intros ->; simpl in Hlt; lia).
    specialize (IH (k - 1) ltac:(lia)).
    simpl length. rewrite Nat2Z.inj_succ.
    enough (v / 128 < 2 ^ (7 * (k - 1) + 7)) by (specialize (IH ltac:(assumption)); lia).
    apply Z.div_lt_upper_bound; [lia|].
    change 128 with (2 ^ 7). rewrite <- Z.pow_add_r by lia.
    replace (7 + (7 * (k - 1) + 7)) with (7 * k + 7) by lia. assumption.
Qed.

(** ** [uint32] *)

#[local] Arguments put : simpl never.
#[local] Arguments reserve : simpl never.
#[local] Arguments reserve1 : simpl never.
#[local] Arguments expand : simpl never.

(** Runs the next call of a sequence with its specification [H]. *)
Ltac run H :=
  let w' := fresh "w" in
  let E := fresh "E" in
  destruct H as (w' & E & ?); rewrite E, ?bind_Ok; cbv beta; clear E.

Lemma continuation_byte v :
  to_uint8 (bor (band v 127) 128) = v mod 128 + 128.
Proof.
  change 127 with (2 ^ 7 - 1). rewrite band_mod by lia.
  pose proof (Z.mod_pos_bound v (2 ^ 7) ltac:(lia)) as Hm.
  change 128 with (1 * 2 ^ 7) at 1. rewrite bor_disjoint by lia.
  change (2 ^ 7) with 128 in *.
  unfold to_uint8. rewrite Z.mod_small; lia.
Qed.

Lemma shr_7 v : 0 <= v < 2 ^ 32 -> shr v 7 = v / 128.
Proof. intros. rewrite shr_div, to_uint32_small by lia. reflexivity. Qed.

Lemma uint32_slow_emitted fuel : forall k v w,
  (k <= fuel)%nat -> wf w -> 0 <= v < 2 ^ (7 * Z.of_nat k + 7) -> v < 2 ^ 32 ->
  exists bs vl w', uint32_slow fuel v w = Ok (vl, w')
    /\ emitted w bs w' /\ varint v = bs ++ [vl] /\ 0 <= vl < 128.
Proof.
  induction fuel as [|fuel IH]; intros k v w Hk Hwf Hv H32;
    rewrite varint_unfold by lia; simpl; destruct (Z.ltb_spec 127 v) as [Hb|Hs].
  - assert (k = 0%nat) as -> by lia. simpl in Hv. lia.
  - destruct (Z.ltb_spec v 128); [|lia]. exists [], v, w.
    split; [reflexivity|]. split; [now apply emitted_refl|].
    split; [reflexivity|lia].
  - destruct (Z.ltb_spec v 128); [lia|].
    destruct k as [|k]; [simpl in Hv; lia|].
    run (reserve1_emitted w Hwf). destruct H0 as [Hem Hlt].
    run (put_in_place (bor (band v 127) 128) w0 (em_wf _ _ _ Hem) Hlt).
    rewrite continuation_byte in H0. rewrite shr_7 by lia.
    assert (Hd : 0 <= v / 128 < 2 ^ (7 * Z.of_nat k + 7)).
    { split; [apply Z.div_pos; lia|]. apply Z.div_lt_upper_bound; [lia|].
      change 128 with (2 ^ 7). rewrite <- Z.pow_add_r by lia.
      replace (7 + (7 * Z.of_nat k + 7)) with (7 * Z.of_nat (S k) + 7) by lia.
      lia. }
    assert (Hd32 : v / 128 < 2 ^ 32).
    { apply Z.div_lt_upper_bound; lia. }
    destruct (IH k (v / 128) w1 ltac:(lia) (em_wf _ _ _ (ip_emitted _ _ _ H0)) Hd Hd32)
      as (bs & vl & w' & E & Hem' & Hvar & Hvl).
    exists ((v mod 128 + 128) :: bs), vl, w'. rewrite E, Hvar.
    split; [reflexivity|]. split; [|split; [reflexivity|lia]].
    change ((v mod 128 + 128) :: bs) with ([] ++ [v mod 128 + 128] ++ bs).
    eapply emitted_trans; [eassumption|].
    eapply emitted_trans; [apply H0|assumption].
  - destruct (Z.ltb_spec v 128); [|lia]. exists [], v, w.
    split; [reflexivity|]. split; [now apply emitted_refl|].
    split; [reflexivity|lia].
Qed.

Lemma uint32_fast_in_place fuel : forall k v w,
  (k <= fuel)%nat -> wf w -> 0 <= v < 2 ^ (7 * Z.of_nat k + 7) -> v < 2 ^ 32 ->
  pos w + Z.of_nat k < len w ->
  exists bs vl w', uint32_fast fuel v w = Ok (vl, w')
    /\ in_place w bs w' /\ varint v = bs ++ [vl] /\ 0 <= vl < 128
    /\ (length bs <= k)%nat.
Proof.
  induction fuel as [|fuel IH]; intros k v w Hk Hwf Hv H32 Hroom;
    rewrite varint_unfold by lia; simpl; destruct (Z.ltb_spec 127 v) as [Hb|Hs].
  - assert (k = 0%nat) as -> by lia. simpl in Hv. lia.
  - destruct (Z.ltb_spec v 128); [|lia]. exists [], v, w.
    split; [reflexivity|]. split; [now apply in_place_refl|].
    split; [reflexivity|simpl; lia].
  - destruct (Z.ltb_spec v 128); [lia|].
    destruct k as [|k]; [simpl in Hv; lia|].
    run (put_in_place (bor (band v 127) 128) w Hwf ltac:(lia)).
    rewrite continuation_byte in H0. rewrite shr_7 by lia.
    assert (Hd : 0 <= v / 128 < 2 ^ (7 * Z.of_nat k + 7)).
    { split; [apply Z.div_pos; lia|]. apply Z.div_lt_upper_bound; [lia|].
      change 128 with (2 ^ 7). rewrite <- Z.pow_add_r by lia.
      replace (7 + (7 * Z.of_nat k + 7)) with (7 * Z.of_nat (S k) + 7) by lia.
      lia. }
    assert (Hd32 : v / 128 < 2 ^ 32).
    { apply Z.div_lt_upper_bound; lia. }
    pose proof (ip_pos _ _ _ H0) as Hp0. pose proof (ip_len _ _ _ H0) as Hl0.
    simpl in Hp0.
    destruct (IH k (v / 128) w0 ltac:(lia) (em_wf _ _ _ (ip_emitted _ _ _ H0)) Hd Hd32
                ltac:(lia))
      as (bs & vl & w' & E & Hip' & Hvar & Hvl & Hlen).
    exists ((v mod 128 + 128) :: bs), vl, w'. rewrite E, Hvar.
    split; [reflexivity|]. split; [|split; [reflexivity|simpl; lia]].
    change ((v mod 128 + 128) :: bs) with ([v mod 128 + 128] ++ bs).
    eapply in_place_trans; eassumption.
  - destruct (Z.ltb_spec v 128); [|lia]. exists [], v, w.
    split; [reflexivity|]. split; [now apply in_place_refl|].
    split; [reflexivity|simpl; lia].
Qed.

Lemma to_uint8_small v : 0 <= v < 256 -> to_uint8 v = v.
Proof. intros. unfold to_uint8. apply Z.mod_small. lia. Qed.

(** [uint32] appends the varint of its argument converted to 32 bits. *)
Lemma uint32_emitted v w :
  wf w -> exists w', uint32 v w = Ok w' /\ emitted w (varint (to_uint32 v)) w'.
Proof.
  intros Hwf. unfold uint32. rewrite shr_0.
  pose proof (to_uint32_range v) as Hr.
  assert (H35 : to_uint32 v < 2 ^ (7 * Z.of_nat 4 + 7)) by (simpl; lia).
  destruct (Z.ltb_spec (pos w + 4) (len w)) as [Hfast|Hslow].
  - destruct (uint32_fast_in_place fuel32 4 (to_uint32 v) w) as
      (bs & vl & w1 & -> & Hip & -> & Hvl & Hlen);
      [unfold fuel32; lia|assumption|lia|lia|lia|].
    rewrite bind_Ok.
    run (put_in_place vl w1 (em_wf _ _ _ (ip_emitted _ _ _ Hip))
           ltac:(rewrite (ip_pos _ _ _ Hip), (ip_len _ _ _ Hip); lia)).
    rewrite to_uint8_small in H by lia.
    exists w0. split; [reflexivity|].
    eapply emitted_trans; [apply Hip|apply H].
  - destruct (uint32_slow_emitted fuel32 4 (to_uint32 v) w) as
      (bs & vl & w1 & -> & Hem & -> & Hvl);
      [unfold fuel32; lia|assumption|lia|lia|].
    rewrite bind_Ok.
    run (reserve1_emitted w1 (em_wf _ _ _ Hem)). destruct H as [Hem1 Hlt].
    run (put_in_place vl w0 (em_wf _ _ _ Hem1) Hlt).
    rewrite to_uint8_small in H by lia.
    exists w2. split; [reflexivity|].
    eapply emitted_trans; [eassumption|].
    change [vl] with ([] ++ [vl]).
    eapply emitted_trans; [eassumption|apply H].
Qed.

(** ** [finish], [fork] and [reset] *)

Lemma _set_Ok w target array offset :
  setup_done w = true -> 0 <= offset ->
  offset + Z.of_nat (length array) <= Z.of_nat (length target) ->
  exists r, _set w target array offset = Ok r
    /\ length r = length target
    /\ take (Z.to_nat offset + length array) r = take (Z.to_nat offset) target ++ array.
Proof.
  intros Hs H0 Hfit. unfold _set. rewrite Hs.
  destruct (Z.ltb_spec offset 0); [lia|].
  destruct (Z.ltb_spec (Z.of_nat (length target)) (offset + Z.of_nat (length array)));
    [lia|]. simpl.
  eexists. split; [reflexivity|]. split.
  - rewrite !length_app, length_take, length_drop. lia.
  - rewrite app_assoc. apply take_app_length'.
    rewrite length_app, length_take. lia.
Qed.

Lemma fold_left_lengths (l : list bytes) p :
  fold_left (fun l sub => l + Z.of_nat (length sub)) l p
  = p + Z.of_nat (length (concat l)).
Proof.
  revert p. induction l as [|sub l IH]; intros p; simpl; [lia|].
  rewrite IH, length_app. lia.
Qed.

Lemma finish_copy_Ok w : forall bufs_ concat_ pos_,
  setup_done w = true -> 0 <= pos_ ->
  pos_ + Z.of_nat (length (concat bufs_)) <= Z.of_nat (length concat_) ->
  exists r, finish_copy w bufs_ concat_ pos_
            = Ok (r, pos_ + Z.of_nat (length (concat bufs_)))
    /\ length r = length concat_
    /\ take (Z.to_nat pos_ + length (concat bufs_)) r
       = take (Z.to_nat pos_) concat_ ++ concat bufs_.
Proof.
  induction bufs_ as [|sub rest IH]; intros concat_ pos_ Hs H0 Hfit; simpl in *.
  - exists concat_. rewrite Z.add_0_r, Nat.add_0_r, app_nil_r. auto.
  - rewrite length_app in Hfit.
    destruct (_set_Ok w concat_ sub pos_ Hs H0 ltac:(lia)) as (c1 & -> & Hl1 & Ht1).
    rewrite bind_Ok.
    destruct (IH c1 (pos_ + Z.of_nat (length sub)) Hs ltac:(lia) ltac:(lia))
      as (r & E & Hl & Ht).
    exists r. rewrite E. split; [|split].
    + do 2 f_equal. rewrite length_app. lia.
    + congruence.
    + rewrite length_app, app_assoc, <- Ht1.
      replace (Z.to_nat pos_ + (length sub + length (concat rest)))%nat
        with (Z.to_nat (pos_ + Z.of_nat (length sub)) + length (concat rest))%nat by lia.
      rewrite Ht. do 2 f_equal. lia.
Qed.

(** What [finish] returns and the writer it leaves. *)
Lemma finish_Ok w :
  wf w ->
  finish w = Ok (match buf w with
                 | Some _ => Some (content w)
                 | None => emptyArray w
                 end, reset w).
Proof.
  intros [Hp Hw]. unfold finish, content.
  destruct (buf w) as [b|] eqn:Hb; [|reflexivity].
  destruct Hw as (Hl & Hl0 & Hs).
  assert (Hsl : (if pos w <? len w then _slice w b (pos w) else Ok b)
                = Ok (take (Z.to_nat (pos w)) b)).
  { unfold _slice. rewrite Hs. destruct (Z.ltb_spec (pos w) (len w)); [reflexivity|].
    rewrite take_ge by lia. reflexivity. }
  rewrite Hsl, bind_Ok.
  destruct (bufs w) as [|c cs] eqn:Hbufs; [reflexivity|].
  rewrite fold_left_lengths.
  set (body := concat (c :: cs)).
  set (tail := take (Z.to_nat (pos w)) b).
  assert (Htl : length tail = Z.to_nat (pos w)).
  { unfold tail. rewrite length_take. lia. }
  set (total := pos w + Z.of_nat (length body)).
  assert (Hal : length (alloc_array total) = Z.to_nat total).
  { unfold alloc_array. apply length_replicate. }
  destruct (finish_copy_Ok w (c :: cs) (alloc_array total) 0 Hs ltac:(lia))
    as (r & E & Hlr & Htr); [fold body; lia|].
  fold body in E, Htr. rewrite E, bind_Ok. simpl in Htr.
  unfold _set. rewrite Hs.
  destruct (Z.ltb_spec (0 + Z.of_nat (length body)) 0); [lia|].
  destruct (Z.ltb_spec (Z.of_nat (length r))
              (0 + Z.of_nat (length body) + Z.of_nat (length tail))); [lia|].
  simpl. do 3 f_equal.
  replace (Z.to_nat (0 + Z.of_nat (length body))) with (length body) by lia.
  rewrite Htr, drop_ge by lia. now rewrite app_nil_r.
Qed.

(** ** The other primitive writes *)

(** One more store into a chunk that has room. *)
Lemma put_step w0 bs wi v :
  in_place w0 bs wi -> pos w0 + Z.of_nat (length bs) < len w0 ->
  exists wj, put v wi = Ok wj /\ in_place w0 (bs ++ [to_uint8 v]) wj.
Proof.
  intros Hip Hroom.
  destruct (put_in_place v wi) as (wj & E & Hj).
  - apply Hip.
  - rewrite (ip_pos _ _ _ Hip), (ip_len _ _ _ Hip). assumption.
  - exists wj. split; [assumption|]. eapply in_place_trans; eassumption.
Qed.

Lemma emitted_in_place w a w1 b w2 :
  emitted w a w1 -> in_place w1 b w2 -> emitted w (a ++ b) w2.
Proof. intros H1 H2. eapply emitted_trans; [eassumption|apply H2]. Qed.

Lemma tag_emitted id wireType w :
  wf w -> exists w', tag id wireType w = Ok w' /\ emitted w (encode (Tag id wireType)) w'.
Proof.
  intros Hwf. unfold tag.
  run (reserve_emitted 1 w Hwf). destruct H as [Hem Hroom].
  run (put_in_place (band (bor (shl id 3) (band wireType 7)) 255) w0
         (em_wf _ _ _ Hem) ltac:(lia)).
  exists w1. split; [reflexivity|].
  apply (emitted_in_place _ [] w0); assumption.
Qed.

Lemma bool_emitted value w :
  wf w -> exists w', bool_ value w = Ok w' /\ emitted w (encode (Bool value)) w'.
Proof.
  intros Hwf. unfold bool_.
  run (reserve1_emitted w Hwf). destruct H as [Hem Hroom].
  run (put_in_place (if value then 1 else 0) w0 (em_wf _ _ _ Hem) Hroom).
  exists w1. split; [reflexivity|].
  replace (encode (Bool value)) with ([] ++ [to_uint8 (if value then 1 else 0)])
    by (destruct value; reflexivity).
  eapply emitted_in_place; eassumption.
Qed.

Lemma fixed32_emitted value w :
  wf w -> exists w', fixed32 value w = Ok w' /\ emitted w (fixed32_bytes value) w'.
Proof.
  intros Hwf. unfold fixed32, fixed32_bytes.
  run (reserve_emitted 4 w Hwf). destruct H as [Hem Hroom].
  pose proof (in_place_refl w0 (em_wf _ _ _ Hem)) as H0.
  run (put_step w0 _ _ (band (shr value 0) 255) H0 ltac:(simpl; lia)).
  run (put_step w0 _ _ (band (shr (shr value 0) 8) 255) H ltac:(simpl; lia)).
  run (put_step w0 _ _ (band (shr (shr value 0) 16) 255) H1 ltac:(simpl; lia)).
  run (put_step w0 _ _ (band (shr (shr value 0) 24) 255) H2 ltac:(simpl; lia)).
  exists w4. split; [reflexivity|].
  apply (emitted_in_place _ [] w0); assumption.
Qed.

Lemma _writeLongFixed_emitted lo hi w :
  wf w -> exists w', _writeLongFixed lo hi w = Ok w' /\ emitted w (fixed64_bytes lo hi) w'.
Proof.
  intros Hwf. unfold _writeLongFixed, fixed64_bytes.
  run (reserve_emitted 8 w Hwf). destruct H as [Hem Hroom].
  pose proof (in_place_refl w0 (em_wf _ _ _ Hem)) as H0.
  run (put_step w0 _ _ (band lo 255) H0 ltac:(simpl; lia)).
  run (put_step w0 _ _ (band (shr lo 8) 255) H ltac:(simpl; lia)).
  run (put_step w0 _ _ (band (shr lo 16) 255) H1 ltac:(simpl; lia)).
  run (put_step w0 _ _ (shr lo 24) H2 ltac:(simpl; lia)).
  run (put_step w0 _ _ (band hi 255) H3 ltac:(simpl; lia)).
  run (put_step w0 _ _ (band (shr hi 8) 255) H4 ltac:(simpl; lia)).
  run (put_step w0 _ _ (band (shr hi 16) 255) H5 ltac:(simpl; lia)).
  run (put_step w0 _ _ (shr hi 24) H6 ltac:(simpl; lia)).
  exists w8. split; [reflexivity|].
  apply (emitted_in_place _ [] w0); assumption.
Qed.

(** ** [_writeLongVarint] *)

Lemma to_uint32_land z : to_uint32 z = Z.land z (Z.ones 32).
Proof. unfold to_uint32. symmetry. apply Z.land_ones. lia. Qed.

(** One iteration shifts the 64-bit value [lo + 2 ^ 32 * hi] by seven bits. *)
Lemma long_step lo hi :
  0 <= lo < 2 ^ 32 -> 0 <= hi < 2 ^ 32 ->
  let lo' := shr (bor (shr lo 7) (shl hi 25)) 0 in
  let hi' := shr hi 7 in
  0 <= lo' < 2 ^ 32 /\ 0 <= hi' < 2 ^ 32
  /\ lo' + 2 ^ 32 * hi' = (lo + 2 ^ 32 * hi) / 128.
Proof.
  intros Hlo Hhi lo' hi'.
  assert (Hhi' : hi' = hi / 128) by (apply shr_7; assumption).
  assert (HA : shr lo 7 = lo / 128) by (apply shr_7; assumption).
  assert (HAr : 0 <= lo / 128 < 2 ^ 25).
  { split; [apply Z.div_pos; lia|apply Z.div_lt_upper_bound; lia]. }
  assert (Hlo' : lo' = lo / 128 + (hi mod 128) * 2 ^ 25).
  { unfold lo'. rewrite shr_0, HA. unfold bor, shl.
    rewrite to_uint32_land, Z.land_lor_distr_l, <- !to_uint32_land.
    unfold to_uint32 at 1 2. rewrite !(to_int32_mod _ 32) by lia.
    rewrite Z.mod_small by lia.
    rewrite Z.shiftl_mul_pow2 by lia.
    change (2 ^ 32) with (2 ^ 7 * 2 ^ 25).
    rewrite Z.mul_mod_distr_r by lia.
    rewrite (to_int32_mod hi 7) by lia.
    change (2 ^ 7) with 128.
    pose proof (Z.mod_pos_bound hi 128 ltac:(lia)).
    apply lor_disjoint; lia. }
  pose proof (Z.mod_pos_bound hi 128 ltac:(lia)) as Hm.
  pose proof (Z.div_mod hi 128 ltac:(lia)) as Hdm.
  split; [rewrite Hlo'; lia|].
  split.
  { rewrite Hhi'. split; [apply Z.div_pos; lia|apply Z.div_lt_upper_bound; lia]. }
  rewrite Hlo', Hhi'.
  replace (lo + 2 ^ 32 * hi) with (lo + (2 ^ 25 * hi) * 128) by lia.
  rewrite Z.div_add by lia. lia.
Qed.

Lemma long_cond lo hi :
  0 <= lo < 2 ^ 32 -> 0 <= hi ->
  (0 <? hi) || (127 <? lo) = (127 <? lo + 2 ^ 32 * hi).
Proof.
  intros. destruct (Z.ltb_spec 0 hi), (Z.ltb_spec 127 lo),
    (Z.ltb_spec 127 (lo + 2 ^ 32 * hi)); simpl; try reflexivity; lia.
Qed.

Lemma long_low_group lo hi : (lo + 2 ^ 32 * hi) mod 128 = lo mod 128.
Proof.
  replace (lo + 2 ^ 32 * hi) with (lo + (2 ^ 25 * hi) * 128) by lia.
  apply Z.mod_add. lia.
Qed.

Lemma longvarint_slow_emitted fuel : forall k lo hi w,
  (k <= fuel)%nat -> wf w -> 0 <= lo < 2 ^ 32 -> 0 <= hi < 2 ^ 32 ->
  lo + 2 ^ 32 * hi < 2 ^ (7 * Z.of_nat k + 7) ->
  exists bs vl w', longvarint_slow fuel lo hi w = Ok (vl, w')
    /\ emitted w bs w' /\ varint (lo + 2 ^ 32 * hi) = bs ++ [vl] /\ 0 <= vl < 128.
Proof.
  induction fuel as [|fuel IH]; intros k lo hi w Hk Hwf Hlo Hhi Hv;
    rewrite varint_unfold by lia; simpl; rewrite long_cond by lia;
    destruct (Z.ltb_spec 127 (lo + 2 ^ 32 * hi)) as [Hb|Hs].
  - assert (k = 0%nat) as -> by lia. simpl in Hv. lia.
  - destruct (Z.ltb_spec (lo + 2 ^ 32 * hi) 128); [|lia]. exists [], lo, w.
    split; [reflexivity|]. split; [now apply emitted_refl|].
    split; [simpl; f_equal; lia|lia].
  - destruct (Z.ltb_spec (lo + 2 ^ 32 * hi) 128); [lia|].
    destruct k as [|k]; [simpl in Hv; lia|].
    run (reserve1_emitted w Hwf). destruct H0 as [Hem Hlt].
    run (put_in_place (bor (band lo 127) 128) w0 (em_wf _ _ _ Hem) Hlt).
    rewrite continuation_byte, <- (long_low_group lo hi) in H0.
    destruct (long_step lo hi Hlo Hhi) as (Hlo' & Hhi' & HV).
    assert (Hd : (lo + 2 ^ 32 * hi) / 128 < 2 ^ (7 * Z.of_nat k + 7)).
    { apply Z.div_lt_upper_bound; [lia|].
      change 128 with (2 ^ 7). rewrite <- Z.pow_add_r by lia.
      replace (7 + (7 * Z.of_nat k + 7)) with (7 * Z.of_nat (S k) + 7) by lia.
      lia. }
    rewrite <- HV in Hd.
    destruct (IH k _ _ w1 ltac:(lia) (em_wf _ _ _ (ip_emitted _ _ _ H0)) Hlo' Hhi' Hd)
      as (bs & vl & w' & E & Hem' & Hvar & Hvl).
    rewrite HV in Hvar.
    exists (((lo + 2 ^ 32 * hi) mod 128 + 128) :: bs), vl, w'. rewrite E, Hvar.
    split; [reflexivity|]. split; [|split; [reflexivity|lia]].
    change (?x :: bs) with ([] ++ [x] ++ bs).
    eapply emitted_trans; [eassumption|].
    eapply emitted_trans; [apply H0|assumption].
  - destruct (Z.ltb_spec (lo + 2 ^ 32 * hi) 128); [|lia]. exists [], lo, w.
    split; [reflexivity|]. split; [now apply emitted_refl|].
    split; [simpl; f_equal; lia|lia].
Qed.

Lemma longvarint_fast_in_place fuel : forall k lo hi w,
  (k <= fuel)%nat -> wf w -> 0 <= lo < 2 ^ 32 -> 0 <= hi < 2 ^ 32 ->
  lo + 2 ^ 32 * hi < 2 ^ (7 * Z.of_nat k + 7) ->
  pos w + Z.of_nat k < len w ->
  exists bs vl w', longvarint_fast fuel lo hi w = Ok (vl, w')
    /\ in_place w bs w' /\ varint (lo + 2 ^ 32 * hi) = bs ++ [vl] /\ 0 <= vl < 128
    /\ (length bs <= k)%nat.
Proof.
  induction fuel as [|fuel IH]; intros k lo hi w Hk Hwf Hlo Hhi Hv Hroom;
    rewrite varint_unfold by lia; simpl; rewrite long_cond by lia;
    destruct (Z.ltb_spec 127 (lo + 2 ^ 32 * hi)) as [Hb|Hs].
  - assert (k = 0%nat) as -> by lia. simpl in Hv. lia.
  - destruct (Z.ltb_spec (lo + 2 ^ 32 * hi) 128); [|lia]. exists [], lo, w.
    split; [reflexivity|]. split; [now apply in_place_refl|].
    split; [simpl; f_equal; lia|simpl; lia].
  - destruct (Z.ltb_spec (lo + 2 ^ 32 * hi) 128); [lia|].
    destruct k as [|k]; [simpl in Hv; lia|].
    run (put_in_place (bor (band lo 127) 128) w Hwf ltac:(lia)).
    rewrite continuation_byte, <- (long_low_group lo hi) in H0.
    destruct (long_step lo hi Hlo Hhi) as (Hlo' & Hhi' & HV).
    assert (Hd : (lo + 2 ^ 32 * hi) / 128 < 2 ^ (7 * Z.of_nat k + 7)).
    { apply Z.div_lt_upper_bound; [lia|].
      change 128 with (2 ^ 7). rewrite <- Z.pow_add_r by lia.
      replace (7 + (7 * Z.of_nat k + 7)) with (7 * Z.of_nat (S k) + 7) by lia.
      lia. }
    rewrite <- HV in Hd.
    pose proof (ip_pos _ _ _ H0) as Hp0. pose proof (ip_len _ _ _ H0) as Hl0.
    simpl in Hp0.
    destruct (IH k _ _ w0 ltac:(lia) (em_wf _ _ _ (ip_emitted _ _ _ H0)) Hlo' Hhi' Hd
                ltac:(lia))
      as (bs & vl & w' & E & Hip' & Hvar & Hvl & Hlen).
    rewrite HV in Hvar.
    exists (((lo + 2 ^ 32 * hi) mod 128 + 128) :: bs), vl, w'. rewrite E, Hvar.
    split; [reflexivity|]. split; [|split; [reflexivity|simpl; lia]].
    change (?x :: bs) with ([x] ++ bs).
    eapply in_place_trans; eassumption.
  - destruct (Z.ltb_spec (lo + 2 ^ 32 * hi) 128); [|lia]. exists [], lo, w.
    split; [reflexivity|]. split; [now apply in_place_refl|].
    split; [simpl; f_equal; lia|simpl; lia].
Qed.

Lemma _writeLongVarint_emitted lo hi w :
  wf w -> 0 <= lo < 2 ^ 32 -> 0 <= hi < 2 ^ 32 ->
  exists w', _writeLongVarint lo hi w = Ok w'
             /\ emitted w (varint (lo + 2 ^ 32 * hi)) w'.
Proof.
  intros Hwf Hlo Hhi. unfold _writeLongVarint.
  assert (H70 : lo + 2 ^ 32 * hi < 2 ^ (7 * Z.of_nat 9 + 7)) by (simpl; lia).
  destruct (Z.ltb_spec (pos w + 9) (len w)) as [Hfast|Hslow].
  - destruct (longvarint_fast_in_place fuel64 9 lo hi w) as
      (bs & vl & w1 & -> & Hip & -> & Hvl & Hlen);
      [unfold fuel64; lia|assumption|lia|lia|lia|lia|].
    rewrite bind_Ok.
    run (put_in_place vl w1 (em_wf _ _ _ (ip_emitted _ _ _ Hip))
           ltac:(rewrite (ip_pos _ _ _ Hip), (ip_len _ _ _ Hip); lia)).
    rewrite to_uint8_small in H by lia.
    exists w0. split; [reflexivity|].
    eapply emitted_trans; [apply Hip|apply H].
  - destruct (longvarint_slow_emitted fuel64 9 lo hi w) as
      (bs & vl & w1 & -> & Hem & -> & Hvl);
      [unfold fuel64; lia|assumption|lia|lia|lia|].
    rewrite bind_Ok.
    run (reserve1_emitted w1 (em_wf _ _ _ Hem)). destruct H as [Hem1 Hlt].
    run (put_in_place vl w0 (em_wf _ _ _ Hem1) Hlt).
    rewrite to_uint8_small in H by lia.
    exists w2. split; [reflexivity|].
    eapply emitted_trans; [eassumption|].
    change [vl] with ([] ++ [vl]).
    eapply emitted_trans; [eassumption|apply H].
Qed.

(** ** [bytes] and [string] *)

Lemma set_in_place w b array :
  wf w -> buf w = Some b -> pos w + Z.of_nat (length array) <= len w ->
  exists b', _set w b array (pos w) = Ok b'
    /\ in_place w array
         (mkWriter (Some b') (pos w + Z.of_nat (length array)) (len w) (bufs w)
                   (_stack w) (setup_done w)).
Proof.
  intros [Hp Hw] Hb Hroom. rewrite Hb in Hw. destruct Hw as (Hl & Hl0 & Hs).
  destruct (_set_Ok w b array (pos w) Hs ltac:(lia) ltac:(lia)) as (b' & E & Hlb & Ht).
  exists b'. split; [assumption|].
  split; [split|..]; simpl; auto.
  - unfold wf. simpl. split; [lia|]. rewrite Hlb. auto.
  - unfold content. simpl. rewrite Hb, <- app_assoc. f_equal.
    rewrite <- Ht. f_equal. lia.
Qed.

Lemma bytes_emitted value w :
  wf w -> prim_ok (Bytes value) ->
  exists w', bytes_ value w = Ok w' /\ emitted w (encode (Bytes value)) w'.
Proof.
  intros Hwf Hok. simpl in Hok. unfold bytes_, encode.
  rewrite shr_0, to_uint32_small by lia.
  destruct (decide (Z.of_nat (length value) = 0)) as [H0|H0].
  - run (reserve1_emitted w Hwf). destruct H as [Hem Hroom].
    run (put_in_place 0 w0 (em_wf _ _ _ Hem) Hroom).
    exists w1. split; [reflexivity|].
    apply (emitted_in_place _ [] w0); assumption.
  - run (uint32_emitted (Z.of_nat (length value)) w Hwf).
    rewrite to_uint32_small in H by lia.
    run (reserve_emitted (Z.of_nat (length value)) w0 (em_wf _ _ _ H)).
    destruct H1 as [Hem Hroom].
    destruct (wf_buf_Some w1 (em_wf _ _ _ Hem) ltac:(lia)) as [b Hb].
    rewrite Hb.
    destruct (set_in_place w1 b (to_uint8 <$> value) (em_wf _ _ _ Hem) Hb)
      as (b' & -> & Hip); [rewrite length_fmap; lia|].
    rewrite bind_Ok. rewrite length_fmap in Hip.
    eexists. split; [reflexivity|].
    eapply emitted_trans; [eassumption|].
    apply (emitted_in_place _ [] w1); assumption.
Qed.

(** Induction that follows the scan of [string]: one or two code units at
    a time. *)
Lemma units_ind (P : list Z -> Prop) :
  P [] -> (forall c s, P s -> P (tail s) -> P (c :: s)) -> forall s, P s.
Proof.
  intros Hnil Hcons s.
  enough (P s /\ P (tail s)) by tauto.
  induction s as [|c s [IH1 IH2]]; simpl; auto.
Qed.

Lemma string_blen_length s : forall blen,
  string_blen s blen = blen + Z.of_nat (length (string_bytes s)).
Proof.
  induction s as [|c1 s IH1 IH2] using units_ind; intros blen; simpl; [lia|].
  destruct (c1 <? 128); [rewrite IH1; simpl; lia|].
  destruct (c1 <? 2048); [rewrite IH1; simpl; lia|].
  destruct s as [|c2 s2]; [simpl; lia|].
  destruct ((band c1 64512 =? 55296) && (band c2 64512 =? 56320)).
  - simpl in IH2. rewrite IH2. simpl length. lia.
  - rewrite IH1. simpl length. lia.
Qed.

(** Stores [vs] one after the other with [put_step], then goes on with the
    rest of the code units. *)
Ltac puts H Hroom :=
  lazymatch goal with
  | |- context [put ?v ?wi ≫= _] =>
      let w' := fresh "w" in
      let E := fresh "E" in
      let H' := fresh "Hip" in
      destruct (put_step _ _ _ v H ltac:(simpl in Hroom |- *; lia)) as (w' & E & H');
      rewrite E, bind_Ok; cbv beta; clear E; puts H' Hroom
  | _ => idtac
  end.

Lemma string_put_in_place s : forall w,
  wf w -> pos w + string_blen s 0 <= len w ->
  exists w', string_put s w = Ok w' /\ in_place w (string_bytes s) w'.
Proof.
  induction s as [|c1 s IH1 IH2] using units_ind; intros w Hwf Hroom.
  { exists w. split; [reflexivity|now apply in_place_refl]. }
  rewrite string_blen_length in Hroom.
  pose proof (in_place_refl w Hwf) as Hip0.
  assert (Hgo : forall bs s' wi,
             (s' = s \/ s' = tail s) ->
             in_place w bs wi ->
             pos w + Z.of_nat (length (bs ++ string_bytes s')) <= len w ->
             exists w', string_put s' wi = Ok w'
                        /\ in_place w (bs ++ string_bytes s') w').
  { intros bs s' wi Hs' Hip Hr. rewrite length_app in Hr.
    assert (IH : forall w, wf w -> pos w + string_blen s' 0 <= len w ->
                   exists w', string_put s' w = Ok w' /\ in_place w (string_bytes s') w')
      by (destruct Hs' as [->| ->]; assumption).
    destruct (IH wi) as (w' & E & Hip').
    - apply Hip.
    - rewrite string_blen_length, (ip_pos _ _ _ Hip), (ip_len _ _ _ Hip). lia.
    - exists w'. split; [assumption|]. eapply in_place_trans; eassumption. }
  simpl in Hroom |- *.
  destruct (c1 <? 128).
  { puts Hip0 Hroom. apply (Hgo [_]); [auto|assumption|simpl in *; lia]. }
  destruct (c1 <? 2048).
  { puts Hip0 Hroom. apply (Hgo [_; _]); [auto|assumption|simpl in *; lia]. }
  destruct s as [|c2 s2].
  { puts Hip0 Hroom. apply (Hgo [_; _; _]); [auto|assumption|simpl in *; lia]. }
  destruct ((band c1 64512 =? 55296) && (band c2 64512 =? 56320)).
  - puts Hip0 Hroom. apply (Hgo [_; _; _; _]); [auto|assumption|simpl in *; lia].
  - puts Hip0 Hroom. apply (Hgo [_; _; _]); [auto|assumption|simpl in *; lia].
Qed.

Lemma string_emitted value w :
  wf w -> exists w', string_ value w = Ok w' /\ emitted w (encode (Str value)) w'.
Proof.
  intros Hwf. unfold string_, encode. rewrite shr_0.
  destruct (decide (to_uint32 (Z.of_nat (length value)) = 0)) as [H0|H0].
  - run (reserve1_emitted w Hwf). destruct H as [Hem Hroom].
    run (put_in_place 0 w0 (em_wf _ _ _ Hem) Hroom).
    exists w1. split; [reflexivity|].
    apply (emitted_in_place _ [] w0); assumption.
  - set (s := take (Z.to_nat (to_uint32 (Z.of_nat (length value)))) value).
    run (uint32_emitted (string_blen s 0) w Hwf).
    run (reserve_emitted (string_blen s 0) w0 (em_wf _ _ _ H)).
    destruct H1 as [Hem Hroom].
    run (string_put_in_place s w1 (em_wf _ _ _ Hem) Hroom).
    exists w2. split; [reflexivity|].
    eapply emitted_trans; [eassumption|].
    apply (emitted_in_place _ [] w1); assumption.
Qed.

(** ** 64-bit values given as numbers, and floats *)

Lemma LongBits_number_range value :
  let bits := if negb (value =? 0) then LongBits_fromNumber value else LongBits_zero in
  0 <= lo bits < 2 ^ 32 /\ 0 <= hi bits < 2 ^ 32.
Proof.
  destruct (negb (value =? 0)); simpl; [|lia].
  split; apply Z.mod_pos_bound; lia.
Qed.

Lemma zzEncode_range bits :
  0 <= lo (zzEncode bits) < 2 ^ 32 /\ 0 <= hi (zzEncode bits) < 2 ^ 32.
Proof.
  unfold zzEncode. simpl.
  match goal with
  | |- context [?x mod 2 ^ 64] =>
      pose proof (Z.mod_pos_bound x (2 ^ 64) ltac:(lia)) as Hz;
      generalize dependent (x mod 2 ^ 64)
  end.
  intros z Hz. split; [apply Z.mod_pos_bound; lia|].
  split; [apply Z.div_pos; lia|apply Z.div_lt_upper_bound; lia].
Qed.

Lemma le_bytes_length n v : length (le_bytes n v) = n.
Proof. revert v. induction n as [|n IH]; intros v; simpl; [reflexivity|now rewrite IH]. Qed.

Lemma le_bytes_bytes n v : Forall (fun b => 0 <= b < 256) (le_bytes n v).
Proof.
  revert v. induction n as [|n IH]; intros v; simpl; constructor; [|apply IH].
  apply Z.mod_pos_bound. lia.
Qed.

(** Stores in the room that has been reserved. *)
Lemma store_bytes_in_place xs : forall w b,
  wf w -> buf w = Some b -> pos w + Z.of_nat (length xs) <= len w ->
  in_place w (to_uint8 <$> xs)
    (mkWriter (Some (store_bytes b (pos w) xs)) (pos w + Z.of_nat (length xs)) (len w)
              (bufs w) (_stack w) (setup_done w)).
Proof.
  induction xs as [|x xs IH]; intros w b Hwf Hb Hroom.
  - simpl. rewrite Z.add_0_r. destruct w; simpl in *; subst.
    now apply in_place_refl.
  - simpl length in *. destruct (put_in_place x w Hwf ltac:(lia)) as (w1 & E & H1).
    unfold put in E. rewrite Hb in E. injection E as <-.
    pose proof (IH _ (store b (pos w) x) (em_wf _ _ _ (ip_emitted _ _ _ H1)) eq_refl)
      as H2.
    simpl in H2. specialize (H2 ltac:(lia)).
    replace (pos w + 1 + Z.of_nat (length xs))
      with (pos w + Z.of_nat (S (length xs))) in H2 by lia.
    exact (in_place_trans _ _ _ _ _ H1 H2).
Qed.

(** [float] and [double] append the bytes of the float. *)
Lemma ieee754_emitted value mLen n w :
  wf w -> (0 < n)%nat ->
  exists w',
    (w ← reserve (Z.of_nat n) w;
     match buf w with
     | None => Throw TypeError
     | Some b =>
         Ok (mkWriter (Some (ieee754_write b value (pos w) mLen (Z.of_nat n)))
                      (pos w + Z.of_nat n) (len w) (bufs w) (_stack w) (setup_done w))
     end) = Ok w'
    /\ emitted w (le_bytes n (ieee754_bits value mLen (Z.of_nat n))) w'.
Proof.
  intros Hwf Hn.
  run (reserve_emitted (Z.of_nat n) w Hwf). destruct H as [Hem Hroom].
  destruct (wf_buf_Some w0 (em_wf _ _ _ Hem) ltac:(lia)) as [b Hb]. rewrite Hb.
  eexists. split; [reflexivity|].
  unfold ieee754_write. rewrite Nat2Z.id.
  set (xs := le_bytes n (ieee754_bits value mLen (Z.of_nat n))).
  assert (Hlen : length xs = n) by apply le_bytes_length.
  pose proof (store_bytes_in_place xs w0 b (em_wf _ _ _ Hem) Hb ltac:(lia)) as Hip.
  rewrite Hlen in Hip.
  assert (Hxs : to_uint8 <$> xs = xs).
  { clear Hip Hlen. pose proof (le_bytes_bytes n (ieee754_bits value mLen (Z.of_nat n)))
      as Hb'. fold xs in Hb'.
    induction Hb' as [|x l Hx _ IH]; [reflexivity|].
    rewrite fmap_cons, IH, to_uint8_small by assumption. reflexivity. }
  rewrite Hxs in Hip.
  apply (emitted_in_place _ [] w0); assumption.
Qed.

(** Every primitive write succeeds on a well-formed writer and appends
    [encode p], whatever the chunk boundaries. *)
Lemma write_emitted p w :
  wf w -> prim_ok p ->
  exists w', write p w = Ok w' /\ emitted w (encode p) w'.
Proof.
  intros Hwf Hok. destruct p; simpl write.
  - apply tag_emitted; assumption.
  - apply uint32_emitted; assumption.
  - apply uint32_emitted; assumption.
  - apply uint32_emitted; assumption.
  - unfold uint64. rewrite !shr_0.
    apply _writeLongVarint_emitted; auto using to_uint32_range.
  - unfold int64, uint64. rewrite !shr_0.
    apply _writeLongVarint_emitted; auto using to_uint32_range.
  - apply bool_emitted; assumption.
  - apply fixed32_emitted; assumption.
  - apply fixed32_emitted; assumption.
  - apply _writeLongFixed_emitted; assumption.
  - apply bytes_emitted; assumption.
  - apply string_emitted; assumption.
  - unfold uint64_number, encode.
    destruct (LongBits_number_range value) as [Hlo Hhi].
    exact (_writeLongVarint_emitted _ _ w Hwf Hlo Hhi).
  - unfold int64_number, uint64_number, encode.
    destruct (LongBits_number_range value) as [Hlo Hhi].
    exact (_writeLongVarint_emitted _ _ w Hwf Hlo Hhi).
  - unfold sint64, encode.
    destruct (zzEncode_range (LongBits_fromValue value)) as [Hlo Hhi].
    exact (_writeLongVarint_emitted _ _ w Hwf Hlo Hhi).
  - unfold fixed64_number, encode. exact (_writeLongFixed_emitted _ _ w Hwf).
  - unfold sfixed64, encode. exact (_writeLongFixed_emitted _ _ w Hwf).
  - exact (ieee754_emitted value 23 4 w Hwf ltac:(lia)).
  - exact (ieee754_emitted value 52 8 w Hwf ltac:(lia)).
Qed.

Lemma writes_emitted ps : forall w,
  wf w -> Forall prim_ok ps ->
  exists w', writes ps w = Ok w' /\ emitted w (concat (encode <$> ps)) w'.
Proof.
  induction ps as [|p ps IH]; intros w Hwf Hok; simpl.
  - exists w. split; [reflexivity|now apply emitted_refl].
  - inversion Hok as [|? ? Hp Hps]; subst.
    run (write_emitted p w Hwf Hp).
    destruct (IH w0 (em_wf _ _ _ H) Hps) as (w' & E & Hem).
    exists w'. split; [assumption|]. eapply emitted_trans; eassumption.
Qed.

Lemma varint_nonempty v : 0 <= v -> varint v <> [].
Proof.
  intros Hv. rewrite varint_unfold by assumption.
  destruct (v <? 128); discriminate.
Qed.

Lemma encode_nonempty p : encode p <> [].
Proof.
  pose proof to_uint32_range as Hr.
  assert (Hv32 : forall v, varint (to_uint32 v) <> [])
    by (intros v; apply varint_nonempty, Hr).
  assert (Hv64 : forall lo hi, varint (to_uint32 lo + 2 ^ 32 * to_uint32 hi) <> []).
  { intros lo hi. apply varint_nonempty.
    pose proof (Hr lo). pose proof (Hr hi). lia. }
  assert (Hbits : forall bits, 0 <= lo bits < 2 ^ 32 -> 0 <= hi bits < 2 ^ 32 ->
                    varint (lo bits + 2 ^ 32 * hi bits) <> [])
    by (intros bits Hlo Hhi; apply varint_nonempty; lia).
  destruct p;
    [simpl; auto; try discriminate ..
    |apply Hbits; apply LongBits_number_range
    |apply Hbits; apply LongBits_number_range
    |apply Hbits; apply zzEncode_range
    |discriminate|discriminate|discriminate|discriminate].
  - destruct (decide _); [discriminate|].
    intros H. apply app_eq_nil in H as [H _]. revert H. apply Hv32.
  - destruct (decide _); [discriminate|].
    intros H. apply app_eq_nil in H as [H _]. revert H. apply Hv32.
Qed.

Lemma concat_encode_nonempty ps : ps <> [] -> concat (encode <$> ps) <> [].
Proof.
  destruct ps as [|p ps]; [congruence|]. intros _. simpl.
  intros H. apply app_eq_nil in H as [H _]. revert H. apply encode_nonempty.
Qed.

(** A well-formed writer that holds bytes has a current chunk. *)
Lemma wf_content_buf w : wf w -> content w <> [] -> exists b, buf w = Some b.
Proof.
  intros [_ Hw] Hc. unfold content in Hc.
  destruct (buf w) as [b|]; [eauto|]. destruct Hw as [_ Hb].
  rewrite Hb in Hc. simpl in Hc. congruence.
Qed.

(** ** Strings: UTF-16 in, UTF-8 out *)

(** Decides the comparisons of a goal about one code point by arithmetic. *)
Ltac compare_all :=
  repeat match goal with
         | |- context [?a <? ?b] =>
             destruct (Z.ltb_spec a b); try (exfalso; Z.div_mod_to_equations; lia)
         | |- context [?a <=? ?b] =>
             destruct (Z.leb_spec a b); try (exfalso; Z.div_mod_to_equations; lia)
         end;
  cbn [andb orb negb].

Lemma utf8_decode_encode1 cp rest :
  scalar cp -> utf8_decode (utf8_encode1 cp ++ rest) = cons cp <$> utf8_decode rest.
Proof.
  intros Hcp. unfold scalar in Hcp. unfold utf8_encode1.
  destruct (Z.ltb_spec cp 128); [|destruct (Z.ltb_spec cp 2048);
                                   [|destruct (Z.ltb_spec cp 65536)]];
    cbn [app utf8_decode]; unfold continuation; compare_all;
    try reflexivity; do 2 f_equal; Z.div_mod_to_equations; lia.
Qed.

Lemma utf8_decode_encode cps :
  Forall scalar cps -> utf8_decode (utf8_encode cps) = Some cps.
Proof.
  induction 1 as [|cp cps Hcp _ IH]; [reflexivity|].
  change (utf8_encode (cp :: cps)) with (utf8_encode1 cp ++ utf8_encode cps).
  rewrite utf8_decode_encode1, IH by assumption. reflexivity.
Qed.

Lemma utf16_decode_scalar s : forall cps,
  utf16_decode s = Some cps -> Forall scalar cps.
Proof.
  induction s as [|c1 s IH1 IH2] using units_ind; intros cps; simpl.
  { intros [= <-]. constructor. }
  destruct (((0 <=? c1) && (c1 <? 55296)) || ((57344 <=? c1) && (c1 <? 65536))) eqn:Hbmp.
  { destruct (utf16_decode s) as [cps'|]; [|discriminate].
    intros [= <-]. constructor; [|now apply IH1].
    unfold scalar. lia. }
  destruct ((55296 <=? c1) && (c1 <? 56320)) eqn:Hhi; [|discriminate].
  destruct s as [|c2 s2]; [discriminate|].
  destruct ((56320 <=? c2) && (c2 <? 57344)) eqn:Hlo; [|discriminate].
  simpl in IH2. destruct (utf16_decode s2) as [cps'|]; [|discriminate].
  intros [= <-]. constructor; [|now apply IH2].
  unfold scalar. lia.
Qed.

Lemma concat_fmap_cons {A B} (f : A -> list B) (x : A) (l : list A) :
  concat (f <$> (x :: l)) = f x ++ concat (f <$> l).
Proof. reflexivity. Qed.

(** Re-encoding the code points gives the code units back. *)
Lemma utf16_decode_encode s : forall cps,
  utf16_decode s = Some cps -> concat (utf16_encode1 <$> cps) = s.
Proof.
  induction s as [|c1 s IH1 IH2] using units_ind; intros cps; simpl.
  { intros [= <-]. reflexivity. }
  destruct (((0 <=? c1) && (c1 <? 55296)) || ((57344 <=? c1) && (c1 <? 65536))) eqn:Hbmp.
  { destruct (utf16_decode s) as [cps'|]; [|discriminate].
    intros [= <-]. rewrite concat_fmap_cons, (IH1 cps') by reflexivity.
    unfold utf16_encode1. destruct (Z.ltb_spec c1 65536); [reflexivity|lia]. }
  destruct ((55296 <=? c1) && (c1 <? 56320)) eqn:Hhi; [|discriminate].
  destruct s as [|c2 s2]; [discriminate|].
  destruct ((56320 <=? c2) && (c2 <? 57344)) eqn:Hlo; [|discriminate].
  simpl in IH2. destruct (utf16_decode s2) as [cps'|]; [|discriminate].
  intros [= <-]. rewrite concat_fmap_cons, (IH2 cps') by reflexivity.
  unfold utf16_encode1.
  destruct (Z.ltb_spec (65536 + (c1 - 55296) * 1024 + (c2 - 56320)) 65536); [lia|].
  simpl. f_equal; [|f_equal]; Z.div_mod_to_equations; lia.
Qed.

(** [c & (m << k)] keeps the bits of [c >> k] that [m] has, in place. *)
Lemma land_shiftl_mask c m k :
  0 <= k -> Z.land c (Z.shiftl m k) = Z.shiftl (Z.land (Z.shiftr c k) m) k.
Proof.
  intros Hk. apply Z.bits_inj'. intros n Hn.
  rewrite Z.land_spec.
  destruct (Z.lt_ge_cases n k).
  - rewrite !Z.shiftl_spec_low by lia. apply andb_false_r.
  - rewrite !Z.shiftl_spec, Z.land_spec, Z.shiftr_spec by lia.
    do 2 f_equal. lia.
Qed.

(** The six high bits of a code unit, as [string] isolates them. *)
Lemma band_FC00 c : 0 <= c < 65536 -> band c 0xFC00 = c / 1024 * 1024.
Proof.
  intros Hc. unfold band. rewrite !to_int32_small by lia.
  change 0xFC00 with (Z.shiftl 63 10).
  rewrite land_shiftl_mask, Z.shiftr_div_pow2, Z.shiftl_mul_pow2 by lia.
  change 63 with (2 ^ 6 - 1). rewrite land_ones_mod by lia.
  change (2 ^ 10) with 1024. change (2 ^ 6) with 64.
  rewrite Z.mod_small; [reflexivity|].
  split; [apply Z.div_pos; lia|apply Z.div_lt_upper_bound; lia].
Qed.

Lemma high_surrogate_test c :
  0 <= c < 65536 ->
  (band c 0xFC00 =? 0xD800) = (0xD800 <=? c) && (c <? 0xDC00).
Proof.
  intros Hc. rewrite band_FC00 by assumption.
  destruct (Z.eqb_spec (c / 1024 * 1024) 55296), (Z.leb_spec 55296 c),
    (Z.ltb_spec c 56320); simpl; try reflexivity;
    exfalso; Z.div_mod_to_equations; lia.
Qed.

Lemma low_surrogate_test c :
  0 <= c < 65536 ->
  (band c 0xFC00 =? 0xDC00) = (0xDC00 <=? c) && (c <? 0xE000).
Proof.
  intros Hc. rewrite band_FC00 by assumption.
  destruct (Z.eqb_spec (c / 1024 * 1024) 56320), (Z.leb_spec 56320 c),
    (Z.ltb_spec c 57344); simpl; try reflexivity;
    exfalso; Z.div_mod_to_equations; lia.
Qed.

(** The bytes [string] stores, by arithmetic. *)
Lemma lead_byte x c k :
  0 <= k -> 0 <= x < 2 ^ k -> 0 <= c -> x + c * 2 ^ k < 256 ->
  to_uint8 (bor x (c * 2 ^ k)) = c * 2 ^ k + x.
Proof.
  intros. rewrite bor_disjoint by lia. rewrite to_uint8_small; lia.
Qed.

Lemma sar_small c k : 0 <= k -> 0 <= c < 2 ^ 31 -> sar c k = c / 2 ^ k.
Proof. intros. rewrite sar_div, to_int32_small by lia. reflexivity. Qed.

Lemma trail_byte x : to_uint8 (bor (band x 63) 128) = 128 + x mod 64.
Proof.
  change 63 with (2 ^ 6 - 1). rewrite band_mod by lia.
  change (2 ^ 6) with 64.
  pose proof (Z.mod_pos_bound x 64 ltac:(lia)).
  change 128 with (2 * 2 ^ 6) at 1. rewrite lead_byte; change (2 ^ 6) with 64; lia.
Qed.

Lemma string_bytes_1 c : 0 <= c < 128 -> to_uint8 c = c.
Proof. intros. apply to_uint8_small. lia. Qed.

Lemma string_bytes_2 c :
  128 <= c < 2048 -> to_uint8 (bor (sar c 6) 192) = 192 + c / 64.
Proof.
  intros. rewrite sar_small by lia. change (2 ^ 6) with 64.
  assert (0 <= c / 64 < 32)
    by (split; [apply Z.div_pos; lia|apply Z.div_lt_upper_bound; lia]).
  change 192 with (3 * 2 ^ 6) at 1. rewrite lead_byte; change (2 ^ 6) with 64; lia.
Qed.

Lemma string_bytes_3 c :
  2048 <= c < 65536 ->
  to_uint8 (bor (sar c 12) 224) = 224 + c / 4096
  /\ to_uint8 (bor (band (sar c 6) 63) 128) = 128 + (c / 64) mod 64.
Proof.
  intros. rewrite trail_byte, !sar_small by lia.
  change (2 ^ 6) with 64. change (2 ^ 12) with 4096. split; [|reflexivity].
  assert (0 <= c / 4096 < 16)
    by (split; [apply Z.div_pos; lia|apply Z.div_lt_upper_bound; lia]).
  change 224 with (7 * 2 ^ 5) at 1. rewrite lead_byte; change (2 ^ 5) with 32; lia.
Qed.

Lemma string_bytes_4 c :
  65536 <= c < 1114112 ->
  to_uint8 (bor (sar c 18) 240) = 240 + c / 262144
  /\ to_uint8 (bor (band (sar c 12) 63) 128) = 128 + (c / 4096) mod 64
  /\ to_uint8 (bor (band (sar c 6) 63) 128) = 128 + (c / 64) mod 64.
Proof.
  intros. rewrite !trail_byte, !sar_small by lia.
  change (2 ^ 6) with 64. change (2 ^ 12) with 4096. change (2 ^ 18) with 262144.
  split; [|split; reflexivity].
  assert (0 <= c / 262144 < 8)
    by (split; [apply Z.div_pos; lia|apply Z.div_lt_upper_bound; lia]).
  change 240 with (15 * 2 ^ 4) at 1. rewrite lead_byte; change (2 ^ 4) with 16; lia.
Qed.

(** The code point [string] joins a surrogate pair into. *)
Lemma joined_pair c1 c2 :
  0xD800 <= c1 < 0xDC00 -> 0xDC00 <= c2 < 0xE000 ->
  0x10000 + shl (band c1 0x03FF) 10 + band c2 0x03FF
  = 0x10000 + (c1 - 0xD800) * 0x400 + (c2 - 0xDC00).
Proof.
  intros H1 H2. change 0x03FF with (2 ^ 10 - 1). rewrite !band_mod by lia.
  change (2 ^ 10) with 1024.
  pose proof (Z.mod_pos_bound c1 1024 ltac:(lia)).
  unfold shl. rewrite (to_int32_small (c1 mod 1024)) by lia.
  rewrite Z.shiftl_mul_pow2 by lia. change (2 ^ 10) with 1024.
  rewrite to_int32_small by lia.
  Z.div_mod_to_equations. lia.
Qed.

(** On well-formed UTF-16 the bytes [string] stores are the UTF-8 encoding
    of the code points. *)
Lemma string_bytes_utf8 s : forall cps,
  utf16_decode s = Some cps -> string_bytes s = utf8_encode cps.
Proof.
  induction s as [|c1 s IH1 IH2] using units_ind; intros cps; simpl utf16_decode.
  { intros [= <-]. reflexivity. }
  destruct (((0 <=? c1) && (c1 <? 55296)) || ((57344 <=? c1) && (c1 <? 65536))) eqn:Hbmp.
  { destruct (utf16_decode s) as [cps'|] eqn:Hs; [|discriminate].
    intros [= <-].
    change (utf8_encode (c1 :: cps')) with (utf8_encode1 c1 ++ utf8_encode cps').
    rewrite <- (IH1 cps') by reflexivity.
    assert (Hc : 0 <= c1 < 65536) by lia.
    assert (Hnot : (band c1 0xFC00 =? 0xD800) = false).
    { rewrite high_surrogate_test by assumption. lia. }
    unfold utf8_encode1. simpl string_bytes.
    destruct (Z.ltb_spec c1 128).
    { rewrite string_bytes_1 by lia. reflexivity. }
    destruct (Z.ltb_spec c1 2048).
    { rewrite string_bytes_2, trail_byte by lia. reflexivity. }
    destruct (Z.ltb_spec c1 65536); [|lia].
    destruct (string_bytes_3 c1 ltac:(lia)) as [-> ->].
    rewrite trail_byte.
    destruct s as [|c2 s2]; [reflexivity|].
    change (band c1 64512) with (band c1 0xFC00). rewrite Hnot. reflexivity. }
  destruct ((55296 <=? c1) && (c1 <? 56320)) eqn:Hhi; [|discriminate].
  destruct s as [|c2 s2]; [discriminate|].
  destruct ((56320 <=? c2) && (c2 <? 57344)) eqn:Hlo; [|discriminate].
  simpl in IH2. destruct (utf16_decode s2) as [cps'|] eqn:Hs; [|discriminate].
  intros [= <-].
  change (utf8_encode (?c :: cps')) with (utf8_encode1 c ++ utf8_encode cps').
  rewrite <- (IH2 cps') by reflexivity.
  simpl string_bytes.
  destruct (Z.ltb_spec c1 128); [lia|]. destruct (Z.ltb_spec c1 2048); [lia|].
  change (band c1 64512) with (band c1 0xFC00).
  change (band c2 64512) with (band c2 0xFC00).
  rewrite high_surrogate_test, low_surrogate_test, Hhi, Hlo by lia.
  cbn [andb].
  change 1023 with 0x03FF. change 65536 with 0x10000.
  rewrite joined_pair by lia.
  set (cp := 0x10000 + (c1 - 0xD800) * 0x400 + (c2 - 0xDC00)).
  assert (Hcp : 65536 <= cp < 1114112) by (unfold cp; lia).
  destruct (string_bytes_4 cp Hcp) as (-> & -> & ->). rewrite trail_byte.
  unfold utf8_encode1.
  destruct (Z.ltb_spec cp 128); [lia|]. destruct (Z.ltb_spec cp 2048); [lia|].
  destruct (Z.ltb_spec cp 65536); [lia|]. reflexivity.
Qed.

(** ** The writer: fork, finish and the invariants *)

Lemma wf_new s : wf (new_Writer s).
Proof. unfold wf, new_Writer. simpl. repeat split; lia. Qed.

Lemma wf_fork w : wf (fork w).
Proof. unfold wf, fork. simpl. repeat split; lia. Qed.

(** [finish] on a writer that started empty and wrote [bs]. *)
Lemma finish_fresh w0 bs w :
  content w0 = [] -> emitted w0 bs w -> bs <> [] ->
  finish w = Ok (Some bs, reset w) /\ setup_done w = true.
Proof.
  intros H0 Hem Hne.
  pose proof (em_content _ _ _ Hem) as Hc. rewrite H0 in Hc. simpl in Hc.
  destruct (wf_content_buf w (em_wf _ _ _ Hem)) as [b Hb]; [congruence|].
  rewrite (finish_Ok w (em_wf _ _ _ Hem)), Hb, Hc. split; [reflexivity|].
  destruct (em_wf _ _ _ Hem) as [_ Hw]. rewrite Hb in Hw. tauto.
Qed.

Lemma reset_empty_stack w :
  _stack w = [] -> reset w = new_Writer (setup_done w).
Proof. intros H. unfold reset. rewrite H. reflexivity. Qed.

(** One primitive write on a new writer, then [finish]. *)
Lemma write_finish_new s p :
  prim_ok p ->
  (write p (new_Writer s) ≫= finish) = Ok (Some (encode p), new_Writer true).
Proof.
  intros Hok.
  destruct (write_emitted p (new_Writer s) (wf_new s) Hok) as (w & -> & Hem).
  rewrite bind_Ok.
  destruct (finish_fresh (new_Writer s) (encode p) w eq_refl Hem (encode_nonempty p))
    as [-> Hs].
  rewrite reset_empty_stack by apply Hem. now rewrite Hs.
Qed.

Lemma wf_setup_mono bf ps ln bfs st st' (s s' : bool) :
  (s = true -> s' = true) ->
  wf (mkWriter bf ps ln bfs st s) -> wf (mkWriter bf ps ln bfs st' s').
Proof.
  unfold wf. simpl. intros Hm [Hp Hw]. split; [assumption|].
  destruct bf; [|assumption]. intuition.
Qed.

Lemma wf_all_emitted w bs w' : wf_all w -> emitted w bs w' -> wf_all w'.
Proof.
  intros [_ Hst] Hem. split; [apply Hem|].
  rewrite (em_stack _ _ _ Hem).
  eapply Forall_impl; [exact Hst|]. intros st.
  apply wf_setup_mono, Hem.
Qed.

Lemma wf_all_fork w : wf_all w -> wf_all (fork w).
Proof.
  intros [Hw Hst]. split; [apply wf_fork|]. simpl.
  constructor; [|exact Hst].
  destruct w. eapply wf_setup_mono; [|exact Hw]. auto.
Qed.

Lemma wf_all_reset w : wf_all w -> wf_all (reset w).
Proof.
  intros [Hw Hst]. unfold reset.
  destruct (_stack w) as [|st stack'] eqn:Hs.
  - split; [|constructor]. unfold wf. simpl. repeat split; lia.
  - inversion Hst as [|? ? H1 H2]; subst. split; simpl.
    + eapply wf_setup_mono; [|exact H1]. auto.
    + exact H2.
Qed.

(** Every public operation keeps the invariant. *)
Lemma step_wf_all o w :
  wf_all w -> op_ok o -> exists w', step o w = Ok w' /\ wf_all w'.
Proof.
  intros Hw Hok. destruct o as [p| | |]; simpl.
  - destruct (write_emitted p w (proj1 Hw) Hok) as (w' & E & Hem).
    exists w'. split; [assumption|]. eapply wf_all_emitted; eassumption.
  - eexists. split; [reflexivity|]. now apply wf_all_fork.
  - eexists. split; [reflexivity|]. now apply wf_all_reset.
  - rewrite (finish_Ok w (proj1 Hw)), fmap_Ok. simpl.
    eexists. split; [reflexivity|]. now apply wf_all_reset.
Qed.

Lemma run_wf_all os : forall w,
  wf_all w -> Forall op_ok os -> exists w', run os w = Ok w' /\ wf_all w'.
Proof.
  induction os as [|o os IH]; intros w Hw Hok; simpl.
  - eauto.
  - inversion Hok as [|? ? Ho Hos]; subst.
    destruct (step_wf_all o w Hw Ho) as (w1 & -> & Hw1). rewrite bind_Ok.
    now apply IH.
Qed.

(** X13: the invariants of the data model after any sequence of public
    operations on a new writer, and what [finish] then returns: the sealed
    chunks in order followed by [buf[0..pos]] when the writer has a chunk,
    the module's [emptyArray] when it has none. *)
Lemma writer_invariants s os :
  Forall op_ok os ->
  exists w, run os (new_Writer s) = Ok w
    /\ 0 <= pos w <= len w
    /\ (buf w = None <-> len w = 0)
    /\ finish w = Ok (match buf w with
                      | Some b => Some (concat (bufs w) ++ take (Z.to_nat (pos w)) b)
                      | None => emptyArray w
                      end, reset w).
Proof.
  intros Hok.
  destruct (run_wf_all os (new_Writer s)) as (w & E & [Hw Hst]);
    [split; [apply wf_new|constructor]|assumption|].
  exists w. split; [assumption|]. split; [apply Hw|]. split.
  - destruct Hw as [_ Hb]. destruct (buf w); [|tauto].
    split; [discriminate|lia].
  - rewrite (finish_Ok w Hw). unfold content. destruct (buf w); reflexivity.
Qed.

(** CLAIM C2 (the code departs from it): before [Writer.setup] has run,
    [finish] on a new writer returns [null], the initial value of the module
    variable [emptyArray], where the claim has it return the (empty)
    concatenation of the chunks. *)
Theorem finish_before_setup :
  finish (new_Writer false) = Ok (None, new_Writer false)
  /\ finish (new_Writer true) = Ok (Some [], new_Writer true).
Proof. split; reflexivity. Qed.

(** CLAIM C1 as stated fails: after [fork(); finish()] the snapshot is
    already popped, and the [reset()] that follows clears a writer that held
    one byte. *)
Lemma fork_finish_reset_clears :
  match uint32 1 (new_Writer false) with
  | Ok w =>
      match fork_finish_reset [Uint32 2] w with
      | Ok (b, w') =>
          b = Some [2] /\ pos w = 1 /\ pos w' = 0 /\ State_of w' <> State_of w
      | _ => False
      end
  | _ => False
  end.
Proof.
  vm_compute. repeat split; try reflexivity. intros H. discriminate H.
Qed.

(** CLAIM C1 (amended): [fork(); writes; b = finish()] leaves the state
    [(bufs, buf, pos, len)] and the stack of the writer as they were before
    [fork()], and [b] is what a new writer returns from [finish()] after the
    same writes. *)
Theorem fork_finish_restores (w : Writer) (ps : list prim) :
  Forall prim_ok ps ->
  exists b w',
    fork_finish ps w = Ok (b, w')
    /\ State_of w' = State_of w
    /\ _stack w' = _stack w
    /\ exists wi, (writes ps (new_Writer (setup_done w)) ≫= finish) = Ok (b, wi).
Proof.
  intros Hok. unfold fork_finish.
  destruct (writes_emitted ps (fork w) (wf_fork w) Hok) as (w1 & E1 & Hem1).
  destruct (writes_emitted ps (new_Writer (setup_done w)) (wf_new _) Hok)
    as (w2 & E2 & Hem2).
  rewrite E1, E2, !bind_Ok.
  assert (Hreset : State_of (reset w1) = State_of w /\ _stack (reset w1) = _stack w).
  { unfold reset. rewrite (em_stack _ _ _ Hem1). simpl. split; reflexivity. }
  destruct ps as [|p ps].
  - simpl in E1, E2. injection E1 as <-. injection E2 as <-.
    exists (emptyArray (fork w)), (reset (fork w)).
    split; [apply finish_Ok, wf_fork|]. split; [apply Hreset|].
    split; [apply Hreset|]. eexists. apply finish_Ok, wf_new.
  - assert (Hne : concat (encode <$> p :: ps) <> [])
      by (apply concat_encode_nonempty; discriminate).
    destruct (finish_fresh (fork w) _ w1 eq_refl Hem1 Hne) as [F1 _].
    destruct (finish_fresh (new_Writer (setup_done w)) _ w2 eq_refl Hem2 Hne) as [F2 _].
    exists (Some (concat (encode <$> p :: ps))), (reset w1).
    split; [assumption|]. split; [apply Hreset|]. split; [apply Hreset|].
    eexists. eassumption.
Qed.

(** The protocol of the amended claim C1 on a writer that holds a byte,
    with a varint, a float and a zig-zag 64-bit number. *)
Lemma fork_finish_restores_witness :
  pos one_byte_writer = 1
  /\ exists b w',
       fork_finish [Uint32 150; Float (number_of 1); Sint64 (Number (-1))] one_byte_writer
       = Ok (b, w')
       /\ State_of w' = State_of one_byte_writer
       /\ _stack w' = _stack one_byte_writer
       /\ exists wi,
            (writes [Uint32 150; Float (number_of 1); Sint64 (Number (-1))]
                    (new_Writer (setup_done one_byte_writer)) ≫= finish) = Ok (b, wi).
Proof.
  split.
  - reflexivity.
  - apply (fork_finish_restores one_byte_writer
             [Uint32 150; Float (number_of 1); Sint64 (Number (-1))]).
    repeat constructor.
Defined.

(** The concrete scenarios of the specification, on a new writer. *)
Lemma scenarios s :
  (uint32 0 (new_Writer s) ≫= finish) = Ok (Some [0x00], new_Writer true)
  /\ (sint32 (-1) (new_Writer s) ≫= finish) = Ok (Some [0x01], new_Writer true)
  /\ (fixed32 1 (new_Writer s) ≫= finish)
     = Ok (Some [0x01; 0x00; 0x00; 0x00], new_Writer true)
  /\ (writes [Tag 1 2; Bytes [0xAA; 0xBB]] (new_Writer s) ≫= finish)
     = Ok (Some [0x0A; 0x02; 0xAA; 0xBB], new_Writer true).
Proof. destruct s; repeat split; vm_compute; reflexivity. Qed.

(** The tag byte of a small field id is the varint of
    [(id << 3) | wireType]. *)
Lemma tag_small_id id_ wireType :
  0 <= id_ < 16 -> 0 <= wireType < 8 ->
  encode (Tag id_ wireType) = varint (id_ * 8 + wireType).
Proof.
  intros Hid Hwt. unfold encode.
  rewrite varint_unfold by lia.
  destruct (Z.ltb_spec (id_ * 8 + wireType) 128); [|lia]. f_equal.
  assert (Hshl : shl id_ 3 = id_ * 8).
  { unfold shl. rewrite (to_int32_small id_), Z.shiftl_mul_pow2 by lia.
    change (2 ^ 3) with 8. apply to_int32_small. lia. }
  assert (Hwt7 : band wireType 7 = wireType).
  { change 7 with (2 ^ 3 - 1). rewrite band_mod by lia.
    apply Z.mod_small. change (2 ^ 3) with 8. lia. }
  assert (Hor : bor (shl id_ 3) (band wireType 7) = id_ * 8 + wireType).
  { rewrite Hshl, Hwt7. unfold bor. rewrite Z.lor_comm.
    change (Z.lor (to_int32 wireType) (to_int32 (id_ * 8)))
      with (bor wireType (id_ * 8)).
    change 8 with (2 ^ 3). rewrite bor_disjoint; change (2 ^ 3) with 8; lia. }
  rewrite Hor. change 255 with (2 ^ 8 - 1). rewrite band_mod by lia.
  change (2 ^ 8) with 256. rewrite Z.mod_small by lia.
  apply to_uint8_small. lia.
Qed.

(** Above 15 the one byte of [tag] is not the varint of
    [(id << 3) | wireType]: the continuation bit is set for 16, and 32 gives
    the tag of the field 0. *)
Lemma tag_large_id :
  encode (Tag 16 2) = [0x82] /\ varint (16 * 8 + 2) = [0x82; 0x01]
  /\ encode (Tag 32 2) = [0x02] /\ varint (32 * 8 + 2) = [0x82; 0x02].
Proof. repeat split; vm_compute; reflexivity. Qed.

(** CLAIM C3: for [0 <= v < 2 ^ 32], [uint32(v)] appends the base-128 varint
    of [v] (the 32-bit conversion leaves [v] as it is) to any well-formed
    writer, and on a new writer [finish()] then returns these bytes: every
    byte but the last has the continuation bit, the reference decoder reads
    [v] back, and [uint32(150)] gives [0x96, 0x01]. *)
Theorem uint32_varint (s : bool) (v : Z) :
  0 <= v < 2 ^ 32 ->
  to_uint32 v = v
  /\ (forall w, wf w ->
        exists w', uint32 v w = Ok w' /\ wf w' /\ content w' = content w ++ varint v)
  /\ (uint32 v (new_Writer s) ≫= finish) = Ok (Some (varint v), new_Writer true)
  /\ (exists init last, varint v = init ++ [last]
        /\ Forall (fun b => 128 <= b < 256) init /\ 0 <= last < 128)
  /\ varint_decode (varint v) = Some (v, [])
  /\ (uint32 150 (new_Writer s) ≫= finish) = Ok (Some [0x96; 0x01], new_Writer true).
Proof.
  intros Hv.
  split; [now apply to_uint32_small|].
  split.
  { intros w Hwf. destruct (uint32_emitted v w Hwf) as (w' & E & Hem).
    rewrite (to_uint32_small v Hv) in Hem.
    exists w'. split; [assumption|]. split; apply Hem. }
  split.
  { rewrite <- (to_uint32_small v Hv) at 2.
    apply (write_finish_new s (Uint32 v)). exact I. }
  split; [apply varint_shape; lia|].
  split.
  { rewrite <- (app_nil_r (varint v)). apply varint_decode_varint. lia. }
  destruct s; vm_compute; reflexivity.
Qed.

Lemma uint32_varint_witness :
  0 <= 300 < 2 ^ 32
  /\ (uint32 300 (new_Writer false) ≫= finish) = Ok (Some (varint 300), new_Writer true).
Proof.
  split; [lia|]. apply (uint32_varint false 300). lia.
Defined.

(** ** [string] *)

Lemma encode_Str s cps :
  utf16_decode s = Some cps ->
  Z.of_nat (length s) < 2 ^ 32 ->
  Z.of_nat (length (utf8_encode cps)) < 2 ^ 32 ->
  encode (Str s) = varint (Z.of_nat (length (utf8_encode cps))) ++ utf8_encode cps.
Proof.
  intros Hdec Hlen Hblen. unfold encode.
  rewrite to_uint32_small by lia.
  pose proof (string_bytes_utf8 s cps Hdec) as Hbytes.
  destruct (decide (Z.of_nat (length s) = 0)) as [H0|H0].
  - destruct s; [|simpl in H0; lia]. simpl in Hdec. injection Hdec as <-.
    reflexivity.
  - rewrite take_ge by lia.
    rewrite string_blen_length, Hbytes, Z.add_0_l, to_uint32_small by lia.
    reflexivity.
Qed.

(** CLAIM C5: for a string [s] of well-formed UTF-16 with the code points
    [cps], [string(s)] appends to any well-formed writer the varint of the
    UTF-8 byte length and then the UTF-8 encoding of [cps], and on a new
    writer [finish()] then returns these bytes; the reference decoder reads
    the code points back from the body and their UTF-16 encoding is [s]; a
    surrogate pair becomes one sequence of four bytes; the string of the one
    character U+20AC gives [0x03, 0xE2, 0x82, 0xAC]. *)
Theorem string_utf8 (s0 : bool) (s cps : list Z) :
  utf16_decode s = Some cps ->
  Z.of_nat (length s) < 2 ^ 32 ->
  Z.of_nat (length (utf8_encode cps)) < 2 ^ 32 ->
  (forall w, wf w ->
     exists w', string_ s w = Ok w' /\ wf w'
       /\ content w' = content w ++ varint (Z.of_nat (length (utf8_encode cps)))
                                 ++ utf8_encode cps)
  /\ (string_ s (new_Writer s0) ≫= finish)
     = Ok (Some (varint (Z.of_nat (length (utf8_encode cps))) ++ utf8_encode cps),
           new_Writer true)
  /\ utf8_decode (utf8_encode cps) = Some cps
  /\ concat (utf16_encode1 <$> cps) = s
  /\ (forall c1 c2, 0xD800 <= c1 < 0xDC00 -> 0xDC00 <= c2 < 0xE000 ->
        exists cp, utf16_decode [c1; c2] = Some [cp]
                   /\ string_bytes [c1; c2] = utf8_encode1 cp
                   /\ length (utf8_encode1 cp) = 4%nat)
  /\ (string_ [0x20AC] (new_Writer s0) ≫= finish)
     = Ok (Some [0x03; 0xE2; 0x82; 0xAC], new_Writer true).
Proof.
  intros Hdec Hlen Hblen.
  split.
  { intros w Hwf. destruct (string_emitted s w Hwf) as (w' & E & Hem).
    rewrite (encode_Str s cps Hdec Hlen Hblen) in Hem.
    exists w'. split; [assumption|]. split; apply Hem. }
  split.
  { rewrite <- (encode_Str s cps Hdec Hlen Hblen).
    apply (write_finish_new s0 (Str s)). exact I. }
  split; [apply utf8_decode_encode; eapply utf16_decode_scalar; eassumption|].
  split; [now apply utf16_decode_encode|].
  split.
  { intros c1 c2 H1 H2.
    exists (0x10000 + (c1 - 0xD800) * 0x400 + (c2 - 0xDC00)).
    assert (Hd : utf16_decode [c1; c2]
                 = Some [0x10000 + (c1 - 0xD800) * 0x400 + (c2 - 0xDC00)]).
    { simpl.
      destruct (Z.leb_spec 0 c1), (Z.ltb_spec c1 55296), (Z.leb_spec 57344 c1),
        (Z.ltb_spec c1 65536), (Z.leb_spec 55296 c1), (Z.ltb_spec c1 56320),
        (Z.leb_spec 56320 c2), (Z.ltb_spec c2 57344); simpl; try lia.
      reflexivity. }
    split; [assumption|]. split.
    - rewrite (string_bytes_utf8 _ _ Hd). unfold utf8_encode. simpl.
      apply app_nil_r.
    - unfold utf8_encode1.
      repeat match goal with
             | |- context [?a <? ?b] => destruct (Z.ltb_spec a b); try lia
             end.
      reflexivity. }
  destruct s0; vm_compute; reflexivity.
Qed.

Lemma string_utf8_witness :
  utf16_decode [0x48; 0xE9; 0x20AC; 0xD83D; 0xDE00]
    = Some [0x48; 0xE9; 0x20AC; 0x1F600]
  /\ (string_ [0x48; 0xE9; 0x20AC; 0xD83D; 0xDE00] (new_Writer false) ≫= finish)
     = Ok (Some (varint 10 ++ utf8_encode [0x48; 0xE9; 0x20AC; 0x1F600]),
           new_Writer true).
Proof.
  split; [reflexivity|].
  apply (string_utf8 false [0x48; 0xE9; 0x20AC; 0xD83D; 0xDE00]
           [0x48; 0xE9; 0x20AC; 0x1F600]).
  - reflexivity.
  - simpl. lia.
  - vm_compute. reflexivity.
Defined.

(** ** [Field.encode] of a packed repeated field *)

Lemma to_uint8_range v : 0 <= to_uint8 v < 256.
Proof. unfold to_uint8. apply Z.mod_pos_bound. lia. Qed.

Lemma Forall_byte_to_uint8 (l : list Z) :
  Forall (fun b => 0 <= b < 256) (to_uint8 <$> l).
Proof. apply Forall_fmap, Forall_true. intros v. apply to_uint8_range. Qed.

Lemma varint_bytes v : 0 <= v -> Forall (fun b => 0 <= b < 256) (varint v).
Proof.
  intros Hv. destruct (varint_shape v Hv) as (init & last & -> & Hi & Hl).
  apply Forall_app. split.
  - eapply Forall_impl; [exact Hi|]. simpl. intros; lia.
  - constructor; [lia|constructor].
Qed.

Lemma string_bytes_bytes s : Forall (fun b => 0 <= b < 256) (string_bytes s).
Proof.
  induction s as [|c1 s IH1 IH2] using units_ind; simpl; [constructor|].
  destruct (c1 <? 128); [constructor; auto using to_uint8_range|].
  destruct (c1 <? 2048); [repeat (constructor; auto using to_uint8_range)|].
  destruct s as [|c2 s2]; [repeat (constructor; auto using to_uint8_range)|].
  destruct ((band c1 64512 =? 55296) && (band c2 64512 =? 56320));
    repeat (constructor; auto using to_uint8_range).
Qed.

(** Whatever is written is a sequence of bytes. *)
Lemma encode_bytes p : Forall (fun b => 0 <= b < 256) (encode p).
Proof.
  pose proof to_uint32_range as Hr.
  assert (H64 : forall lo hi, 0 <= to_uint32 lo + 2 ^ 32 * to_uint32 hi).
  { intros lo hi. pose proof (Hr lo). pose proof (Hr hi). lia. }
  destruct p; cbn [encode].
  - constructor; [apply to_uint8_range|constructor].
  - apply varint_bytes, Hr.
  - apply varint_bytes, Hr.
  - apply varint_bytes, Hr.
  - apply varint_bytes, H64.
  - apply varint_bytes, H64.
  - destruct value; repeat constructor; lia.
  - apply (Forall_byte_to_uint8 [_; _; _; _]).
  - apply (Forall_byte_to_uint8 [_; _; _; _]).
  - apply (Forall_byte_to_uint8 [_; _; _; _; _; _; _; _]).
  - destruct (decide _); [repeat constructor; lia|].
    apply Forall_app. split; [apply varint_bytes, Hr|apply Forall_byte_to_uint8].
  - destruct (decide _); [repeat constructor; lia|].
    apply Forall_app. split; [apply varint_bytes, Hr|apply string_bytes_bytes].
  - apply varint_bytes. pose proof (LongBits_number_range value). simpl in *. lia.
  - apply varint_bytes. pose proof (LongBits_number_range value). simpl in *. lia.
  - apply varint_bytes. pose proof (zzEncode_range (LongBits_fromValue value)). lia.
  - apply (Forall_byte_to_uint8 [_; _; _; _; _; _; _; _]).
  - apply (Forall_byte_to_uint8 [_; _; _; _; _; _; _; _]).
  - apply le_bytes_bytes.
  - apply le_bytes_bytes.
Qed.

Lemma to_uint8_bytes (l : list Z) :
  Forall (fun b => 0 <= b < 256) l -> to_uint8 <$> l = l.
Proof.
  induction 1 as [|b l Hb _ IH]; [reflexivity|].
  rewrite fmap_cons, IH, to_uint8_small by assumption. reflexivity.
Qed.

Lemma reset_fork_emitted w bs w1 :
  emitted (fork w) bs w1 ->
  reset w1 = mkWriter (buf w) (pos w) (len w) (bufs w) (_stack w) (setup_done w1).
Proof.
  intros Hem. unfold reset. rewrite (em_stack _ _ _ Hem). reflexivity.
Qed.

Section Packed.

Variable encodeDelimited_ : ref -> jsval -> Writer -> result Writer.
Variable other_method : string -> jsval -> Writer -> result Writer.

Lemma write_elements_writes type_ vs ps w :
  Forall2 (fun v p => method type_ v = Some p) vs ps ->
  write_elements other_method type_ vs w = writes ps w.
Proof.
  intros H. revert w. induction H as [|v p vs ps Hm _ IH]; intros w; simpl.
  - reflexivity.
  - unfold call_writer. rewrite Hm.
    destruct (write p w) as [w'| |]; simpl; auto.
Qed.

(** X21: the packed branch of [encode_internal] on an array of values of
    the field's type and a well-formed writer: with elements, one tag byte,
    the varint of the length of the block, and the block of the bare element
    encodings; without elements nothing once [Writer.setup] has run, and
    [TypeError] from [buf.length] before. *)
Lemma encode_packed h this f vs ps w :
  field this = Some f -> repeated f = true -> packed this f = true ->
  is_Some (packableWireTypes (element_type h f)) ->
  Forall2 (fun v p => method (element_type h f) v = Some p) vs ps ->
  Forall prim_ok ps ->
  Z.of_nat (length (concat (encode <$> ps))) < 2 ^ 32 ->
  wf w ->
  match ps with
  | [] =>
      encode_internal encodeDelimited_ other_method h this (VArr vs) w
      = if setup_done w then Ok w else Throw TypeError
  | _ :: _ =>
      let block := concat (encode <$> ps) in
      exists w',
        encode_internal encodeDelimited_ other_method h this (VArr vs) w = Ok w'
        /\ emitted w (encode (Tag (id f) 2)
                        ++ varint (Z.of_nat (length block)) ++ block) w'
  end.
Proof.
  intros Hf Hrep Hpk Hpackable Hty Hok Hlen Hwf.
  unfold encode_internal. rewrite Hf, Hrep. cbn [elements]. rewrite bind_Ok, Hpk.
  rewrite (bool_decide_eq_true_2 _ Hpackable). cbn [andb].
  rewrite (write_elements_writes _ _ _ _ Hty).
  destruct ps as [|p ps].
  - simpl writes. rewrite bind_Ok, (finish_Ok _ (wf_fork w)), bind_Ok.
    simpl buf. unfold emptyArray. simpl setup_done.
    destruct w as [bf ps_ ln bfs st sd]. simpl.
    destruct sd; reflexivity.
  - set (block := concat (encode <$> p :: ps)) in *.
    destruct (writes_emitted (p :: ps) (fork w) (wf_fork w) Hok) as (w1 & -> & Hem1).
    fold block in Hem1.
    rewrite bind_Ok.
    assert (Hne : block <> []) by (apply concat_encode_nonempty; discriminate).
    destruct (finish_fresh (fork w) block w1 eq_refl Hem1 Hne) as [-> Hs1].
    rewrite bind_Ok, (reset_fork_emitted w _ w1 Hem1), Hs1.
    assert (Hl0 : length block <> 0%nat) by (destruct block; [congruence|discriminate]).
    rewrite (bool_decide_eq_false_2 _ Hl0). cbn [negb].
    set (w2 := mkWriter (buf w) (pos w) (len w) (bufs w) (_stack w) true).
    assert (Hwf2 : wf w2).
    { destruct w. eapply wf_setup_mono; [|exact Hwf]. auto. }
    run (tag_emitted (id f) 2 w2 Hwf2).
    destruct (bytes_emitted block w0 (em_wf _ _ _ H) Hlen) as (w' & -> & Hem').
    exists w'. split; [reflexivity|].
    assert (Hb : encode (Bytes block) = varint (Z.of_nat (length block)) ++ block).
    { unfold encode. rewrite to_uint32_small by lia.
      destruct (decide (Z.of_nat (length block) = 0)); [lia|].
      rewrite to_uint8_bytes; [reflexivity|].
      apply Forall_concat, Forall_fmap, Forall_true. intros q. apply encode_bytes. }
    rewrite <- Hb.
    pose proof (emitted_trans _ _ _ _ _ H Hem') as [W C S D].
    split; auto.
Qed.

End Packed.

(** CLAIM C4 (the code departs from it): with no element, and before
    [Writer.setup] has run, the encoder of a packed repeated field throws
    [TypeError] at [buf.length], [finish()] having returned the [null] of
    [emptyArray], where the claim has it emit nothing and return; once the
    setup has run it emits nothing, and with elements it emits the tag and
    the block. *)
Theorem encode_no_element_before_setup
    (encodeDelimited_ : ref -> jsval -> Writer -> result Writer)
    (other_method : string -> jsval -> Writer -> result Writer) :
  encode_internal encodeDelimited_ other_method [] packed_int32_field (VArr [])
                  (new_Writer false)
  = Throw TypeError
  /\ encode_internal encodeDelimited_ other_method [] packed_int32_field (VArr [])
                     (new_Writer true)
     = Ok (new_Writer true)
  /\ (encode_internal encodeDelimited_ other_method [] packed_int32_field
                      (VArr [VNum 1; VNum 2; VNum 150]) (new_Writer false)
        ≫= finish)
     = Ok (Some [0x1A; 0x04; 0x01; 0x02; 0x96; 0x01], new_Writer true).
Proof. repeat split; vm_compute; reflexivity. Qed.

(** ** [Field.fromJSON] *)

(** The entry [rule] of the JSON is never read: the constructor is given
    [json.role]. *)
Lemma fromJSON_rule_unread name_ r props :
  Field_fromJSON name_ (JObj (("rule"%string, r) :: props))
  = Field_fromJSON name_ (JObj props).
Proof. reflexivity. Qed.

(** CLAIM C9 (the code departs from it): [Field.fromJSON] reads [json.role],
    so a JSON body with [rule: "repeated"] gives a field whose rule is
    undefined and whose [repeated] flag is false; the same body under the key
    [role] gives the repeated field. *)
Theorem fromJSON_repeated_rule_lost :
  (field <$> Field_fromJSON "values" repeated_field_json)
  = Ok (Some (mkField None "int32" 1 None false true false false None None))
  /\ (field <$> Field_fromJSON "values"
                  (JObj [("id"%string, JNum 1); ("type"%string, JStr "int32");
                         ("role"%string, JStr "repeated")]))
     = Ok (Some (mkField (Some "repeated"%string) "int32" 1 None false true true false
                         None None)).
Proof. split; reflexivity. Qed.

(** ** [Namespace.remove] *)

Lemma lookup_set_nested (h : heap) r n o :
  h !! r = Some o ->
  set_nested r n h !! r
  = Some (mkObject (ctor o) (name o) (options o) (parent o) n (field o)).
Proof.
  intros H. unfold set_nested. rewrite H.
  apply list_lookup_insert_eq. eapply lookup_lt_Some. eassumption.
Qed.

Lemma nested_set_parent (h : heap) r p r' :
  nested <$> (set_parent r p h !! r') = nested <$> (h !! r').
Proof.
  unfold set_parent. destruct (h !! r) as [o|] eqn:H; [|reflexivity].
  destruct (decide (r = r')) as [<-|Hne].
  - rewrite list_lookup_insert_eq by (eapply lookup_lt_Some; eassumption).
    rewrite H. reflexivity.
  - rewrite list_lookup_insert_ne by assumption. reflexivity.
Qed.

(** What [remove] leaves in [this.nested]: the map is dropped when entries
    remain and kept, empty, when none does. *)
Lemma remove_nested (h : heap) this object_ t o m :
  h !! this = Some t -> h !! object_ = Some o ->
  parent o = Some this -> nested t = Some m ->
  exists h', remove this object_ h = Ok h'
    /\ nested <$> (h' !! this)
       = Some (match assoc_delete (name o) m with
               | [] => Some []
               | _ :: _ => None
               end).
Proof.
  intros Ht Ho Hp Hm. unfold remove, deref.
  rewrite Ho, bind_Ok, Hp, bool_decide_eq_true_2 by reflexivity. cbn [negb].
  rewrite Ht, bind_Ok, Hm.
  rewrite (lookup_set_nested h this _ t Ht), bind_Ok.
  eexists. split; [reflexivity|].
  unfold onRemove. rewrite nested_set_parent. unfold empty. simpl.
  destruct (assoc_delete (name o) m) as [|e rest].
  - simpl. rewrite (lookup_set_nested h this _ t Ht). reflexivity.
  - simpl.
    erewrite lookup_set_nested by (apply lookup_set_nested; eassumption).
    reflexivity.
Qed.

(** CLAIM C8 (the code departs from it): the getter [empty] is true when
    entries remain, so removing [a] from a namespace that holds [a] and [b]
    replaces the map by [undefined] and [b] is lost, and removing the only
    member leaves an empty map in place. *)
Theorem remove_drops_remaining_entries :
  (h ← remove 0 1 two_enums; nested <$> deref h 0) = Ok None
  /\ (h ← remove 0 1 two_enums; get h 0 "b") = Ok None
  /\ get two_enums 0 "b" = Ok (Some 2%nat)
  /\ (h ← remove 3 4 shadow_heap; nested <$> deref h 3) = Ok (Some []).
Proof. repeat split; reflexivity. Qed.

(** ** [Namespace.add] *)

(** [each] visits the first entry only when the callback returns a value,
    as [add] does: the other entries are never passed to it. *)
Lemma each_stops_at_first fn name_ o rest this (h : heap) :
  (forall r h', fn o name_ h = Ok (r, h') -> is_Some r) ->
  each_loop fn ((name_, o) :: rest) this h = fn o name_ h.
Proof.
  intros Hret. simpl. destruct (fn o name_ h) as [[r h']| |] eqn:E; try reflexivity.
  destruct (Hret r h' eq_refl) as [x ->]. reflexivity.
Qed.

(** CLAIM C6 (the code departs from it): [add] of a [Type] named like the
    plain namespace [n] moves only the first child of [n]: [each] stops at the
    first call of [add], which returns the type.  The second child [b] stays
    outside the type.  When the parent has another member, [remove] has
    dropped its map and the store of the type throws [TypeError]. *)
Theorem add_moves_first_child_only :
  (h ← add 3 0 4 reparent_heap; nested <$> deref h 4)
  = Ok (Some [("a"%string, 2%nat)])
  /\ (h ← add 3 0 4 reparent_heap; get h 4 "b") = Ok None
  /\ (h ← add 3 0 4 reparent_heap; parent <$> deref h 3) = Ok (Some 1%nat)
  /\ (h ← add 3 0 4 reparent_heap; get h 0 "n") = Ok (Some 4%nat)
  /\ add 3 0 4 reparent_heap_sibling = Throw TypeError.
Proof. repeat split; reflexivity. Qed.

(** ** [Namespace.addJSON] *)

Section AddJSON.

Variable Enum_fromJSON Type_fromJSON Service_fromJSON :
  string -> json -> heap -> result (ref * heap).

(** [addJSON] never returns from a JSON object that has an entry: the
    [throw] after the inner loop ends the first iteration. *)
Lemma addJSON_never_returns fuel this j h h' :
  truthy j = true -> entries j <> [] ->
  addJSON Enum_fromJSON Type_fromJSON Service_fromJSON fuel this j h <> Ok h'.
Proof.
  intros Ht He. destruct fuel as [|fuel]; [discriminate|].
  simpl. rewrite Ht.
  destruct (entries j) as [|[key nested_] keys]; [congruence|].
  match goal with
  | |- (?m ≫= _) <> _ => destruct m as [h1| |]; discriminate
  end.
Qed.

End AddJSON.

(** CLAIM C7 (the code departs from it): the entry [A: {}] is classified as a
    namespace, which is built and added, and [addJSON] then throws
    [TypeError] all the same, the [throw] being after the inner loop and not
    under "no classifier matched". *)
Theorem addJSON_throws_after_match
    (Enum_fromJSON Type_fromJSON Service_fromJSON :
       string -> json -> heap -> result (ref * heap)) :
  find (fun k => testJSON k (JObj [])) nestedTypes = Some KNamespace
  /\ addJSON Enum_fromJSON Type_fromJSON Service_fromJSON 2 0
             (JObj [("A"%string, JObj [])])
             [mk_namespace KNamespace "" None None]
     = Throw TypeError.
Proof. split; reflexivity. Qed.

(** ** [Namespace.lookup] *)

(** Called with [parentAlreadyChecked] set, as [lookup] calls itself on a
    nested object, [N.lookup] does not retry at the parent: it returns [null]
    although the parent resolves the path. *)
Lemma lookup_parent_already_checked :
  lookup 4 shadow_heap 1 ["a"; "b"]%string true = Ok None
  /\ lookup_string 4 shadow_heap 1 "a.b" true = Ok None
  /\ lookup 3 shadow_heap 0 ["a"; "b"]%string false = Ok (Some 4%nat)
  /\ lookup_string 3 shadow_heap 0 "a.b" false = Ok (Some 4%nat).
Proof. repeat split; reflexivity. Qed.




(** * Further properties of the writer *)

Lemma to_uint32_to_int32 z : to_uint32 (to_int32 z) = to_uint32 z.
Proof. unfold to_uint32. apply (to_int32_mod z 32). lia. Qed.

Lemma to_int32_idem z : to_int32 (to_int32 z) = to_int32 z.
Proof. apply to_int32_small, to_int32_range. Qed.

Lemma to_uint32_idem z : to_uint32 (to_uint32 z) = to_uint32 z.
Proof. apply to_uint32_small, to_uint32_range. Qed.

(** The argument [sint32] hands to [uint32], as a 32-bit natural number, is
    the zig-zag of the value. *)
Lemma zigzag_js v :
  - 2 ^ 31 <= v < 2 ^ 31 ->
  to_uint32 (bxor (shl v 1) (sar v 31)) = zigzag32 v.
Proof.
  intros Hv. unfold bxor, shl, sar, zigzag32.
  rewrite (to_int32_small v) by lia.
  rewrite to_int32_idem, Z.shiftl_mul_pow2, Z.shiftr_div_pow2 by lia.
  change (2 ^ 1) with 2.
  destruct (Z.ltb_spec v 0).
  - replace (v / 2 ^ 31) with (-1)
      by (apply Z.div_unique with (r := v + 2 ^ 31); lia).
    rewrite (to_int32_small (-1)) by lia.
    rewrite Z.lxor_m1_r, Z.lnot_eq_pred_opp.
    unfold to_uint32, to_int32. Z.div_mod_to_equations. lia.
  - rewrite Z.div_small by lia.
    rewrite (to_int32_small 0) by lia.
    rewrite Z.lxor_0_r, to_uint32_to_int32, to_uint32_small by lia. lia.
Qed.

Lemma unzigzag_zigzag32 v : unzigzag (zigzag32 v) = v.
Proof.
  unfold unzigzag, zigzag32. destruct (Z.ltb_spec v 0).
  - assert (E : Z.even (- 2 * v - 1) = false).
    { replace (- 2 * v - 1) with (1 + 2 * (- v - 1)) by lia.
      now rewrite Z.even_add_mul_2. }
    rewrite E. Z.div_mod_to_equations. lia.
  - assert (E : Z.even (2 * v) = true).
    { replace (2 * v) with (0 + 2 * v) by lia. now rewrite Z.even_add_mul_2. }
    rewrite E. Z.div_mod_to_equations. lia.
Qed.

(** A varint has at least one byte for every started group of seven bits. *)
Lemma varint_length_ge v k :
  0 <= k -> 2 ^ (7 * k) <= v -> k + 1 <= Z.of_nat (length (varint v)).
Proof.
  intros Hk Hle.
  assert (Hv : 0 <= v) by (pose proof (Z.pow_pos_nonneg 2 (7 * k)); lia).
  revert v Hv k Hk Hle.
  apply (groups_ind (fun v => forall k, 0 <= k -> 2 ^ (7 * k) <= v ->
                                k + 1 <= Z.of_nat (length (varint v))));
    intros v Hv.
  - intros k Hk Hle. rewrite varint_unfold by lia.
    destruct (Z.ltb_spec v 128); [|lia]. simpl.
    destruct (Z.eq_dec k 0) as [->|Hk0]; [lia|].
    assert (2 ^ 7 <= 2 ^ (7 * k)) by (apply Z.pow_le_mono_r; lia).
    change (2 ^ 7) with 128 in *. lia.
  - intros IH k Hk Hle. rewrite varint_unfold by lia.
    destruct (Z.ltb_spec v 128); [lia|]. simpl length.
    destruct (Z.eq_dec k 0) as [->|Hk0]; [lia|].
    assert (Hk1 : 2 ^ (7 * (k - 1)) <= v / 128).
    { apply Z.div_le_lower_bound; [lia|].
      replace (7 * k) with (7 + 7 * (k - 1)) in Hle by lia.
      rewrite Z.pow_add_r in Hle by lia. change (2 ^ 7) with 128 in Hle. lia. }
    specialize (IH (k - 1) ltac:(lia) Hk1). lia.
Qed.

(** A sequence of primitive writes on a new writer, then [finish]. *)
Lemma writes_finish_new s ps :
  ps <> [] -> Forall prim_ok ps ->
  (writes ps (new_Writer s) ≫= finish)
  = Ok (Some (concat (encode <$> ps)), new_Writer true).
Proof.
  intros Hne Hok.
  destruct (writes_emitted ps (new_Writer s) (wf_new s) Hok) as (w & -> & Hem).
  rewrite bind_Ok.
  destruct (finish_fresh (new_Writer s) _ w eq_refl Hem
              (concat_encode_nonempty ps Hne)) as [-> Hs].
  rewrite reset_empty_stack by (rewrite (em_stack _ _ _ Hem); reflexivity).
  now rewrite Hs.
Qed.

(** X1: chunk boundaries do not show in the output.  Any sequence of primitive writes on a new writer followed by [finish]
    returns the concatenation, in call order, of what each write alone
    returns from [finish] on a writer of its own, however the bytes were
    spread over the 256-byte chunks; the writer is empty again after it. *)
Theorem writes_finish_concat s ps :
  ps <> [] -> Forall prim_ok ps ->
  exists parts,
    Forall2 (fun p bs =>
               (write p (new_Writer s) ≫= finish) = Ok (Some bs, new_Writer true))
            ps parts
    /\ (writes ps (new_Writer s) ≫= finish) = Ok (Some (concat parts), new_Writer true).
Proof.
  intros Hne Hok. exists (encode <$> ps). split.
  - clear Hne. induction Hok as [|p ps Hp _ IH]; simpl; constructor.
    + now apply write_finish_new.
    + exact IH.
  - now apply writes_finish_new.
Qed.

Lemma writes_finish_concat_witness :
  exists parts,
    Forall2 (fun p bs =>
               (write p (new_Writer false) ≫= finish) = Ok (Some bs, new_Writer true))
            [Tag 1 2; Bytes [170; 187]; Uint32 300] parts
    /\ (writes [Tag 1 2; Bytes [170; 187]; Uint32 300] (new_Writer false) ≫= finish)
       = Ok (Some (concat parts), new_Writer true).
Proof.
  apply (writes_finish_concat false [Tag 1 2; Bytes [170; 187]; Uint32 300]).
  - discriminate.
  - repeat constructor; simpl; lia.
Defined.

(** X2: [sint32] writes the varint of the zig-zag of a signed 32-bit value:
    small magnitudes of either sign take few bytes, and the reference
    decoder followed by the inverse zig-zag gives the value back. *)
Theorem sint32_zigzag s v :
  - 2 ^ 31 <= v < 2 ^ 31 ->
  (sint32 v (new_Writer s) ≫= finish)
    = Ok (Some (varint (zigzag32 v)), new_Writer true)
  /\ (varint_decode (varint (zigzag32 v)) ≫= fun '(n, rest) =>
        if decide (rest = []) then Some (unzigzag n) else None) = Some v
  /\ Z.of_nat (length (varint (zigzag32 v))) <= 5
  /\ (- 64 <= v < 64 -> length (varint (zigzag32 v)) = 1%nat).
Proof.
  intros Hv.
  assert (Hz : 0 <= zigzag32 v < 2 ^ 32)
    by (unfold zigzag32; destruct (Z.ltb_spec v 0); lia).
  split; [|split; [|split]].
  - pose proof (write_finish_new s (Sint32 v) I) as H. simpl in H.
    now rewrite zigzag_js in H.
  - rewrite <- (app_nil_r (varint _)), varint_decode_varint by lia. simpl.
    now rewrite unzigzag_zigzag32.
  - apply (varint_length _ 4); simpl; lia.
  - intros Hs. rewrite varint_unfold by lia.
    assert (zigzag32 v < 128) by (unfold zigzag32; destruct (Z.ltb_spec v 0); lia).
    destruct (Z.ltb_spec (zigzag32 v) 128); [reflexivity|lia].
Qed.

Lemma sint32_zigzag_witness :
  (sint32 (-1) (new_Writer false) ≫= finish)
    = Ok (Some (varint (zigzag32 (-1))), new_Writer true)
  /\ (varint_decode (varint (zigzag32 (-1))) ≫= fun '(n, rest) =>
        if decide (rest = []) then Some (unzigzag n) else None) = Some (-1)
  /\ Z.of_nat (length (varint (zigzag32 (-1)))) <= 5
  /\ (- 64 <= -1 < 64 -> length (varint (zigzag32 (-1))) = 1%nat).
Proof. apply (sint32_zigzag false (-1)). lia. Defined.

(** X3: [int32] of a negative value does not sign-extend to 64 bits: it
    writes the five-byte varint of the value plus 2^32, from which a 32-bit
    reader gets the value back. *)
Theorem int32_negative_five_bytes s v :
  - 2 ^ 31 <= v < 0 ->
  (int32 v (new_Writer s) ≫= finish)
    = Ok (Some (varint (v + 2 ^ 32)), new_Writer true)
  /\ length (varint (v + 2 ^ 32)) = 5%nat
  /\ (varint_decode (varint (v + 2 ^ 32)) ≫= fun '(n, _) => Some (to_int32 n))
     = Some v.
Proof.
  intros Hv. split; [|split].
  - pose proof (write_finish_new s (Int32 v) I) as H. simpl in H.
    replace (to_uint32 v) with (v + 2 ^ 32) in H; [exact H|].
    unfold to_uint32. apply Z.mod_unique with (q := -1); lia.
  - pose proof (varint_length (v + 2 ^ 32) 4 ltac:(lia) ltac:(simpl; lia)).
    pose proof (varint_length_ge (v + 2 ^ 32) 4 ltac:(lia) ltac:(simpl; lia)).
    lia.
  - rewrite <- (app_nil_r (varint _)), varint_decode_varint by lia. simpl.
    f_equal. unfold to_int32.
    replace (v + 2 ^ 32 + 2 ^ 31) with (v + 2 ^ 31 + 1 * 2 ^ 32) by lia.
    rewrite Z.mod_add, Z.mod_small by lia. lia.
Qed.

Lemma int32_negative_five_bytes_witness :
  (int32 (-1) (new_Writer false) ≫= finish)
    = Ok (Some (varint (-1 + 2 ^ 32)), new_Writer true)
  /\ length (varint (-1 + 2 ^ 32)) = 5%nat
  /\ (varint_decode (varint (-1 + 2 ^ 32)) ≫= fun '(n, _) => Some (to_int32 n))
     = Some (-1).
Proof. apply (int32_negative_five_bytes false (-1)). lia. Defined.

(** X4: [uint64] (and [int64], the same function) of a [Long] object writes
    the varint of the 64-bit natural number whose halves are [low] and [high]
    read as unsigned: at most ten bytes, and the reference decoder reads the
    number back. *)
Theorem uint64_varint s low high :
  let v := to_uint32 low + 2 ^ 32 * to_uint32 high in
  (uint64 low high (new_Writer s) ≫= finish) = Ok (Some (varint v), new_Writer true)
  /\ (int64 low high (new_Writer s) ≫= finish) = Ok (Some (varint v), new_Writer true)
  /\ 0 <= v < 2 ^ 64
  /\ varint_decode (varint v) = Some (v, [])
  /\ Z.of_nat (length (varint v)) <= 10.
Proof.
  intros v.
  assert (Hv : 0 <= v < 2 ^ 64).
  { pose proof (to_uint32_range low). pose proof (to_uint32_range high).
    unfold v. lia. }
  split; [|split; [|split; [|split]]].
  - exact (write_finish_new s (Uint64 low high) I).
  - exact (write_finish_new s (Int64 low high) I).
  - exact Hv.
  - rewrite <- (app_nil_r (varint v)) at 1. apply varint_decode_varint. lia.
  - apply (varint_length v 9); simpl; lia.
Qed.

Lemma band_255 a : band a 255 = a mod 256.
Proof. apply (band_mod a 8). lia. Qed.

(** The four bytes stored for a 32-bit natural number, least significant
    first. *)
Lemma le32_bytes x :
  0 <= x < 2 ^ 32 ->
  to_uint8 <$> [band x 255; band (shr x 8) 255; band (shr x 16) 255; shr x 24]
  = [x mod 256; x / 2 ^ 8 mod 256; x / 2 ^ 16 mod 256; x / 2 ^ 24].
Proof.
  intros Hx. rewrite !band_255, !shr_div, to_uint32_small by lia.
  assert (0 <= x / 2 ^ 24 < 256) by (split; [apply Z.div_pos|apply Z.div_lt_upper_bound]; lia).
  simpl fmap. unfold to_uint8. rewrite !Z.mod_mod by lia.
  now rewrite (Z.mod_small (x / 2 ^ 24)) by lia.
Qed.

Lemma le32_value x :
  0 <= x < 2 ^ 32 ->
  little_endian [x mod 256; x / 2 ^ 8 mod 256; x / 2 ^ 16 mod 256; x / 2 ^ 24] = x
  /\ Forall (fun b => 0 <= b < 256)
            [x mod 256; x / 2 ^ 8 mod 256; x / 2 ^ 16 mod 256; x / 2 ^ 24].
Proof.
  intros Hx. split.
  - simpl. change (2 ^ 8) with 256. change (2 ^ 16) with 65536.
    change (2 ^ 24) with 16777216. Z.div_mod_to_equations. lia.
  - repeat constructor; try (apply Z.mod_pos_bound; lia);
      try (apply Z.div_pos; lia); apply Z.div_lt_upper_bound; lia.
Qed.

Lemma fixed32_bytes_value v :
  exists b0 b1 b2 b3, fixed32_bytes v = [b0; b1; b2; b3]
    /\ little_endian [b0; b1; b2; b3] = to_uint32 v
    /\ Forall (fun b => 0 <= b < 256) [b0; b1; b2; b3].
Proof.
  pose proof (to_uint32_range v) as Hr.
  unfold fixed32_bytes. rewrite shr_0.
  replace (band (shr (to_uint32 v) 24) 255) with (shr (to_uint32 v) 24).
  - rewrite le32_bytes by exact Hr. do 4 eexists. split; [reflexivity|].
    apply le32_value, Hr.
  - rewrite band_255, shr_div, to_uint32_idem by lia. symmetry.
    apply Z.mod_small. split; [apply Z.div_pos|apply Z.div_lt_upper_bound]; lia.
Qed.

(** X5: [fixed32] writes exactly four bytes, the 32-bit value (taken modulo
    2^32) least significant byte first. *)
Theorem fixed32_little_endian s v :
  exists b0 b1 b2 b3,
    (fixed32 v (new_Writer s) ≫= finish) = Ok (Some [b0; b1; b2; b3], new_Writer true)
    /\ little_endian [b0; b1; b2; b3] = v mod 2 ^ 32
    /\ Forall (fun b => 0 <= b < 256) [b0; b1; b2; b3].
Proof.
  destruct (fixed32_bytes_value v) as (b0 & b1 & b2 & b3 & E & Hv & Hb).
  exists b0, b1, b2, b3. split; [|split; assumption].
  rewrite <- E. exact (write_finish_new s (Fixed32 v) I).
Qed.

(** X6: [sfixed32] writes four bytes whose little-endian value is the
    zig-zag of the signed 32-bit argument, not its two's complement. *)
Theorem sfixed32_zigzag s v :
  - 2 ^ 31 <= v < 2 ^ 31 ->
  exists b0 b1 b2 b3,
    (sfixed32 v (new_Writer s) ≫= finish) = Ok (Some [b0; b1; b2; b3], new_Writer true)
    /\ unzigzag (little_endian [b0; b1; b2; b3]) = v
    /\ (v < 0 -> little_endian [b0; b1; b2; b3] <> v + 2 ^ 32).
Proof.
  intros Hr.
  destruct (fixed32_bytes_value (bxor (shl v 1) (sar v 31)))
    as (b0 & b1 & b2 & b3 & E & Hv & Hb).
  exists b0, b1, b2, b3. rewrite Hv, zigzag_js by exact Hr. split; [|split].
  - rewrite <- E. exact (write_finish_new s (Sfixed32 v) I).
  - apply unzigzag_zigzag32.
  - intros Hn. unfold zigzag32. destruct (Z.ltb_spec v 0); lia.
Qed.

Lemma sfixed32_zigzag_witness :
  exists b0 b1 b2 b3,
    (sfixed32 (-2) (new_Writer false) ≫= finish)
      = Ok (Some [b0; b1; b2; b3], new_Writer true)
    /\ unzigzag (little_endian [b0; b1; b2; b3]) = -2
    /\ (-2 < 0 -> little_endian [b0; b1; b2; b3] <> -2 + 2 ^ 32).
Proof. apply (sfixed32_zigzag false (-2)). lia. Defined.

(** X7: [fixed64] of a [Long] object writes exactly eight bytes, the 64-bit
    number whose halves are [low] and [high] read as unsigned, least
    significant byte first. *)
Theorem fixed64_little_endian s low high :
  exists bs,
    (fixed64 low high (new_Writer s) ≫= finish) = Ok (Some bs, new_Writer true)
    /\ length bs = 8%nat
    /\ little_endian bs = low mod 2 ^ 32 + 2 ^ 32 * (high mod 2 ^ 32)
    /\ Forall (fun b => 0 <= b < 256) bs.
Proof.
  pose proof (to_uint32_range low) as Hl. pose proof (to_uint32_range high) as Hh.
  exists (fixed64_bytes (shr low 0) (shr high 0)).
  split; [exact (write_finish_new s (Fixed64 low high) I)|].
  unfold fixed64_bytes. rewrite !shr_0.
  change (to_uint8 <$> [?a; ?b; ?c; ?d; ?e; ?f; ?g; ?h])
    with ((to_uint8 <$> [a; b; c; d]) ++ (to_uint8 <$> [e; f; g; h])).
  rewrite !le32_bytes by assumption.
  destruct (le32_value _ Hl) as [Vl Bl]. destruct (le32_value _ Hh) as [Vh Bh].
  split; [reflexivity|]. split.
  - fold (to_uint32 low) (to_uint32 high). rewrite <- Vl at 5. rewrite <- Vh at 5.
    simpl. lia.
  - apply Forall_app. split; assumption.
Qed.

(** X8: [bytes] is length-delimited: for an array of fewer than 2^32 numbers
    it writes the varint of the element count and then every element reduced
    to a byte; the empty array gives the single byte 0. *)
Theorem bytes_length_delimited s value :
  Z.of_nat (length value) < 2 ^ 32 ->
  exists out,
    (bytes_ value (new_Writer s) ≫= finish) = Ok (Some out, new_Writer true)
    /\ varint_decode out
       = Some (Z.of_nat (length value), (fun b => b mod 256) <$> value)
    /\ (value = [] -> out = [0]).
Proof.
  intros Hlen. exists (encode (Bytes value)).
  split; [exact (write_finish_new s (Bytes value) Hlen)|].
  unfold encode. rewrite to_uint32_small by lia.
  destruct (decide (Z.of_nat (length value) = 0)) as [H0|H0].
  - destruct value; [|simpl in H0; lia]. split; reflexivity.
  - split.
    + rewrite varint_decode_varint by lia. reflexivity.
    + intros ->. simpl in H0. lia.
Qed.

Lemma bytes_length_delimited_witness :
  exists out,
    (bytes_ [1; 300; -1] (new_Writer false) ≫= finish) = Ok (Some out, new_Writer true)
    /\ varint_decode out = Some (3, [1; 44; 255])
    /\ ([1; 300; -1] = [] -> out = [0]).
Proof. apply (bytes_length_delimited false [1; 300; -1]). simpl. lia. Defined.

(** X9: [fork(); writes; reset()] abandons the sub-stream: whatever was
    written since the fork, by any of the write methods, is dropped and the
    writer is back in the state, and with the snapshot stack, it had before
    the fork. *)
Theorem fork_reset_discards w ps :
  Forall prim_ok ps ->
  exists w1, writes ps (fork w) = Ok w1
    /\ State_of (reset w1) = State_of w
    /\ _stack (reset w1) = _stack w
    /\ content (reset w1) = content w.
Proof.
  intros Hok.
  destruct (writes_emitted ps (fork w) (wf_fork w) Hok) as (w1 & E & Hem).
  exists w1. split; [exact E|].
  rewrite (reset_fork_emitted w _ w1 Hem). repeat split.
Qed.

Lemma fork_reset_discards_witness :
  content one_byte_writer = [1]
  /\ exists w1,
       writes [Uint32 300; Double (number_of 2); Sfixed64 (Long 1 0)]
              (fork one_byte_writer) = Ok w1
       /\ State_of (reset w1) = State_of one_byte_writer
       /\ _stack (reset w1) = _stack one_byte_writer
       /\ content (reset w1) = content one_byte_writer.
Proof.
  split; [reflexivity|].
  apply (fork_reset_discards one_byte_writer
           [Uint32 300; Double (number_of 2); Sfixed64 (Long 1 0)]).
  repeat constructor.
Defined.

(** X10: forks nest.  Inside a forked sub-stream that holds the writes
    [psA], a second [fork(); psB; finish()] returns exactly what [psB] gives
    on a writer of its own, and the [finish()] after it returns what [psA]
    gives on a writer of its own and puts the writer back in the state
    before the first fork. *)
Theorem nested_fork_finish s w psA psB :
  Forall prim_ok psA -> Forall prim_ok psB -> psA <> [] -> psB <> [] ->
  exists bA bB w1 w2 w3,
    (writes psA (new_Writer s) ≫= finish) = Ok (Some bA, new_Writer true)
    /\ (writes psB (new_Writer s) ≫= finish) = Ok (Some bB, new_Writer true)
    /\ writes psA (fork w) = Ok w1
    /\ fork_finish psB w1 = Ok (Some bB, w2)
    /\ finish w2 = Ok (Some bA, w3)
    /\ State_of w3 = State_of w /\ _stack w3 = _stack w.
Proof.
  intros HA HB HAne HBne.
  exists (concat (encode <$> psA)), (concat (encode <$> psB)).
  destruct (writes_emitted psA (fork w) (wf_fork w) HA) as (w1 & E1 & Hem1).
  destruct (writes_emitted psB (fork w1) (wf_fork w1) HB) as (wB & EB & HemB).
  destruct (finish_fresh (fork w1) _ wB eq_refl HemB
              (concat_encode_nonempty psB HBne)) as [FB SB].
  set (w2 := mkWriter (buf w1) (pos w1) (len w1) (bufs w1) (_stack w1) true).
  assert (Hem2 : emitted (fork w) (concat (encode <$> psA)) w2).
  { destruct Hem1 as [W1 C1 S1 D1]. split; auto.
    revert W1. destruct w1. apply wf_setup_mono. reflexivity. }
  destruct (finish_fresh (fork w) _ w2 eq_refl Hem2
              (concat_encode_nonempty psA HAne)) as [F2 _].
  exists w1, w2, (reset w2). repeat split.
  - now apply writes_finish_new.
  - now apply writes_finish_new.
  - exact E1.
  - unfold fork_finish. rewrite EB, bind_Ok, FB.
    rewrite (reset_fork_emitted w1 _ wB HemB), SB. reflexivity.
  - exact F2.
  - rewrite (reset_fork_emitted w _ w2 Hem2). reflexivity.
  - rewrite (reset_fork_emitted w _ w2 Hem2). reflexivity.
Qed.

Lemma nested_fork_finish_witness :
  exists bA bB w1 w2 w3,
    (writes [Uint32 300] (new_Writer false) ≫= finish) = Ok (Some bA, new_Writer true)
    /\ (writes [Bool true] (new_Writer false) ≫= finish) = Ok (Some bB, new_Writer true)
    /\ writes [Uint32 300] (fork (new_Writer true)) = Ok w1
    /\ fork_finish [Bool true] w1 = Ok (Some bB, w2)
    /\ finish w2 = Ok (Some bA, w3)
    /\ State_of w3 = State_of (new_Writer true)
    /\ _stack w3 = _stack (new_Writer true).
Proof.
  apply (nested_fork_finish false (new_Writer true) [Uint32 300] [Bool true]);
    try (repeat constructor); discriminate.
Defined.

(** ** Strings that are not well-formed UTF-16 *)

(** The three bytes [string] stores for a surrogate that is not part of a
    pair are no UTF-8. *)
Lemma surrogate_bytes_invalid c rest :
  0xD800 <= c < 0xE000 ->
  utf8_decode (to_uint8 (bor (sar c 12) 224) :: to_uint8 (bor (band (sar c 6) 63) 128)
                 :: to_uint8 (bor (band c 63) 128) :: rest) = None.
Proof.
  intros Hc. destruct (string_bytes_3 c ltac:(lia)) as [-> ->]. rewrite trail_byte.
  cbn [utf8_decode]. unfold continuation. compare_all; reflexivity.
Qed.

(** A code unit of the basic plane that is no surrogate is stored as the
    UTF-8 of its code point. *)
Lemma string_bytes_bmp c1 s :
  0 <= c1 < 0xD800 \/ 0xE000 <= c1 < 0x10000 ->
  string_bytes (c1 :: s) = utf8_encode1 c1 ++ string_bytes s.
Proof.
  intros Hc.
  assert (Hnot : (band c1 0xFC00 =? 0xD800) = false).
  { rewrite high_surrogate_test by lia. lia. }
  unfold utf8_encode1. simpl string_bytes.
  destruct (Z.ltb_spec c1 128).
  { rewrite string_bytes_1 by lia. reflexivity. }
  destruct (Z.ltb_spec c1 2048).
  { rewrite string_bytes_2, trail_byte by lia. reflexivity. }
  destruct (Z.ltb_spec c1 65536); [|lia].
  destruct (string_bytes_3 c1 ltac:(lia)) as [-> ->].
  rewrite trail_byte.
  destruct s as [|c2 s2]; [reflexivity|].
  change (band c1 64512) with (band c1 0xFC00). rewrite Hnot. reflexivity.
Qed.

(** A surrogate pair is stored as the UTF-8 of the code point it stands
    for. *)
Lemma string_bytes_pair c1 c2 s :
  0xD800 <= c1 < 0xDC00 -> 0xDC00 <= c2 < 0xE000 ->
  string_bytes (c1 :: c2 :: s)
  = utf8_encode1 (0x10000 + (c1 - 0xD800) * 0x400 + (c2 - 0xDC00)) ++ string_bytes s.
Proof.
  intros H1 H2. simpl string_bytes.
  destruct (Z.ltb_spec c1 128); [lia|]. destruct (Z.ltb_spec c1 2048); [lia|].
  change (band c1 64512) with (band c1 0xFC00).
  change (band c2 64512) with (band c2 0xFC00).
  rewrite high_surrogate_test, low_surrogate_test by lia.
  destruct (Z.leb_spec 0xD800 c1), (Z.ltb_spec c1 0xDC00), (Z.leb_spec 0xDC00 c2),
    (Z.ltb_spec c2 0xE000); try lia.
  cbn [andb].
  change 1023 with 0x03FF. change 65536 with 0x10000.
  rewrite joined_pair by lia.
  set (cp := 0x10000 + (c1 - 0xD800) * 0x400 + (c2 - 0xDC00)).
  assert (Hcp : 65536 <= cp < 1114112) by (unfold cp; lia).
  destruct (string_bytes_4 cp Hcp) as (-> & -> & ->). rewrite trail_byte.
  unfold utf8_encode1.
  destruct (Z.ltb_spec cp 128); [lia|]. destruct (Z.ltb_spec cp 2048); [lia|].
  destruct (Z.ltb_spec cp 65536); [lia|]. reflexivity.
Qed.

(** A surrogate that is not the first half of a pair is stored on its own,
    as three bytes. *)
Lemma string_bytes_lone c1 s :
  0xD800 <= c1 < 0xE000 ->
  match s with
  | c2 :: _ => ~ (c1 < 0xDC00 /\ 0xDC00 <= c2 < 0xE000) /\ 0 <= c2 < 0x10000
  | [] => True
  end ->
  string_bytes (c1 :: s)
  = to_uint8 (bor (sar c1 12) 224) :: to_uint8 (bor (band (sar c1 6) 63) 128)
      :: to_uint8 (bor (band c1 63) 128) :: string_bytes s.
Proof.
  intros H1 H2. simpl string_bytes.
  destruct (Z.ltb_spec c1 128); [lia|]. destruct (Z.ltb_spec c1 2048); [lia|].
  destruct s as [|c2 s2]; [reflexivity|].
  change (band c1 64512) with (band c1 0xFC00).
  change (band c2 64512) with (band c2 0xFC00).
  rewrite high_surrogate_test, low_surrogate_test by lia.
  destruct (Z.leb_spec 0xD800 c1), (Z.ltb_spec c1 0xDC00), (Z.leb_spec 0xDC00 c2),
    (Z.ltb_spec c2 0xE000); cbn [andb]; try reflexivity; lia.
Qed.

(** The bytes stored for ill-formed UTF-16 are ill-formed UTF-8. *)
Lemma string_bytes_ill_formed s :
  Forall (fun c => 0 <= c < 0x10000) s ->
  utf16_decode s = None -> utf8_decode (string_bytes s) = None.
Proof.
  induction s as [|c1 s IH1 IH2] using units_ind; intros Hall; [discriminate|].
  inversion Hall as [|? ? Hc1 Hs]; subst. simpl utf16_decode.
  destruct (((0 <=? c1) && (c1 <? 55296)) || ((57344 <=? c1) && (c1 <? 65536))) eqn:Hbmp.
  { assert (Hb : 0 <= c1 < 0xD800 \/ 0xE000 <= c1 < 0x10000) by lia.
    destruct (utf16_decode s) as [cps'|] eqn:Hd; [discriminate|]. intros _.
    rewrite string_bytes_bmp, utf8_decode_encode1 by (exact Hb || (unfold scalar; lia)).
    rewrite IH1 by auto. reflexivity. }
  assert (Hsur : 0xD800 <= c1 < 0xE000) by lia.
  destruct s as [|c2 s2].
  { intros _. rewrite string_bytes_lone by (exact Hsur || exact I).
    now apply surrogate_bytes_invalid. }
  inversion Hs as [|? ? Hc2 Hs2]; subst.
  destruct ((55296 <=? c1) && (c1 <? 56320)) eqn:Hhi;
    [destruct ((56320 <=? c2) && (c2 <? 57344)) eqn:Hlo|].
  - destruct (utf16_decode s2) as [cps'|] eqn:Hd; [discriminate|]. intros _.
    rewrite string_bytes_pair, utf8_decode_encode1 by (unfold scalar; lia).
    simpl in IH2. rewrite IH2 by auto. reflexivity.
  - intros _. rewrite string_bytes_lone by (exact Hsur || lia).
    now apply surrogate_bytes_invalid.
  - intros _. rewrite string_bytes_lone by (exact Hsur || lia).
    now apply surrogate_bytes_invalid.
Qed.

Lemma string_bytes_bounds s :
  Z.of_nat (length s) <= Z.of_nat (length (string_bytes s)) <= 3 * Z.of_nat (length s).
Proof.
  induction s as [|c1 s IH1 IH2] using units_ind; [simpl; lia|].
  simpl string_bytes.
  destruct (c1 <? 128); [simpl length; lia|].
  destruct (c1 <? 2048); [simpl length; lia|].
  destruct s as [|c2 s2]; [simpl length; lia|].
  destruct ((band c1 64512 =? 55296) && (band c2 64512 =? 56320));
    simpl length in *; lia.
Qed.

(** What [string] appends: the varint of the byte length of the body, as a
    32-bit number, then the body. *)
Lemma encode_Str_body s :
  Z.of_nat (length s) < 2 ^ 32 ->
  encode (Str s)
  = varint (to_uint32 (Z.of_nat (length (string_bytes s)))) ++ string_bytes s.
Proof.
  intros Hlen. unfold encode. rewrite to_uint32_small by lia.
  destruct (decide (Z.of_nat (length s) = 0)) as [H0|H0].
  - destruct s; [reflexivity|simpl in H0; lia].
  - rewrite take_ge by lia. now rewrite string_blen_length, Z.add_0_l.
Qed.

(** X11: [string] does not validate its input: for a string of fewer than
    2^32 code units that is not well-formed UTF-16 (a surrogate without its
    partner) it still returns, and the bytes after the length prefix are not
    UTF-8, every unpaired surrogate being stored as a three-byte sequence of
    its own; the lone surrogate U+D800 gives [0x03, 0xED, 0xA0, 0x80]. *)
Theorem string_unpaired_surrogate s0 s :
  Forall (fun c => 0 <= c < 0x10000) s ->
  Z.of_nat (length s) < 2 ^ 32 ->
  utf16_decode s = None ->
  (exists len_ body,
     (string_ s (new_Writer s0) ≫= finish)
       = Ok (Some (varint len_ ++ body), new_Writer true)
     /\ len_ = Z.of_nat (length body) mod 2 ^ 32
     /\ utf8_decode body = None)
  /\ (string_ [0xD800] (new_Writer s0) ≫= finish)
     = Ok (Some [0x03; 0xED; 0xA0; 0x80], new_Writer true).
Proof.
  intros Hall Hlen Hdec. split.
  - exists (to_uint32 (Z.of_nat (length (string_bytes s)))), (string_bytes s).
    split; [|split].
    + rewrite <- encode_Str_body by exact Hlen.
      exact (write_finish_new s0 (Str s) I).
    + reflexivity.
    + now apply string_bytes_ill_formed.
  - destruct s0; vm_compute; reflexivity.
Qed.

Lemma string_unpaired_surrogate_witness :
  (exists len_ body,
     (string_ [0x61; 0xDC00; 0x62] (new_Writer false) ≫= finish)
       = Ok (Some (varint len_ ++ body), new_Writer true)
     /\ len_ = Z.of_nat (length body) mod 2 ^ 32
     /\ utf8_decode body = None)
  /\ (string_ [0xD800] (new_Writer false) ≫= finish)
     = Ok (Some [0x03; 0xED; 0xA0; 0x80], new_Writer true).
Proof.
  apply (string_unpaired_surrogate false [0x61; 0xDC00; 0x62]).
  - repeat constructor; lia.
  - simpl. lia.
  - reflexivity.
Defined.

(** X12: [string] is length-delimited for every string, well-formed or not:
    the varint it writes first is the exact number of bytes that follow,
    which is between one and three times the number of code units. *)
Theorem string_length_prefix s0 s :
  3 * Z.of_nat (length s) < 2 ^ 32 ->
  exists out body,
    (string_ s (new_Writer s0) ≫= finish) = Ok (Some out, new_Writer true)
    /\ varint_decode out = Some (Z.of_nat (length body), body)
    /\ Z.of_nat (length s) <= Z.of_nat (length body) <= 3 * Z.of_nat (length s).
Proof.
  intros Hlen. pose proof (string_bytes_bounds s) as Hb.
  exists (encode (Str s)), (string_bytes s). split; [|split].
  - exact (write_finish_new s0 (Str s) I).
  - rewrite encode_Str_body, to_uint32_small by lia.
    apply varint_decode_varint. lia.
  - exact Hb.
Qed.

Lemma string_length_prefix_witness :
  exists out body,
    (string_ [0x48; 0xDC00; 0x20AC] (new_Writer false) ≫= finish)
      = Ok (Some out, new_Writer true)
    /\ varint_decode out = Some (Z.of_nat (length body), body)
    /\ 3 <= Z.of_nat (length body) <= 9.
Proof. apply (string_length_prefix false [0x48; 0xDC00; 0x20AC]). simpl. lia. Defined.

Lemma writer_invariants_witness :
  exists w,
    run [Write (Uint32 300); Fork; Write (Str [0x20AC]); Finish; Write (Bool true); Reset]
        (new_Writer false) = Ok w
    /\ 0 <= pos w <= len w
    /\ (buf w = None <-> len w = 0)
    /\ finish w = Ok (match buf w with
                      | Some b => Some (concat (bufs w) ++ take (Z.to_nat (pos w)) b)
                      | None => emptyArray w
                      end, reset w).
Proof.
  apply (writer_invariants false
           [Write (Uint32 300); Fork; Write (Str [0x20AC]); Finish; Write (Bool true);
            Reset]).
  repeat constructor.
Defined.

(** X14: [tag] always writes exactly one byte, the low eight bits of
    [(id << 3) | (wireType & 7)]: it is the protobuf key of the field only
    for ids below 16, and two ids that differ by 32 get the same byte. *)
Theorem tag_single_byte s id_ wireType :
  0 <= id_ < 2 ^ 28 ->
  (tag id_ wireType (new_Writer s) ≫= finish)
    = Ok (Some [(8 * id_ + wireType mod 8) mod 256], new_Writer true)
  /\ (0 <= wireType < 8 ->
      (id_ < 16 <-> [(8 * id_ + wireType mod 8) mod 256] = varint (8 * id_ + wireType)))
  /\ (id_ + 32 < 2 ^ 28 ->
      (tag (id_ + 32) wireType (new_Writer s) ≫= finish)
      = (tag id_ wireType (new_Writer s) ≫= finish)).
Proof.
  assert (Hbyte : forall i, 0 <= i < 2 ^ 28 ->
            encode (Tag i wireType) = [(8 * i + wireType mod 8) mod 256]).
  { intros i Hi. unfold encode. f_equal.
    pose proof (Z.mod_pos_bound wireType 8 ltac:(lia)) as Hw.
    assert (Hshl : shl i 3 = i * 2 ^ 3).
    { unfold shl. rewrite (to_int32_small i), Z.shiftl_mul_pow2 by lia.
      apply to_int32_small. lia. }
    change 7 with (2 ^ 3 - 1). rewrite band_mod, Hshl by lia.
    unfold bor at 1. rewrite Z.lor_comm.
    change (Z.lor (to_int32 ?a) (to_int32 ?b)) with (bor a b).
    rewrite bor_disjoint by (change (2 ^ 3) with 8 in *; lia).
    change 255 with (2 ^ 8 - 1). rewrite band_mod by lia.
    change (2 ^ 3) with 8. change (2 ^ 8) with 256.
    unfold to_uint8. rewrite Z.mod_mod by lia. f_equal. lia. }
  intros Hid. split; [|split].
  - rewrite <- Hbyte by exact Hid. exact (write_finish_new s (Tag id_ wireType) I).
  - intros Hwt. rewrite (Z.mod_small wireType 8) by lia.
    rewrite (varint_unfold (8 * id_ + wireType)) by lia.
    destruct (Z.ltb_spec (8 * id_ + wireType) 128) as [Hlt|Hge]; split; intros Hx;
      try lia.
    + rewrite Z.mod_small by lia. reflexivity.
    + exfalso. injection Hx as _ Hx. symmetry in Hx. revert Hx.
      apply varint_nonempty. apply Z.div_pos; lia.
  - intros H32.
    pose proof (write_finish_new s (Tag (id_ + 32) wireType) I) as E1.
    pose proof (write_finish_new s (Tag id_ wireType) I) as E2.
    simpl write in E1, E2. rewrite E1, E2, !Hbyte by lia.
    do 4 f_equal.
    replace (8 * (id_ + 32) + wireType mod 8)
      with (8 * id_ + wireType mod 8 + 1 * 256) by lia.
    apply Z.mod_add. lia.
Qed.

Lemma tag_single_byte_witness :
  (tag 16 2 (new_Writer false) ≫= finish)
    = Ok (Some [(8 * 16 + 2 mod 8) mod 256], new_Writer true)
  /\ (0 <= 2 < 8 ->
      (16 < 16 <-> [(8 * 16 + 2 mod 8) mod 256] = varint (8 * 16 + 2)))
  /\ (16 + 32 < 2 ^ 28 ->
      (tag (16 + 32) 2 (new_Writer false) ≫= finish)
      = (tag 16 2 (new_Writer false) ≫= finish)).
Proof. apply (tag_single_byte false 16 2). lia. Defined.

(** * Further properties of [Field] *)

(** What the constructor has checked, and built, when it returns. *)
Lemma new_Field_Ok name_ id_ type_ rule_ extend_ options_ o :
  new_Field name_ id_ type_ rule_ extend_ options_ = Ok o ->
  exists (r : option string) f,
    field o = Some f /\ ctor o = KField /\ name o = name_ /\ parent o = None
    /\ nested o = None
    /\ (forall x, r = Some x -> rule_regexp x = true)
    /\ rule f = match r with
                | Some x => if negb (String.eqb x "") && negb (String.eqb x "optional")
                            then Some x else None
                | None => None
                end
    /\ required f = bool_decide (r = Some "required"%string)
    /\ optional f = negb (required f)
    /\ repeated f = bool_decide (r = Some "repeated"%string)
    /\ id f = num_of id_ /\ 0 <= id f /\ type f = str_of type_
    /\ map f = false /\ resolvedType f = None /\ _packed f = None
    /\ extend f <> Some ""%string
    /\ isInteger id_ = true /\ isString type_ = true
    /\ (isObject rule_ = false -> isObject extend_ = false ->
        is_undefined extend_ = true \/ isString extend_ = true)
    /\ (isObject rule_ = false ->
        match rule_ with
        | JUndefined => r = None
        | JStr x => r = Some (toLowerCase x)
        | _ => False
        end).
Proof.
  unfold new_Field.
  assert (Hsh : exists r e op,
             (if isObject rule_ then (JUndefined, JUndefined, rule_)
              else if isObject extend_ then (rule_, JUndefined, extend_)
                   else (rule_, extend_, options_)) = (r, e, op)
             /\ (isObject rule_ = false -> r = rule_)
             /\ (isObject rule_ = false -> isObject extend_ = false -> e = extend_)).
  { destruct (isObject rule_); [|destruct (isObject extend_)];
      do 3 eexists; (split; [reflexivity|]); split; congruence. }
  destruct Hsh as (r & e & op & -> & Hr0 & He0).
  destruct (Z.ltb_spec (num_of id_) 0); [rewrite orb_true_r; discriminate|].
  destruct (isInteger id_); [|discriminate]. cbn [negb orb].
  destruct (isString type_); [|discriminate]. cbn [negb].
  destruct (negb (is_undefined e) && negb (isString e)) eqn:He; [discriminate|].
  assert (Hr : exists r', (if is_undefined r then Ok None else Some <$> checked_rule r)
                          = r'
                          /\ (forall x, r' = Ok (Some x) -> rule_regexp x = true)
                          /\ (forall y, r' = Ok y ->
                                match r with
                                | JUndefined => y = None
                                | JStr x => y = Some (toLowerCase x)
                                | _ => False
                                end)).
  { eexists. split; [reflexivity|].
    destruct r; simpl; try (split; intros; discriminate).
    - split; [discriminate|]. now intros y [= <-].
    - destruct (rule_regexp (toLowerCase s)) eqn:E; simpl.
      + split; [now intros x [= <-]|now intros y [= <-]].
      + split; intros; discriminate. }
  destruct Hr as (r' & -> & Hr' & Hr'').
  destruct r' as [r'| |]; try discriminate.
  rewrite bind_Ok. intros [= <-]. exists r'. eexists. simpl.
  repeat (split; [reflexivity|]).
  split; [intros x ->; now apply Hr'|].
  repeat (split; [reflexivity|]).
  split; [assumption|].
  repeat (split; [reflexivity|]).
  split; [|split; [reflexivity|split; [reflexivity|split]]].
  - destruct e; simpl in He; try discriminate He; simpl; [discriminate|].
    destruct (String.eqb_spec s ""); simpl; congruence.
  - intros H1 H2. rewrite <- (He0 H1 H2).
    destruct (is_undefined e); [now left|]. destruct (isString e); [now right|].
    discriminate.
  - intros H1. rewrite <- (Hr0 H1). now apply Hr''.
Qed.

(** The constructor fails with [TypeError] only. *)
Lemma new_Field_fails name_ id_ type_ rule_ extend_ options_ :
  match new_Field name_ id_ type_ rule_ extend_ options_ with
  | Ok _ | Throw TypeError => True
  | _ => False
  end.
Proof.
  unfold new_Field.
  destruct (if isObject rule_ then (JUndefined, JUndefined, rule_)
            else if isObject extend_ then (rule_, JUndefined, extend_)
                 else (rule_, extend_, options_)) as [[r e] op].
  destruct (negb (isInteger id_) || (num_of id_ <? 0)); [exact I|].
  destruct (negb (isString type_)); [exact I|].
  destruct (negb (is_undefined e) && negb (isString e)); [exact I|].
  destruct (is_undefined r); [exact I|].
  destruct r; simpl; try exact I.
  destruct (rule_regexp (toLowerCase s)); exact I.
Qed.

(** X15: whatever the arguments, a field the constructor returns has
    consistent flags: [optional] is the negation of [required], it is never
    both required and repeated, the flags agree with the stored rule, the rule
    [optional] is never stored, the id is not negative, [extend] is never the
    empty string, and the field has no parent and no resolved type yet. *)
Theorem Field_flags_consistent name_ id_ type_ rule_ extend_ options_ o :
  new_Field name_ id_ type_ rule_ extend_ options_ = Ok o ->
  exists f, field o = Some f
    /\ optional f = negb (required f)
    /\ required f && repeated f = false
    /\ (required f = true <-> rule f = Some "required"%string)
    /\ (repeated f = true <-> rule f = Some "repeated"%string)
    /\ rule f <> Some "optional"%string /\ rule f <> Some ""%string
    /\ 0 <= id f /\ extend f <> Some ""%string
    /\ parent o = None /\ resolvedType f = None /\ _packed f = None.
Proof.
  intros H.
  destruct (new_Field_Ok _ _ _ _ _ _ _ H)
    as (r & f & Hf & _ & _ & Hp & _ & _ & Hrule & Hreq & Hopt & Hrep & _ & Hid & _
        & _ & Hres & Hpk & Hext & _).
  exists f. split; [exact Hf|]. split; [exact Hopt|].
  assert (Hstored : forall x, rule f = Some x <-> (r = Some x /\ x <> "" /\ x <> "optional")%string).
  { intros x. rewrite Hrule. destruct r as [y|]; [|split; [discriminate|now intros [? _]]].
    destruct (String.eqb_spec y ""), (String.eqb_spec y "optional"); simpl;
      split; try discriminate; try (intros [[= ->] [? ?]]; congruence).
    intros [= ->]. auto. }
  rewrite Hreq, Hrep. repeat split; try assumption.
  - destruct r as [x|]; [|reflexivity].
    repeat case_bool_decide; simplify_eq; reflexivity.
  - intros Hq. apply bool_decide_eq_true in Hq. apply Hstored.
    repeat split; [assumption|discriminate|discriminate].
  - intros Hq. apply bool_decide_eq_true. now apply Hstored in Hq.
  - intros Hq. apply bool_decide_eq_true in Hq. apply Hstored.
    repeat split; [assumption|discriminate|discriminate].
  - intros Hq. apply bool_decide_eq_true. now apply Hstored in Hq.
  - intros Hq. apply Hstored in Hq. tauto.
  - intros Hq. apply Hstored in Hq. tauto.
Qed.

Lemma Field_flags_consistent_witness :
  exists f,
    field required_int32_field = Some f
    /\ optional f = negb (required f)
    /\ required f && repeated f = false
    /\ (required f = true <-> rule f = Some "required"%string)
    /\ (repeated f = true <-> rule f = Some "repeated"%string)
    /\ rule f <> Some "optional"%string /\ rule f <> Some ""%string
    /\ 0 <= id f /\ extend f <> Some ""%string
    /\ parent required_int32_field = None /\ resolvedType f = None
    /\ _packed f = None.
Proof.
  apply (Field_flags_consistent "a" (JNum 1) (JStr "int32") (JStr "Required")
           JUndefined JUndefined).
  reflexivity.
Defined.

(** The constructor on a rule string that passes the test, with no
    [extend]. *)
Lemma new_Field_rule name_ i t r opts :
  0 <= i -> rule_regexp (toLowerCase r) = true ->
  new_Field name_ (JNum i) (JStr t) (JStr r) JUndefined opts
  = Ok (mkObject KField name_ opts None None
          (Some (mkField
                   (if negb (String.eqb (toLowerCase r) "")
                       && negb (String.eqb (toLowerCase r) "optional")
                    then Some (toLowerCase r) else None)
                   t i None
                   (bool_decide (Some (toLowerCase r) = Some "required"%string))
                   (negb (bool_decide (Some (toLowerCase r) = Some "required"%string)))
                   (bool_decide (Some (toLowerCase r) = Some "repeated"%string))
                   false None None))).
Proof.
  intros Hi Hre. unfold new_Field. simpl.
  destruct (Z.ltb_spec i 0); [lia|]. simpl. rewrite Hre. reflexivity.
Qed.

(** X16: the rule is matched without regard to letter case: for a rule that
    is [required], [optional] or [repeated] in any mix of cases the
    constructor returns a field with exactly the matching flag set and the
    lowered rule stored, [optional] being stored as no rule. *)
Theorem Field_rule_case_insensitive name_ i t r opts :
  0 <= i ->
  toLowerCase r = "required"%string \/ toLowerCase r = "optional"%string
  \/ toLowerCase r = "repeated"%string ->
  exists o f,
    new_Field name_ (JNum i) (JStr t) (JStr r) JUndefined opts = Ok o
    /\ field o = Some f /\ options o = opts /\ id f = i /\ type f = t
    /\ required f = bool_decide (toLowerCase r = "required"%string)
    /\ repeated f = bool_decide (toLowerCase r = "repeated"%string)
    /\ optional f = negb (bool_decide (toLowerCase r = "required"%string))
    /\ rule f = if bool_decide (toLowerCase r = "optional"%string) then None
                else Some (toLowerCase r).
Proof.
  intros Hi Hr.
  assert (Hre : rule_regexp (toLowerCase r) = true)
    by (destruct Hr as [-> | [-> | ->]]; reflexivity).
  rewrite (new_Field_rule name_ i t r opts Hi Hre).
  destruct Hr as [-> | [-> | ->]]; do 2 eexists; repeat split; reflexivity.
Qed.

Lemma Field_rule_case_insensitive_witness :
  exists o f,
    new_Field "a" (JNum 7) (JStr "int32") (JStr "RePeated") JUndefined JUndefined = Ok o
    /\ field o = Some f /\ options o = JUndefined /\ id f = 7 /\ type f = "int32"%string
    /\ required f = bool_decide (toLowerCase "RePeated" = "required"%string)
    /\ repeated f = bool_decide (toLowerCase "RePeated" = "repeated"%string)
    /\ optional f = negb (bool_decide (toLowerCase "RePeated" = "required"%string))
    /\ rule f = if bool_decide (toLowerCase "RePeated" = "optional"%string) then None
                else Some (toLowerCase "RePeated").
Proof.
  apply (Field_rule_case_insensitive "a" 7 "int32" "RePeated" JUndefined).
  - lia.
  - right. right. reflexivity.
Defined.

(** X17: the constructor rejects, with [TypeError] and nothing else, an id
    that is no integer or is negative, a type that is no string, an [extend]
    that is neither undefined, a string nor an object, and a rule that is
    neither undefined nor an object nor a string passing the test ([null], a
    number, a boolean, the empty string). *)
Theorem Field_constructor_rejects name_ id_ type_ rule_ extend_ options_ :
  isInteger id_ = false \/ num_of id_ < 0 \/ isString type_ = false
  \/ (isObject rule_ = false /\ isObject extend_ = false
      /\ is_undefined extend_ = false /\ isString extend_ = false)
  \/ (isObject rule_ = false /\ is_undefined rule_ = false
      /\ forall x, rule_ = JStr x -> rule_regexp (toLowerCase x) = false) ->
  new_Field name_ id_ type_ rule_ extend_ options_ = Throw TypeError.
Proof.
  intros Hbad.
  pose proof (new_Field_fails name_ id_ type_ rule_ extend_ options_) as Hf.
  destruct (new_Field name_ id_ type_ rule_ extend_ options_) as [o|e|] eqn:E.
  - exfalso.
    destruct (new_Field_Ok _ _ _ _ _ _ _ E)
      as (r & f & _ & _ & _ & _ & _ & Hre & _ & _ & _ & _ & Hid & Hid0 & _ & _ & _ & _
          & _ & Hint & Hstr & Hext & Hrule).
    destruct Hbad as [H|[H|[H|[(H1 & H2 & H3 & H4)|(H1 & H2 & H3)]]]]; try congruence.
    + lia.
    + destruct (Hext H1 H2); congruence.
    + specialize (Hrule H1). destruct rule_; try contradiction; [discriminate|].
      subst r. specialize (H3 _ eq_refl). rewrite (Hre _ eq_refl) in H3.
      discriminate.
  - destruct e; try contradiction. reflexivity.
  - contradiction.
Qed.

Lemma Field_constructor_rejects_witness :
  new_Field "a" (JNum 1) (JStr "int32") JNull JUndefined JUndefined = Throw TypeError.
Proof.
  apply (Field_constructor_rejects "a" (JNum 1) (JStr "int32") JNull JUndefined
           JUndefined).
  right. right. right. right. repeat split. discriminate.
Defined.

(** ** The test of the rule *)












(** ** The encoder of a field *)

(** X19: a singular field of a scalar type, given a value of that type
    (the values [method] lists for the fifteen scalar types), is written as
    the one byte of [tag(id, wireType)] followed by what the writer method of
    its type writes for the value; the snapshot stack is left as it was. *)
Theorem encode_singular_scalar
    (encodeDelimited_ : ref -> jsval -> Writer -> result Writer)
    (other_method : string -> jsval -> Writer -> result Writer)
    h this f value wireType p w :
  field this = Some f -> repeated f = false ->
  wireTypes (element_type h f) = Some wireType ->
  method (element_type h f) value = Some p ->
  prim_ok p -> wf w ->
  exists w',
    encode_internal encodeDelimited_ other_method h this value w = Ok w'
    /\ wf w'
    /\ content w' = content w ++ encode (Tag (id f) wireType) ++ encode p
    /\ _stack w' = _stack w.
Proof.
  intros Hf Hrep Hwt Hm Hok Hwf.
  unfold encode_internal. rewrite Hf, Hrep, Hwt.
  destruct (tag_emitted (id f) wireType w Hwf) as (w1 & -> & Hem1).
  rewrite bind_Ok. unfold call_writer. rewrite Hm.
  destruct (write_emitted p w1 (em_wf _ _ _ Hem1) Hok) as (w2 & -> & Hem2).
  exists w2. split; [reflexivity|].
  destruct (emitted_trans _ _ _ _ _ Hem1 Hem2) as [W C S _]. auto.
Qed.

Lemma encode_singular_scalar_witness :
  exists w',
    encode_internal (fun _ _ w => Ok w) (fun _ _ w => Ok w) [] required_int32_field
                    (VNum 150) (new_Writer false) = Ok w'
    /\ wf w'
    /\ content w' = content (new_Writer false) ++ encode (Tag 1 0) ++ encode (Int32 150)
    /\ _stack w' = _stack (new_Writer false).
Proof.
  refine (encode_singular_scalar (fun _ _ w => Ok w) (fun _ _ w => Ok w) []
            required_int32_field _ (VNum 150) 0 (Int32 150) (new_Writer false)
            eq_refl eq_refl eq_refl eq_refl I _).
  unfold wf. simpl. repeat split; try reflexivity; lia.
Defined.

(** X20: the encoder has no branch for a repeated field that is not packed
    and has no resolved message type (a repeated [string] or [bytes] field, or
    a repeated number with the option [packed] false): it reads
    [encodeDelimited_] of the [null] in [resolvedType], so every array with
    an element throws [TypeError]; the empty array writes nothing. *)
Theorem encode_repeated_unpacked
    (encodeDelimited_ : ref -> jsval -> Writer -> result Writer)
    (other_method : string -> jsval -> Writer -> result Writer)
    h this f w :
  field this = Some f -> repeated f = true -> resolvedType f = None ->
  packed this f = false \/ packableWireTypes (type f) = None ->
  (forall v vs,
     encode_internal encodeDelimited_ other_method h this (VArr (v :: vs)) w
     = Throw TypeError)
  /\ encode_internal encodeDelimited_ other_method h this (VArr []) w = Ok w.
Proof.
  intros Hf Hrep Hres Hun.
  assert (Hel : element_type h f = type f)
    by (unfold element_type; now rewrite Hres).
  assert (Hbr : packed this f
                && bool_decide (is_Some (packableWireTypes (element_type h f)))
                = false).
  { rewrite Hel. destruct Hun as [-> | ->]; [reflexivity|].
    rewrite bool_decide_eq_false_2 by (intros [x Hx]; discriminate).
    apply andb_false_r. }
  unfold encode_internal. rewrite Hf, Hrep, Hbr. split; [|reflexivity].
  intros v vs. simpl. unfold encode_message. now rewrite Hres.
Qed.

Lemma encode_repeated_unpacked_witness :
  (forall v vs,
     encode_internal (fun _ _ w => Ok w) (fun _ _ w => Ok w) [] repeated_string_field
                     (VArr (v :: vs)) (new_Writer true)
     = Throw TypeError)
  /\ encode_internal (fun _ _ w => Ok w) (fun _ _ w => Ok w) [] repeated_string_field
                     (VArr []) (new_Writer true)
     = Ok (new_Writer true).
Proof.
  refine (encode_repeated_unpacked (fun _ _ w => Ok w) (fun _ _ w => Ok w) []
            repeated_string_field _ (new_Writer true) eq_refl eq_refl eq_refl _).
  right. reflexivity.
Defined.

Lemma encode_packed_witness :
  exists w',
    encode_internal (fun _ _ w => Ok w) (fun _ _ w => Ok w) [] packed_int32_field
                    (VArr [VNum 1; VNum 300]) (new_Writer true) = Ok w'
    /\ emitted (new_Writer true)
               (encode (Tag 3 2)
                  ++ varint (Z.of_nat (length (concat (encode <$> [Int32 1; Int32 300]))))
                  ++ concat (encode <$> [Int32 1; Int32 300])) w'.
Proof.
  refine (encode_packed (fun _ _ w => Ok w) (fun _ _ w => Ok w) [] packed_int32_field
            _ [VNum 1; VNum 300] [Int32 1; Int32 300] (new_Writer true)
            eq_refl eq_refl eq_refl _ _ _ _ _).
  - eexists. reflexivity.
  - repeat constructor.
  - repeat constructor.
  - vm_compute. reflexivity.
  - unfold wf. simpl. repeat split; try reflexivity; lia.
Defined.

(** ** [jsonConvert] *)

Lemma Array_map_cons {A B} (fn : A -> result B) val l :
  Array_map fn (val :: l) = (r ← fn val; rs ← Array_map fn l; Ok (r :: rs)).
Proof. reflexivity. Qed.

Lemma jsonConvert_repeated_numbers ns :
  jsonConvert_repeated (VArr (VNum <$> ns))
  = if forallb (Z.eqb 0) ns then Ok (VArr (replicate (length ns) (VArr [])))
    else Throw TypeError.
Proof.
  cbn [jsonConvert_repeated js_truthy negb].
  assert (H : Array_map jsonConvert_repeated (VNum <$> ns)
              = if forallb (Z.eqb 0) ns then Ok (replicate (length ns) (VArr []))
                else Throw TypeError).
  { induction ns as [|n ns IH]; [reflexivity|].
    cbn [fmap list_fmap forallb length replicate]. rewrite Array_map_cons.
    assert (E : jsonConvert_repeated (VNum n)
                = if 0 =? n then Ok (VArr []) else Throw TypeError).
    { rewrite (Z.eqb_sym 0 n). simpl. destruct (n =? 0); reflexivity. }
    rewrite E. destruct (0 =? n); [|reflexivity]. rewrite bind_Ok.
    change (list_fmap Z jsval VNum ns) with (VNum <$> ns). rewrite IH.
    destruct (forallb (Z.eqb 0) ns); reflexivity. }
  rewrite H. destruct (forallb (Z.eqb 0) ns); reflexivity.
Qed.

(** X22: [jsonConvert] on a repeated field converts each element as if it
    were the whole repeated value again: a falsy value gives the empty array,
    an array of numbers gives one empty array for each element when all are
    zero and throws [TypeError] as soon as one is not (a number has no
    [map]), and any other value that is not falsy throws [TypeError]; the
    elements themselves are never returned. *)
Theorem jsonConvert_repeated_field
    (valuesById : ref -> jsval -> jsval)
    (Long_toNumber : jsval -> result jsval)
    (Long_toString : jsval -> bool -> result jsval)
    h f options_ :
  repeated f = true ->
  (forall v, js_truthy v = false ->
     jsonConvert valuesById Long_toNumber Long_toString h f v options_ = Ok (VArr []))
  /\ (forall ns,
        jsonConvert valuesById Long_toNumber Long_toString h f (VArr (VNum <$> ns))
                    options_
        = if forallb (Z.eqb 0) ns then Ok (VArr (replicate (length ns) (VArr [])))
          else Throw TypeError)
  /\ (forall v, js_truthy v = true -> (forall l, v <> VArr l) ->
        jsonConvert valuesById Long_toNumber Long_toString h f v options_
        = Throw TypeError).
Proof.
  intros Hrep. unfold jsonConvert. rewrite Hrep. split; [|split].
  - intros v Hv. destruct v; simpl in *; try rewrite Hv; try reflexivity;
      discriminate.
  - apply jsonConvert_repeated_numbers.
  - intros v Hv Harr. destruct v; simpl in *; try rewrite Hv; try reflexivity.
    now destruct (Harr l).
Qed.

Lemma jsonConvert_repeated_field_witness :
  (forall v, js_truthy v = false ->
     jsonConvert (fun _ v => v) Ok (fun v _ => Ok v) []
                 (mkField (Some "repeated"%string) "int32" 3 None false true true false
                          None None) v None = Ok (VArr []))
  /\ (forall ns,
        jsonConvert (fun _ v => v) Ok (fun v _ => Ok v) []
                    (mkField (Some "repeated"%string) "int32" 3 None false true true
                             false None None) (VArr (VNum <$> ns)) None
        = if forallb (Z.eqb 0) ns then Ok (VArr (replicate (length ns) (VArr [])))
          else Throw TypeError)
  /\ (forall v, js_truthy v = true -> (forall l, v <> VArr l) ->
        jsonConvert (fun _ v => v) Ok (fun v _ => Ok v) []
                    (mkField (Some "repeated"%string) "int32" 3 None false true true
                             false None None) v None
        = Throw TypeError).
Proof.
  apply (jsonConvert_repeated_field (fun _ v => v) Ok (fun v _ => Ok v) []
           (mkField (Some "repeated"%string) "int32" 3 None false true true false
                    None None) None).
  reflexivity.
Defined.

(** * Further properties of [Namespace] *)

(** ** Maps and the heap *)

Lemma assoc_set_eq {A} k (v : A) m : assoc k (assoc_set k v m) = Some v.
Proof.
  induction m as [|[k' v'] m IH]; simpl.
  - now rewrite String.eqb_refl.
  - destruct (String.eqb k k') eqn:E; simpl; rewrite ?String.eqb_refl, ?E; auto.
Qed.

Lemma assoc_set_ne {A} k k' (v : A) m :
  k' <> k -> assoc k' (assoc_set k v m) = assoc k' m.
Proof.
  intros Hne. induction m as [|[k0 v0] m IH]; simpl.
  - now rewrite (proj2 (String.eqb_neq k' k) Hne).
  - destruct (String.eqb_spec k k0) as [<-|Hk]; simpl.
    + now rewrite (proj2 (String.eqb_neq k' k) Hne).
    + destruct (String.eqb k' k0); auto.
Qed.

Lemma lookup_set_nested_ne (h : heap) r r' n :
  r <> r' -> set_nested r n h !! r' = h !! r'.
Proof.
  intros Hne. unfold set_nested. destruct (h !! r); [|reflexivity].
  now apply list_lookup_insert_ne.
Qed.

Lemma lookup_set_parent (h : heap) r p o :
  h !! r = Some o ->
  set_parent r p h !! r
  = Some (mkObject (ctor o) (name o) (options o) p (nested o) (field o)).
Proof.
  intros H. unfold set_parent. rewrite H.
  apply list_lookup_insert_eq. eapply lookup_lt_Some. eassumption.
Qed.

Lemma lookup_set_parent_ne (h : heap) r r' p :
  r <> r' -> set_parent r p h !! r' = h !! r'.
Proof.
  intros Hne. unfold set_parent. destruct (h !! r); [|reflexivity].
  now apply list_lookup_insert_ne.
Qed.

Lemma length_set_nested (h : heap) r n : length (set_nested r n h) = length h.
Proof. unfold set_nested. destruct (h !! r); [apply length_insert|reflexivity]. Qed.

Lemma length_set_parent (h : heap) r p : length (set_parent r p h) = length h.
Proof. unfold set_parent. destruct (h !! r); [apply length_insert|reflexivity]. Qed.

Lemma set_nested_twice (h : heap) r n n' :
  set_nested r n (set_nested r n' h) = set_nested r n h.
Proof.
  destruct (h !! r) as [o|] eqn:H.
  - unfold set_nested at 1. rewrite (lookup_set_nested h r n' o H). simpl.
    unfold set_nested. rewrite H. apply list_insert_insert_eq.
  - unfold set_nested. rewrite H. now rewrite H.
Qed.

Lemma deref_Some (h : heap) r o : h !! r = Some o -> deref h r = Ok o.
Proof. intros H. unfold deref. now rewrite H. Qed.

(** What [get] returns, from the [nested] map of the namespace. *)
Lemma get_nested (h : heap) this n k :
  nested <$> (h !! this) = Some n -> get h this k = Ok (n ≫= assoc k).
Proof.
  unfold get, deref. destruct (h !! this) as [t|]; [|discriminate].
  intros [= <-]. rewrite bind_Ok. now destruct (nested t).
Qed.

(** [add] of an object whose name is not taken: the entry is stored and the
    parent is set. *)
Lemma add_fresh fuel (h : heap) this object_ t o :
  h !! this = Some t -> h !! object_ = Some o ->
  not_nestedType o = false ->
  (instanceof_Field o = true -> is_Some (field o ≫= extend)) ->
  nested t ≫= assoc (name o) = None ->
  add (S fuel) this object_ h
  = Ok (onAdd object_ this
          (set_nested this
             (Some (assoc_set (name o) object_ (default [] (nested t)))) h)).
Proof.
  intros Ht Ho Hk Hf Hfree. cbn [add].
  rewrite (deref_Some _ _ _ Ho), bind_Ok, Hk.
  assert (Hfield : instanceof_Field o
                   && negb (bool_decide (is_Some (field o ≫= extend))) = false).
  { destruct (instanceof_Field o); [|reflexivity].
    now rewrite (bool_decide_eq_true_2 _ (Hf eq_refl)). }
  rewrite Hfield, (deref_Some _ _ _ Ht), bind_Ok.
  destruct (nested t) as [m|] eqn:Hm.
  - simpl in Hfree.
    rewrite (get_nested h this (Some m) (name o)) by (now rewrite Ht; simpl; rewrite Hm).
    simpl. rewrite Hfree, !bind_Ok, (deref_Some _ _ _ Ht), bind_Ok, Hm. reflexivity.
  - rewrite bind_Ok.
    rewrite (deref_Some _ _ _ (lookup_set_nested h this _ t Ht)), bind_Ok.
    simpl. now rewrite set_nested_twice.
Qed.

(** The [nested] map of [this] after the stores of [add]. *)
Lemma nested_after_add (h : heap) this object_ t m :
  h !! this = Some t ->
  exists t', onAdd object_ this (set_nested this (Some m) h) !! this = Some t'
    /\ nested t' = Some m /\ ctor t' = ctor t.
Proof.
  intros Ht. unfold onAdd.
  pose proof (lookup_set_nested h this (Some m) t Ht) as H1.
  destruct (decide (object_ = this)) as [->|Hne].
  - rewrite (lookup_set_parent _ this _ _ H1). eexists. repeat split.
  - rewrite lookup_set_parent_ne by assumption. rewrite H1. eexists. repeat split.
Qed.

(** X23: [add], on a plain namespace, of an acceptable object whose name is
    not taken, and is none of the names every object inherits, returns, and afterwards [get] and
    [lookup] of that name return the object, its parent is the namespace,
    every other such name gives what it gave before, and no other object of
    the heap has changed. *)
Theorem add_get_fresh fuel (h : heap) this object_ t o :
  h !! this = Some t -> ctor t = KNamespace -> h !! object_ = Some o ->
  not_nestedType o = false ->
  (instanceof_Field o = true -> is_Some (field o ≫= extend)) ->
  own_name (name o) = true ->
  nested t ≫= assoc (name o) = None ->
  exists h',
    add (S fuel) this object_ h = Ok h'
    /\ get h' this (name o) = Ok (Some object_)
    /\ parent <$> (h' !! object_) = Some (Some this)
    /\ (forall k, k <> name o -> own_name k = true -> get h' this k = get h this k)
    /\ (forall r, r <> this -> r <> object_ -> h' !! r = h !! r)
    /\ length h' = length h
    /\ (name o <> ""%string ->
        forall fuel' flag, lookup (S fuel') h' this [name o] flag = Ok (Some object_)).
Proof.
  intros Ht _ Ho Hk Hf _ Hfree.
  rewrite (add_fresh fuel h this object_ t o Ht Ho Hk Hf Hfree).
  set (m := assoc_set (name o) object_ (default [] (nested t))).
  destruct (nested_after_add h this object_ t m Ht) as (t' & Ht' & Hn' & _).
  assert (Hnest : nested <$> (onAdd object_ this (set_nested this (Some m) h) !! this)
                  = Some (Some m)) by (now rewrite Ht'; simpl; rewrite Hn').
  eexists. split; [reflexivity|]. split; [|split; [|split; [|split; [|split]]]].
  - rewrite (get_nested _ _ _ _ Hnest). simpl. unfold m. now rewrite assoc_set_eq.
  - unfold onAdd.
    destruct (lookup_lt_is_Some_2 (set_nested this (Some m) h) object_) as [o1 Ho1].
    { rewrite length_set_nested. eapply lookup_lt_Some. eassumption. }
    now rewrite (lookup_set_parent _ _ _ _ Ho1).
  - intros k Hne _. rewrite (get_nested _ _ _ _ Hnest).
    rewrite (get_nested h this (nested t) k) by (now rewrite Ht).
    simpl. unfold m. rewrite assoc_set_ne by assumption.
    now destruct (nested t).
  - intros r H1 H2. unfold onAdd.
    rewrite lookup_set_parent_ne, lookup_set_nested_ne by congruence. reflexivity.
  - unfold onAdd. now rewrite length_set_parent, length_set_nested.
  - intros Hname fuel' flag. cbn [lookup].
    rewrite (proj2 (String.eqb_neq _ _) Hname), (deref_Some _ _ _ Ht'), bind_Ok, Hn'.
    simpl. unfold m. now rewrite assoc_set_eq.
Qed.

Lemma add_get_fresh_witness :
  exists h',
    add 1 0 2 detached_heap = Ok h'
    /\ get h' 0 "c" = Ok (Some 2%nat)
    /\ parent <$> (h' !! 2%nat) = Some (Some 0%nat)
    /\ (forall k, k <> "c"%string -> own_name k = true ->
        get h' 0 k = get detached_heap 0 k)
    /\ (forall r, r <> 0%nat -> r <> 2%nat -> h' !! r = detached_heap !! r)
    /\ length h' = length detached_heap
    /\ ("c"%string <> ""%string ->
        forall fuel' flag, lookup (S fuel') h' 0 ["c"%string] flag = Ok (Some 2%nat)).
Proof.
  refine (add_get_fresh 0 detached_heap 0 2 _ _ eq_refl eq_refl eq_refl eq_refl _
            eq_refl eq_refl).
  discriminate.
Defined.

(** X24: [add] of an object whose name is taken throws [Error] (duplicate
    name), unless the member of that name is a plain namespace and the object
    a [Type]. *)
Theorem add_duplicate_name fuel (h : heap) this object_ t o prev p :
  h !! this = Some t -> h !! object_ = Some o ->
  not_nestedType o = false ->
  (instanceof_Field o = true -> is_Some (field o ≫= extend)) ->
  nested t ≫= assoc (name o) = Some prev -> h !! prev = Some p ->
  instanceof_Namespace p && negb (instanceof_Type p) && instanceof_Type o = false ->
  add (S fuel) this object_ h = Throw Error.
Proof.
  intros Ht Ho Hk Hf Hprev Hp Hcase. cbn [add].
  rewrite (deref_Some _ _ _ Ho), bind_Ok, Hk.
  assert (Hfield : instanceof_Field o
                   && negb (bool_decide (is_Some (field o ≫= extend))) = false).
  { destruct (instanceof_Field o); [|reflexivity].
    now rewrite (bool_decide_eq_true_2 _ (Hf eq_refl)). }
  rewrite Hfield, (deref_Some _ _ _ Ht), bind_Ok.
  destruct (nested t) as [m|] eqn:Hm; [|discriminate].
  rewrite (get_nested h this (Some m) (name o)) by (now rewrite Ht; simpl; rewrite Hm).
  rewrite Hprev, bind_Ok, (deref_Some _ _ _ Hp), bind_Ok, Hcase.
  reflexivity.
Qed.

Lemma add_duplicate_name_witness : add 1 0 3 detached_heap = Throw Error.
Proof.
  refine (add_duplicate_name 0 detached_heap 0 3 _ _ 1 _ eq_refl eq_refl eq_refl _
            eq_refl eq_refl eq_refl).
  discriminate.
Defined.

(** X25: [add] throws [TypeError], before it looks at the namespace, for an
    object whose class is none of [Enum], [Type], [Service], [Field] and
    [Namespace], and for a field that has no [extend]. *)
Theorem add_rejects fuel (h : heap) this object_ o :
  h !! object_ = Some o ->
  not_nestedType o = true
  \/ (instanceof_Field o = true /\ field o ≫= extend = None) ->
  add (S fuel) this object_ h = Throw TypeError.
Proof.
  intros Ho Hbad. cbn [add]. rewrite (deref_Some _ _ _ Ho), bind_Ok.
  destruct Hbad as [-> | [Hfld Hext]]; [reflexivity|].
  destruct (not_nestedType o); [reflexivity|].
  rewrite Hfld, Hext.
  rewrite bool_decide_eq_false_2 by (intros [x Hx]; discriminate). reflexivity.
Qed.

Lemma add_rejects_witness :
  add 1 0 1 unacceptable_heap = Throw TypeError
  /\ add 1 0 2 unacceptable_heap = Throw TypeError.
Proof.
  split.
  - refine (add_rejects 0 unacceptable_heap 0 1 _ eq_refl _).
    right. split; reflexivity.
  - refine (add_rejects 0 unacceptable_heap 0 2 _ eq_refl _).
    left. reflexivity.
Defined.

(** What [remove] of a member stores. *)
Lemma remove_member_heap (h : heap) this object_ t o m :
  h !! this = Some t -> h !! object_ = Some o ->
  parent o = Some this -> nested t = Some m ->
  remove this object_ h
  = Ok (onRemove object_ this
          (set_nested this (match assoc_delete (name o) m with
                            | [] => Some []
                            | _ :: _ => None
                            end) h)).
Proof.
  intros Ht Ho Hp Hm. unfold remove.
  rewrite (deref_Some _ _ _ Ho), bind_Ok, Hp, bool_decide_eq_true_2 by reflexivity.
  cbn [negb]. rewrite (deref_Some _ _ _ Ht), bind_Ok, Hm.
  rewrite (deref_Some _ _ _ (lookup_set_nested h this _ t Ht)), bind_Ok.
  unfold empty. simpl.
  destruct (assoc_delete (name o) m) as [|e rest]; simpl; [reflexivity|].
  now rewrite set_nested_twice.
Qed.

(** X26: on a plain namespace, [remove] of an object whose parent is not
    the namespace throws [Error]; [remove] of a member returns, and afterwards [get] of its name
    (a name that is none of those every object inherits) returns [null], the
    object has no parent, and no object other than the two has changed. *)
Theorem remove_member (h : heap) this object_ t o :
  h !! this = Some t -> ctor t = KNamespace -> h !! object_ = Some o ->
  (parent o <> Some this -> remove this object_ h = Throw Error)
  /\ (parent o = Some this -> is_Some (nested t) -> own_name (name o) = true ->
      exists h', remove this object_ h = Ok h'
        /\ get h' this (name o) = Ok None
        /\ parent <$> (h' !! object_) = Some None
        /\ (forall r, r <> this -> r <> object_ -> h' !! r = h !! r)).
Proof.
  intros Ht _ Ho. split.
  - intros Hp. unfold remove.
    rewrite (deref_Some _ _ _ Ho), bind_Ok, bool_decide_eq_false_2 by assumption.
    reflexivity.
  - intros Hp [m Hm] _.
    rewrite (remove_member_heap h this object_ t o m Ht Ho Hp Hm).
    set (n := match assoc_delete (name o) m with [] => Some [] | _ :: _ => None end).
    eexists. split; [reflexivity|]. split; [|split].
    + rewrite (get_nested _ _ n).
      * unfold n. now destruct (assoc_delete (name o) m).
      * unfold onRemove. rewrite nested_set_parent.
        now rewrite (lookup_set_nested h this n t Ht).
    + unfold onRemove.
      destruct (lookup_lt_is_Some_2 (set_nested this n h) object_) as [o1 Ho1].
      { rewrite length_set_nested. eapply lookup_lt_Some. eassumption. }
      now rewrite (lookup_set_parent _ _ _ _ Ho1).
    + intros r H1 H2. unfold onRemove.
      rewrite lookup_set_parent_ne, lookup_set_nested_ne by congruence. reflexivity.
Qed.

Lemma remove_member_witness :
  exists h', remove 0 1 two_enums = Ok h'
    /\ get h' 0 "a" = Ok None
    /\ parent <$> (h' !! 1%nat) = Some None
    /\ (forall r, r <> 0%nat -> r <> 1%nat -> h' !! r = two_enums !! r).
Proof.
  apply (proj2 (remove_member two_enums 0 1 _ _ eq_refl eq_refl eq_refl)).
  - reflexivity.
  - eexists. reflexivity.
  - reflexivity.
Defined.

(** X27: after [remove] has taken one member out of a namespace that holds
    others, the [nested] map is gone although the others still name the
    namespace as their parent: [remove] of any of them throws [TypeError]
    ([delete] on [undefined]). *)
Theorem remove_second_member_throws (h : heap) this a b t oa ob m :
  h !! this = Some t -> nested t = Some m ->
  h !! a = Some oa -> parent oa = Some this ->
  h !! b = Some ob -> parent ob = Some this ->
  b <> a -> b <> this ->
  assoc_delete (name oa) m <> [] ->
  exists h', remove this a h = Ok h' /\ remove this b h' = Throw TypeError.
Proof.
  intros Ht Hm Ha Hpa Hb Hpb Hba Hbt Hrest.
  rewrite (remove_member_heap h this a t oa m Ht Ha Hpa Hm).
  destruct (assoc_delete (name oa) m) as [|e rest]; [congruence|].
  eexists. split; [reflexivity|]. unfold remove, onRemove.
  assert (Hb' : set_parent a None (set_nested this None h) !! b = Some ob).
  { rewrite lookup_set_parent_ne, lookup_set_nested_ne by congruence. exact Hb. }
  rewrite (deref_Some _ _ _ Hb'), bind_Ok, Hpb, bool_decide_eq_true_2 by reflexivity.
  cbn [negb].
  pose proof (lookup_set_nested h this None t Ht) as H1.
  destruct (decide (a = this)) as [->|Hne].
  - rewrite (deref_Some _ _ _ (lookup_set_parent _ this None _ H1)), bind_Ok.
    reflexivity.
  - rewrite (deref_Some _ this _
               (eq_trans (lookup_set_parent_ne _ a this None Hne) H1)), bind_Ok.
    reflexivity.
Qed.

Lemma remove_second_member_throws_witness :
  exists h', remove 0 1 two_enums = Ok h' /\ remove 0 2 h' = Throw TypeError.
Proof.
  refine (remove_second_member_throws two_enums 0 1 2 _ _ _ _ eq_refl eq_refl eq_refl
            eq_refl eq_refl eq_refl _ _ _); discriminate.
Defined.

(** ** [define] *)

Lemma heap_grows_refl h : heap_grows h h.
Proof. intros r o H. eauto. Qed.

Lemma heap_grows_trans h1 h2 h3 :
  heap_grows h1 h2 -> heap_grows h2 h3 -> heap_grows h1 h3.
Proof.
  intros H12 H23 r o H.
  destruct (H12 r o H) as (o2 & H2 & C2 & N2).
  destruct (H23 r o2 H2) as (o3 & H3 & C3 & N3).
  exists o3. split; [assumption|]. split; [congruence|]. auto.
Qed.

Lemma heap_grows_alloc (h : heap) o : heap_grows h (h ++ [o]).
Proof.
  intros r o' H. exists o'. split; [|auto].
  rewrite lookup_app_l; [assumption|]. eapply lookup_lt_Some. eassumption.
Qed.

Lemma heap_grows_set_parent (h : heap) r p : heap_grows h (set_parent r p h).
Proof.
  intros r' o H. destruct (decide (r = r')) as [<-|Hne].
  - rewrite (lookup_set_parent h r p o H). eexists. split; [reflexivity|]. auto.
  - rewrite lookup_set_parent_ne by assumption. eauto.
Qed.

Lemma heap_grows_set_nested (h : heap) r t n :
  h !! r = Some t ->
  (forall k v, nested t ≫= assoc k = Some v -> n ≫= assoc k = Some v) ->
  heap_grows h (set_nested r n h).
Proof.
  intros Ht Hn r' o H. destruct (decide (r = r')) as [<-|Hne].
  - rewrite (lookup_set_nested h r n t Ht). eexists. split; [reflexivity|].
    assert (o = t) by congruence. subst o. auto.
  - rewrite lookup_set_nested_ne by assumption. eauto.
Qed.

(** One turn of the loop of [define] on a part that is not a member. *)
Lemma define_loop_new fa visible part path ptr (h : heap) vis t :
  h !! ptr = Some t -> nested t ≫= assoc part = None ->
  define_loop (S fa) visible (part :: path) ptr h vis
  = define_loop (S fa) visible path (length h) (defined_step h ptr t part)
      ((length h, visible) :: vis).
Proof.
  intros Ht Hfree. cbn [define_loop]. rewrite (deref_Some _ _ _ Ht), bind_Ok, Hfree.
  unfold alloc.
  assert (Hptr : (h ++ [new_Namespace part JUndefined]) !! ptr = Some t).
  { rewrite lookup_app_l; [assumption|]. eapply lookup_lt_Some. eassumption. }
  assert (Hnew : (h ++ [new_Namespace part JUndefined]) !! length h
                 = Some (new_Namespace part JUndefined)).
  { rewrite lookup_app_r by lia. now rewrite Nat.sub_diag. }
  rewrite (add_fresh fa _ ptr (length h) t _ Hptr Hnew eq_refl) by
    (assumption || discriminate).
  rewrite bind_Ok. reflexivity.
Qed.

Lemma defined_step_facts (h : heap) ptr t part :
  h !! ptr = Some t -> nested t ≫= assoc part = None ->
  heap_grows h (defined_step h ptr t part)
  /\ length (defined_step h ptr t part) = S (length h)
  /\ defined_step h ptr t part !! ptr
     = Some (mkObject (ctor t) (name t) (options t) (parent t)
               (Some (assoc_set part (length h) (default [] (nested t)))) (field t))
  /\ defined_step h ptr t part !! length h
     = Some (mkObject KNamespace part JUndefined (Some ptr) None None)
  /\ (forall r, r <> ptr -> r <> length h -> defined_step h ptr t part !! r = h !! r).
Proof.
  intros Ht Hfree.
  assert (Hlt : (ptr < length h)%nat) by (eapply lookup_lt_Some; eassumption).
  assert (Hptr : (h ++ [new_Namespace part JUndefined]) !! ptr = Some t)
    by (rewrite lookup_app_l; assumption).
  assert (Hnew : (h ++ [new_Namespace part JUndefined]) !! length h
                 = Some (new_Namespace part JUndefined))
    by (rewrite lookup_app_r by lia; now rewrite Nat.sub_diag).
  unfold defined_step, onAdd. split; [|split; [|split; [|split]]].
  - eapply heap_grows_trans; [apply heap_grows_alloc|].
    eapply heap_grows_trans; [|apply heap_grows_set_parent].
    apply (heap_grows_set_nested _ ptr t); [assumption|].
    intros k v Hk. simpl. destruct (String.eqb_spec k part) as [->|Hne].
    + congruence.
    + rewrite assoc_set_ne by assumption. destruct (nested t); [exact Hk|discriminate].
  - rewrite length_set_parent, length_set_nested, length_app. simpl. lia.
  - rewrite lookup_set_parent_ne by lia. apply lookup_set_nested. assumption.
  - erewrite lookup_set_parent
      by (rewrite lookup_set_nested_ne by lia; exact Hnew).
    reflexivity.
  - intros r H1 H2. rewrite lookup_set_parent_ne, lookup_set_nested_ne by congruence.
    destruct (decide (r < length h)%nat).
    + now rewrite lookup_app_l.
    + rewrite !lookup_ge_None_2; [reflexivity|lia|rewrite length_app; simpl; lia].
Qed.

(** [lookup] follows an entry that a later heap has kept. *)
Lemma lookup_descend (hm h' : heap) ptr tm part c fc path p fuel flag :
  heap_grows hm h' ->
  hm !! ptr = Some tm -> nested tm ≫= assoc part = Some c ->
  part <> ""%string ->
  hm !! c = Some fc -> instanceof_Namespace fc = true ->
  (path = [] -> p = c) ->
  (path <> [] -> lookup fuel h' c path true = Ok (Some p)) ->
  lookup (S fuel) h' ptr (part :: path) flag = Ok (Some p).
Proof.
  intros Hg Hptr Hent Hpart Hc Hns Hnil Hcons.
  destruct (Hg ptr tm Hptr) as (t' & Ht' & _ & Hkeep).
  destruct (Hg c fc Hc) as (f' & Hf' & Hctor & _).
  cbn [lookup]. rewrite (proj2 (String.eqb_neq _ _) Hpart).
  rewrite (deref_Some _ _ _ Ht'), bind_Ok, (Hkeep _ _ Hent).
  destruct path as [|q qs]; [now rewrite Hnil|].
  rewrite (deref_Some _ _ _ Hf'), bind_Ok.
  assert (Hns' : instanceof_Namespace f' = true)
    by (unfold instanceof_Namespace in *; now rewrite Hctor).
  rewrite Hns', Hcons by discriminate. reflexivity.
Qed.

(** When the loop of [define] returns, the heap has grown and [lookup] of
    the path finds the namespace it returns. *)
Lemma define_loop_spec fa visible path : forall ptr (h : heap) vis p h' vis',
  define_loop fa visible path ptr h vis = Ok (p, h', vis') ->
  heap_grows h h'
  /\ (path = [] -> p = ptr)
  /\ (path <> [] -> Forall (fun s => s <> ""%string) path ->
      forall fuel flag, (length path <= fuel)%nat ->
        lookup fuel h' ptr path flag = Ok (Some p)).
Proof.
  induction path as [|part path IH]; intros ptr h vis p h' vis' H.
  { simpl in H. injection H as <- <- <-. split; [apply heap_grows_refl|].
    split; [reflexivity|]. intros Hne. now destruct Hne. }
  assert (Hstep : exists hm tm c fc vm,
             heap_grows h hm /\ hm !! ptr = Some tm
             /\ nested tm ≫= assoc part = Some c
             /\ hm !! c = Some fc /\ instanceof_Namespace fc = true
             /\ define_loop fa visible path c hm vm = Ok (p, h', vis')).
  { pose proof H as H0. cbn [define_loop] in H.
    destruct (h !! ptr) as [t|] eqn:Ht;
      [rewrite (deref_Some _ _ _ Ht), bind_Ok in H
      |unfold deref in H; rewrite Ht in H; discriminate H].
    destruct (nested t ≫= assoc part) as [found|] eqn:Hent.
    - destruct (h !! found) as [f|] eqn:Hf;
        [rewrite (deref_Some _ _ _ Hf), bind_Ok in H
        |unfold deref in H; rewrite Hf in H; discriminate H].
      destruct (instanceof_Namespace f) eqn:Hns; [|discriminate H].
      exists h, t, found, f. eexists. repeat split; try eassumption.
      + apply heap_grows_refl.
      + exact H.
    - destruct fa as [|fa]; [discriminate H|].
      rewrite (define_loop_new fa visible part path ptr h vis t Ht Hent) in H0.
      destruct (defined_step_facts h ptr t part Ht Hent) as (Hg & _ & Hp & Hn & _).
      exists (defined_step h ptr t part). do 4 eexists.
      split; [exact Hg|]. split; [exact Hp|]. split; [apply assoc_set_eq|].
      split; [exact Hn|]. split; [reflexivity|exact H0]. }
  destruct Hstep as (hm & tm & c & fc & vm & Hg & Hptr & Hent & Hc & Hns & Hrest).
  destruct (IH c hm vm p h' vis' Hrest) as (Hg' & Hnil & Hcons).
  split; [eapply heap_grows_trans; eassumption|]. split; [discriminate|].
  intros _ Hall fuel flag Hfuel. inversion Hall as [|? ? Hpart Hpath]; subst.
  destruct fuel as [|fuel]; [simpl in Hfuel; lia|].
  apply (lookup_descend hm h' ptr tm part c fc path p fuel flag); auto.
  intros Hne. apply Hcons; [assumption|assumption|simpl in Hfuel; lia].
Qed.

(** [addJSON] returns only when there is nothing to add, and then it has
    not touched the heap. *)
Lemma addJSON_Ok
    (Enum_fromJSON Type_fromJSON Service_fromJSON :
       string -> json -> heap -> result (ref * heap))
    fuel this j (h h' : heap) :
  addJSON Enum_fromJSON Type_fromJSON Service_fromJSON fuel this j h = Ok h' ->
  h' = h /\ (truthy j = false \/ entries j = []).
Proof.
  intros H. destruct (truthy j) eqn:Ht.
  - destruct (entries j) as [|e es] eqn:He.
    + destruct fuel as [|fuel]; [discriminate H|]. simpl in H. rewrite Ht, He in H.
      injection H as <-. auto.
    + exfalso. revert H. apply addJSON_never_returns; [assumption|].
      rewrite He. discriminate.
  - destruct fuel as [|fuel]; [discriminate H|]. simpl in H. rewrite Ht in H.
    injection H as <-. auto.
Qed.

(** X28: whenever [define] returns, [lookup] of the path from the same
    namespace, as the dotted string or as an array of the same parts, finds
    the namespace that [define] returned (every part of the path being a
    name, that is, not empty).  The array [define] was given is empty
    afterwards: [lookup] of that very array returns [null]. *)
Theorem define_then_lookup
    (Enum_fromJSON Type_fromJSON Service_fromJSON :
       string -> json -> heap -> result (ref * heap))
    fa this arg json_ visible (h : heap) vis p h' vis' after path :
  define Enum_fromJSON Type_fromJSON Service_fromJSON fa this arg json_ visible h vis
  = Ok (p, h', vis', after) ->
  arg = PArray path \/ (exists s, arg = PValue (JStr s) /\ path = split_dots s) ->
  path <> [] -> Forall (fun s => s <> ""%string) path ->
  forall fuel flag, (length path <= fuel)%nat ->
    lookup fuel h' this path flag = Ok (Some p)
    /\ (forall s, arg = PValue (JStr s) ->
          lookup_string fuel h' this s flag = Ok (Some p))
    /\ (forall l, after = Some l -> lookup (S fuel) h' this l flag = Ok None).
Proof.
  intros H Harg Hne Hall fuel flag Hfuel.
  assert (Hloop : (exists v vm, define_loop fa v path this h vis = Ok (p, h', vm))
                  /\ forall l, after = Some l -> l = []).
  { unfold define in H.
    set (array_after := match arg with PArray _ => Some [] | PValue _ => None end) in H.
    assert (Hafter : forall l, array_after = Some l -> l = [])
      by (unfold array_after; destruct arg; congruence).
    assert (Hp : exists j v,
               match arg with
               | PArray l => (Some l, json_, visible)
               | PValue (JStr s) => (Some (split_dots s), json_, visible)
               | PValue j => (None, j, json_)
               end = (Some path, j, v))
      by (destruct Harg as [-> | (s & -> & ->)]; eauto).
    destruct Hp as (j & v & Hp). rewrite Hp in H.
    destruct (match j with JBool _ => (JUndefined, j) | _ => (j, v) end) as [j' v'].
    destruct (define_loop fa (if is_undefined v' then JNull else v') path this h vis)
      as [[[p1 h1] v1]| |] eqn:E; try discriminate H.
    rewrite bind_Ok in H.
    destruct (truthy j').
    - destruct (addJSON _ _ _ fa p1 j' h1) as [h2| |] eqn:Ej; try discriminate H.
      apply addJSON_Ok in Ej as [-> _]. rewrite bind_Ok in H.
      injection H as <- <- <- <-. eauto.
    - rewrite bind_Ok in H. injection H as <- <- <- <-. eauto. }
  destruct Hloop as ((v & vm & Hloop) & Hafter).
  destruct (define_loop_spec fa v path this h vis p h' vm Hloop) as (_ & _ & Hl).
  split; [now apply Hl|]. split.
  - intros s ->. destruct Harg as [Ha | (s' & [= <-] & ->)]; [discriminate Ha|].
    unfold lookup_string.
    destruct (String.eqb_spec s "") as [->|_].
    + inversion Hall as [|? ? Hbad _]. now destruct Hbad.
    + now apply Hl.
  - intros l Hl'. now rewrite (Hafter l Hl').
Qed.

Lemma define_then_lookup_witness :
  exists p h' vis' after,
    define (fun _ _ _ => Throw TypeError) (fun _ _ _ => Throw TypeError)
           (fun _ _ _ => Throw TypeError) 1 0 (PValue (JStr "a.b")) JUndefined
           JUndefined [mk_namespace KNamespace "" None None] []
    = Ok (p, h', vis', after)
    /\ lookup 2 h' 0 ["a"; "b"]%string false = Ok (Some p)
    /\ lookup_string 2 h' 0 "a.b" false = Ok (Some p).
Proof.
  do 4 eexists. split; [vm_compute; reflexivity|].
  pose proof (define_then_lookup
                (fun _ _ _ => Throw TypeError) (fun _ _ _ => Throw TypeError)
                (fun _ _ _ => Throw TypeError) 1 0 (PValue (JStr "a.b")) JUndefined
                JUndefined [mk_namespace KNamespace "" None None] [] _ _ _ _
                ["a"; "b"]%string eq_refl) as H.
  destruct (H (or_intror (ex_intro _ "a.b"%string (conj eq_refl eq_refl)))
              ltac:(discriminate) ltac:(repeat constructor; discriminate)
              2%nat false ltac:(simpl; lia)) as (H1 & H2 & _).
  split; [exact H1|]. exact (H2 _ eq_refl).
Defined.

(** The loop of [define] on a path whose first part is not a member: one
    new namespace for every part. *)
Lemma define_loop_creates_path fa visible path : forall ptr (h : heap) vis t,
  h !! ptr = Some t ->
  path <> [] ->
  (forall part, head path = Some part -> nested t ≫= assoc part = None) ->
  exists h' vis',
    define_loop (S fa) visible path ptr h vis
    = Ok ((length h + length path - 1)%nat, h', vis')
    /\ length h' = (length h + length path)%nat
    /\ (forall r, (r < length h)%nat -> r <> ptr -> h' !! r = h !! r)
    /\ (exists t', h' !! ptr = Some t'
          /\ ctor t' = ctor t /\ name t' = name t /\ parent t' = parent t
          /\ nested t' = (part ← head path;
                          Some (assoc_set part (length h) (default [] (nested t)))))
    /\ (forall i part, path !! i = Some part ->
          exists o, h' !! (length h + i)%nat = Some o
            /\ ctor o = KNamespace /\ name o = part
            /\ parent o = Some (match i with
                                | O => ptr
                                | S j => (length h + j)%nat
                                end)
            /\ nested o = (next ← path !! S i;
                           Some [(next, (length h + S i)%nat)])).
Proof.
  induction path as [|part path IH]; intros ptr h vis t Ht Hne Hfree; [congruence|].
  specialize (Hfree part eq_refl).
  assert (Hlt : (ptr < length h)%nat) by (eapply lookup_lt_Some; eassumption).
  rewrite (define_loop_new fa visible part path ptr h vis t Ht Hfree).
  destruct (defined_step_facts h ptr t part Ht Hfree) as (_ & Hlen & Hp & Hn & Hother).
  destruct path as [|q rest].
  - do 2 eexists. split; [simpl; do 3 f_equal; lia|].
    split; [simpl; lia|]. split; [intros r H1 H2; apply Hother; lia|].
    split; [eexists; split; [exact Hp|]; repeat split|].
    intros [|i] part' Hi; [|discriminate Hi]. injection Hi as <-.
    rewrite Nat.add_0_r. eexists. split; [exact Hn|]. repeat split.
  - destruct (IH (length h) (defined_step h ptr t part) ((length h, visible) :: vis)
                _ Hn ltac:(discriminate) ltac:(intros; reflexivity))
      as (h' & vis' & E & Hlen' & Hold & (t' & Ht' & Hc' & Hname' & Hpar' & Hnest')
          & Hnew).
    rewrite Hlen in *.
    exists h', vis'. split; [rewrite E; do 3 f_equal; simpl; lia|].
    split; [rewrite Hlen'; simpl; lia|].
    split; [intros r H1 H2; rewrite Hold by lia; apply Hother; lia|].
    split.
    { exists (mkObject (ctor t) (name t) (options t) (parent t)
                (Some (assoc_set part (length h) (default [] (nested t)))) (field t)).
      rewrite Hold by lia. split; [exact Hp|]. repeat split. }
    intros [|i] part' Hi.
    + injection Hi as <-. rewrite Nat.add_0_r. exists t'.
      split; [exact Ht'|]. simpl in Hc', Hname', Hpar', Hnest'.
      repeat split; try assumption. rewrite Hnest'. simpl. do 3 f_equal. lia.
    + destruct (Hnew i part' Hi) as (o & Ho & Hco & Hno & Hpo & Hneo).
      exists o. replace (length h + S i)%nat with (S (length h) + i)%nat by lia.
      split; [exact Ho|]. split; [exact Hco|]. split; [exact Hno|]. split.
      * rewrite Hpo. destruct i; f_equal; lia.
      * rewrite Hneo. change ((part :: q :: rest) !! S (S i)) with ((q :: rest) !! S i).
        destruct ((q :: rest) !! S i); simpl; [do 3 f_equal; lia|reflexivity].
Qed.

(** X29: [define], on a plain namespace, of an array path whose parts are
    names (not empty, and none of the names every object inherits) and whose
    first part is not yet a member never throws: it allocates one namespace
    for every part, each with the one before as parent and the next as only
    member, returns the last one,
    stores the first under its name in the [nested] map of the namespace it
    was called on, and changes no other object; the array it was given is
    empty afterwards. *)
Theorem define_creates_path
    (Enum_fromJSON Type_fromJSON Service_fromJSON :
       string -> json -> heap -> result (ref * heap))
    fa visible path this (h : heap) vis t :
  h !! this = Some t -> ctor t = KNamespace ->
  path <> [] ->
  Forall (fun part => part <> ""%string /\ own_name part = true) path ->
  (forall part, head path = Some part -> nested t ≫= assoc part = None) ->
  exists h' vis',
    define Enum_fromJSON Type_fromJSON Service_fromJSON (S fa) this (PArray path)
           JUndefined visible h vis
    = Ok ((length h + length path - 1)%nat, h', vis', Some [])
    /\ length h' = (length h + length path)%nat
    /\ (forall r, (r < length h)%nat -> r <> this -> h' !! r = h !! r)
    /\ (exists t', h' !! this = Some t'
          /\ ctor t' = ctor t /\ name t' = name t /\ parent t' = parent t
          /\ nested t' = (part ← head path;
                          Some (assoc_set part (length h) (default [] (nested t)))))
    /\ (forall i part, path !! i = Some part ->
          exists o, h' !! (length h + i)%nat = Some o
            /\ ctor o = KNamespace /\ name o = part
            /\ parent o = Some (match i with
                                | O => this
                                | S j => (length h + j)%nat
                                end)
            /\ nested o = (next ← path !! S i;
                           Some [(next, (length h + S i)%nat)])).
Proof.
  intros Ht _ Hne _ Hfree.
  destruct (define_loop_creates_path fa (if is_undefined visible then JNull else visible)
              path this h vis t Ht Hne Hfree) as (h' & vis' & E & Hrest).
  exists h', vis'. split; [|exact Hrest].
  unfold define. cbn [truthy]. rewrite E. reflexivity.
Qed.

Lemma define_creates_path_witness :
  exists h' vis',
    define (fun _ _ _ => Throw TypeError) (fun _ _ _ => Throw TypeError)
           (fun _ _ _ => Throw TypeError) 1 0 (PArray ["a"; "b"]%string) JUndefined
           JUndefined [mk_namespace KNamespace "" None None] []
    = Ok (2%nat, h', vis', Some [])
    /\ length h' = 3%nat.
Proof.
  destruct (define_creates_path
              (fun _ _ _ => Throw TypeError) (fun _ _ _ => Throw TypeError)
              (fun _ _ _ => Throw TypeError) 0 JUndefined ["a"; "b"]%string 0
              [mk_namespace KNamespace "" None None] [] _ eq_refl eq_refl
              ltac:(discriminate) ltac:(repeat constructor; discriminate)
              ltac:(intros; reflexivity))
    as (h' & vis' & E & L & _).
  exists h', vis'. split; [exact E|exact L].
Defined.

(** X30: [addJSON] returns in one case only, when there is nothing to add
    (a falsy JSON, or one without keys such as an empty object or a number),
    and it has then left the heap as it was; with any key it throws or does
    not return, whatever the entry describes. *)
Theorem addJSON_returns_unchanged
    (Enum_fromJSON Type_fromJSON Service_fromJSON :
       string -> json -> heap -> result (ref * heap))
    fuel this j (h : heap) :
  (truthy j = false \/ entries j = [] ->
   addJSON Enum_fromJSON Type_fromJSON Service_fromJSON (S fuel) this j h = Ok h)
  /\ (forall fuel' h',
        addJSON Enum_fromJSON Type_fromJSON Service_fromJSON fuel' this j h = Ok h' ->
        h' = h /\ (truthy j = false \/ entries j = [])).
Proof.
  split.
  - intros Hj. simpl. destruct (truthy j); [|reflexivity].
    destruct Hj as [Hj|Hj]; [discriminate Hj|]. now rewrite Hj.
  - intros fuel' h'. apply addJSON_Ok.
Qed.
